(** * Quoridor rules engine (quoridor.py): shallow embedding and verification

    The Python class [Quoridor] is embedded as a record; its methods become
    functions in a state-and-exception monad in which the state survives an
    exception, exactly as a Python object keeps the mutations made before a
    [raise].  Python integers are [Z]; a Python list is a [list] indexed
    through [getitem]/[setitem], which implement Python's bounds check and
    its wrap-around of negative indices.  Python sets are [gset]s. *)

From stdpp Require Import base decidable option list numbers relations gmap
  strings.
From Stdlib Require Import ZArith Lia Ascii.

Local Open Scope Z_scope.
Set Warnings "-clear-no-such-hyp".

(** ** Exceptions and results *)

(** [OutOfFuel] is not a Python exception: it marks the exhaustion of the
    recursion budget of the two depth-first traversals, and is shown below
    never to be produced on well-formed boards.  (CPython's own recursion
    limit is not modelled.) *)
Inductive exn : Type :=
  | IndexError
  | ValueError (msg : string)
  | ZeroDivisionError
  | OutOfFuel.

Inductive result (A : Type) : Type :=
  | Ok (a : A)
  | Raise (e : exn).
Arguments Ok {A} a.
Arguments Raise {A} e.

Definition rbind {A B} (m : result A) (f : A → result B) : result B :=
  match m with
  | Ok a => f a
  | Raise e => Raise e
  end.

Declare Scope res_scope.
Delimit Scope res_scope with res.
Notation "'let*' x ':=' m 'in' k" := (rbind m (λ x, k))
  (at level 10, x name, m at level 100, k at level 200) : res_scope.
Local Open Scope res_scope.

(** Left fold of a fallible step over a list: a Python [for] loop whose body
    may raise. *)
Fixpoint foldM {A S} (f : S → A → result S) (s : S) (l : list A) : result S :=
  match l with
  | [] => Ok s
  | x :: l' => let* s' := f s x in foldM f s' l'
  end.

(** ** Python lists *)

(** Resolution of a Python index against a list of length [n]. *)
Definition py_index (n : nat) (i : Z) : option nat :=
  if decide (0 ≤ i < Z.of_nat n) then Some (Z.to_nat i)
  else if decide (- Z.of_nat n ≤ i < 0) then Some (Z.to_nat (i + Z.of_nat n))
  else None.

Definition getitem {A} (l : list A) (i : Z) : result A :=
  match py_index (length l) i with
  | Some k => match l !! k with Some x => Ok x | None => Raise IndexError end
  | None => Raise IndexError
  end.

Definition setitem {A} (l : list A) (i : Z) (x : A) : result (list A) :=
  match py_index (length l) i with
  | Some k => Ok (<[k:=x]> l)
  | None => Raise IndexError
  end.

(** [m[c][r]] and [m[c][r] = x] on a list of (unshared) lists. *)
Definition getitem2 {A} (m : list (list A)) (c r : Z) : result A :=
  let* row := getitem m c in getitem row r.

Definition setitem2 {A} (m : list (list A)) (c r : Z) (x : A)
  : result (list (list A)) :=
  let* row := getitem m c in let* row' := setitem row r x in setitem m c row'.

(** [range(n)] *)
Definition range (n : Z) : list Z := Z.of_nat <$> seq 0 (Z.to_nat n).

(** ** Compass, Orient, Pawn *)

Abbreviation cell := (Z * Z)%type.

Inductive Compass : Type := NORTH | WEST | SOUTH | EAST.

Definition oppo (s : Compass) : Compass :=
  match s with
  | NORTH => SOUTH
  | WEST => EAST
  | SOUTH => NORTH
  | EAST => WEST
  end.

(** [Compass.cells] (named [side_cells]: the record field [cells] of the
    board takes the source's name). *)
Definition side_cells (s : Compass) (w h : Z) : list cell :=
  match s with
  | NORTH => (λ col, (col, h - 1)) <$> range w
  | WEST => (λ row, (0, row)) <$> range h
  | SOUTH => (λ col, (col, 0)) <$> range w
  | EAST => (λ row, (w - 1, row)) <$> range h
  end.

Inductive Orient : Type := VERT | HORZ.

Global Instance Compass_eq_dec : EqDecision Compass.
Proof. solve_decision. Defined.
Global Instance Orient_eq_dec : EqDecision Orient.
Proof. solve_decision. Defined.

Record Pawn : Type := mkPawn {
  num_fences : Z;
  side : Compass;
  pos : cell;
  win : bool
}.

(** [Pawn(side, pos)] with the default [num_fences=10]. *)
Definition new_pawn (sd : Compass) (p : cell) : Pawn :=
  {| num_fences := 10; side := sd; pos := p; win := false |}.

(** ** The board *)

Abbreviation fence_grid := (list (list (option Orient))).
Abbreviation tag_grid := (list (list (option Z))).

(** [cells] stores, for an occupied cell, the index in [pawns] of the pawn
    object it references. *)
Record Quoridor : Type := mkQuoridor {
  height : Z;
  width : Z;
  pawns : list Pawn;
  _curr_pawn : nat;
  cells : list (list (option nat));
  _cell_tags : option tag_grid;
  grid : fence_grid;
  finished : bool
}.

(** [x is not o] for a grid entry [x]. *)
Definition is_not (x : option Orient) (o : Orient) : bool :=
  match x with
  | Some o' => if decide (o' = o) then false else true
  | None => true
  end.

(** The test guarding each of the four recursive calls of [_fill_cells] and
    [_move_region]:
    [(g1 or grid[a1][b1] is not o) and (g2 or grid[a2][b2] is not o)],
    with Python's short-circuit evaluation. *)
Definition two_slots (grid : fence_grid) (o : Orient)
    (g1 : bool) (a1 b1 : Z) (g2 : bool) (a2 b2 : Z) : result bool :=
  let* t1 := (if g1 then Ok true
               else let* x := getitem2 grid a1 b1 in Ok (is_not x o)) in
  if t1 then
    (if g2 then Ok true else let* x := getitem2 grid a2 b2 in Ok (is_not x o))
  else Ok false.

(** The four directions, in the order the source tries them. *)
Inductive dir : Type := Wd | Ed | Sd | Nd.

Definition neighbour (d : dir) (p : cell) : cell :=
  let '(c, r) := p in
  match d with
  | Wd => (c - 1, r)
  | Ed => (c + 1, r)
  | Sd => (c, r - 1)
  | Nd => (c, r + 1)
  end.

(** [passable grid w h d (c, r)]: the outer [if] and the inner fence test of
    the source for direction [d]; [w] and [h] are the bounds the caller
    uses. *)
Definition passable (grid : fence_grid) (w h : Z) (d : dir) (p : cell)
  : result bool :=
  let '(c, r) := p in
  match d with
  | Wd =>
      if decide (c > 0) then
        two_slots grid VERT (bool_decide (r = 0)) (c - 1) (r - 1)
                            (bool_decide (r = h - 1)) (c - 1) r
      else Ok false
  | Ed =>
      if decide (c < w - 1) then
        two_slots grid VERT (bool_decide (r = 0)) c (r - 1)
                            (bool_decide (r = h - 1)) c r
      else Ok false
  | Sd =>
      if decide (r > 0) then
        two_slots grid HORZ (bool_decide (c = 0)) (c - 1) (r - 1)
                            (bool_decide (c = w - 1)) c (r - 1)
      else Ok false
  | Nd =>
      if decide (r < h - 1) then
        two_slots grid HORZ (bool_decide (c = 0)) (c - 1) r
                            (bool_decide (c = w - 1)) c r
      else Ok false
  end.

(** One of the four guarded recursive calls shared by [_fill_cells] and
    [_move_region]: when the way from [p] in direction [d] is passable,
    recurse on the neighbour with the current (mutated) state. *)
Definition visit {S} (grid : fence_grid) (w h : Z) (p : cell)
    (rec : S → cell → result S) (st : S) (d : dir) : result S :=
  let* b := passable grid w h d p in
  if b : bool then rec st (neighbour d p) else Ok st.

(** *** [_fill_cells] *)

Fixpoint fill_cells_rec (fuel : nat) (cells : tag_grid) (grid : fence_grid)
    (p : cell) (tag : Z) : result tag_grid :=
  match fuel with
  | O => Raise OutOfFuel
  | S fuel' =>
      let w := Z.of_nat (length cells) in
      let* row0 := getitem cells 0 in
      let h := Z.of_nat (length row0) in
      let* v := getitem2 cells p.1 p.2 in
      match v with
      | Some _ => Ok cells
      | None =>
          let* cells := setitem2 cells p.1 p.2 (Some tag) in
          let go :=
            visit grid w h p
                  (λ cells q, fill_cells_rec fuel' cells grid q tag) in
          let* cells := go cells Wd in
          let* cells := go cells Ed in
          let* cells := go cells Sd in
          go cells Nd
      end
  end.

(** Number of unlabelled entries: every call of [_fill_cells] that recurses
    labels one of them first, so this bounds the recursion depth. *)
Definition count_none (cells : tag_grid) : nat :=
  sum_list ((λ row, length (filter (λ x, x = None) row)) <$> cells).

Definition _fill_cells (cells : tag_grid) (grid : fence_grid) (p : cell)
    (tag : Z) : result tag_grid :=
  fill_cells_rec (S (count_none cells)) cells grid p tag.

(** *** [is_blocking] *)

(** The two nested [for] loops of [is_blocking], on the local pair
    [(cell_tags, tag)]. *)
Definition label_row (grid : fence_grid) (col : Z)
    (st : tag_grid * Z) (row : Z) : result (tag_grid * Z) :=
  let '(cell_tags, tag) := st in
  let* v := getitem2 cell_tags col row in
  match v with
  | Some _ => Ok (cell_tags, tag)
  | None =>
      let* cell_tags := _fill_cells cell_tags grid (col, row) tag in
      Ok (cell_tags, tag + 1)
  end.

Definition label_all (grid : fence_grid) (w h : Z) : result tag_grid :=
  let cell_tags : tag_grid :=
    replicate (Z.to_nat h) (replicate (Z.to_nat w) None) in
  let* st := foldM (λ st col, foldM (label_row grid col) st (range h))
             (cell_tags, 0) (range w) in
  Ok st.1.

(** [all(tag != tags[dst[0]][dst[1]] for dst in dsts)] *)
Fixpoint all_differ (tags : tag_grid) (tag : option Z) (dsts : list cell)
  : result bool :=
  match dsts with
  | [] => Ok true
  | dst :: dsts' =>
      let* t := getitem2 tags dst.1 dst.2 in
      if decide (tag ≠ t) then all_differ tags tag dsts' else Ok false
  end.

(** Methods: a state transformer that also returns a result; the state
    component is the object after the call, whether it returned or raised. *)
Definition M (A : Type) : Type := Quoridor → result A * Quoridor.

Definition set_cell_tags (q : Quoridor) (t : option tag_grid) : Quoridor :=
  {| height := height q; width := width q; pawns := pawns q;
     _curr_pawn := _curr_pawn q; cells := cells q; _cell_tags := t;
     grid := grid q; finished := finished q |}.

Definition set_grid (q : Quoridor) (g : fence_grid) : Quoridor :=
  {| height := height q; width := width q; pawns := pawns q;
     _curr_pawn := _curr_pawn q; cells := cells q;
     _cell_tags := _cell_tags q; grid := g; finished := finished q |}.

Definition read_tags (pawn : Pawn) (w h : Z) (tags : tag_grid) : result bool :=
  let* tag := getitem2 tags (pos pawn).1 (pos pawn).2 in
  all_differ tags tag (side_cells (oppo (side pawn)) w h).

Definition is_blocking (pawn : Pawn) : M bool := λ q,
  let w := width q in
  let h := height q in
  match _cell_tags q with
  | None =>
      match label_all (grid q) w h with
      | Raise e => (Raise e, q)
      | Ok cell_tags =>
          (read_tags pawn w h cell_tags, set_cell_tags q (Some cell_tags))
      end
  | Some tags => (read_tags pawn w h tags, q)
  end.

(** *** The method monad *)

Definition mret {A} (a : A) : M A := λ q, (Ok a, q).
Definition raise {A} (e : exn) : M A := λ q, (Raise e, q).
Definition lift {A} (r : result A) : M A := λ q, (r, q).
Definition get : M Quoridor := λ q, (Ok q, q).
Definition modify (f : Quoridor → Quoridor) : M unit := λ q, (Ok tt, f q).
Definition mbind {A B} (m : M A) (f : A → M B) : M B := λ q,
  match m q with
  | (Ok a, q') => f a q'
  | (Raise e, q') => (Raise e, q')
  end.

Notation "'let!' x ':=' m 'in' k" := (mbind m (λ x, k))
  (at level 10, x name, m at level 100, k at level 200) : res_scope.

Definition set_pawns (q : Quoridor) (ps : list Pawn) : Quoridor :=
  {| height := height q; width := width q; pawns := ps;
     _curr_pawn := _curr_pawn q; cells := cells q;
     _cell_tags := _cell_tags q; grid := grid q; finished := finished q |}.

Definition set_curr (q : Quoridor) (i : nat) : Quoridor :=
  {| height := height q; width := width q; pawns := pawns q;
     _curr_pawn := i; cells := cells q;
     _cell_tags := _cell_tags q; grid := grid q; finished := finished q |}.

Definition set_cells (q : Quoridor) (cs : list (list (option nat))) : Quoridor :=
  {| height := height q; width := width q; pawns := pawns q;
     _curr_pawn := _curr_pawn q; cells := cs;
     _cell_tags := _cell_tags q; grid := grid q; finished := finished q |}.

Definition set_finished (q : Quoridor) (b : bool) : Quoridor :=
  {| height := height q; width := width q; pawns := pawns q;
     _curr_pawn := _curr_pawn q; cells := cells q;
     _cell_tags := _cell_tags q; grid := grid q; finished := b |}.

(** [self.grid[c][r] = x] and [self.cells[c][r] = x] *)
Definition assign_grid (coord : cell) (x : option Orient) : M unit := λ q,
  match setitem2 (grid q) coord.1 coord.2 x with
  | Ok g => (Ok tt, set_grid q g)
  | Raise e => (Raise e, q)
  end.

Definition assign_cell (p : cell) (x : option nat) : M unit := λ q,
  match setitem2 (cells q) p.1 p.2 x with
  | Ok cs => (Ok tt, set_cells q cs)
  | Raise e => (Raise e, q)
  end.

(** A pawn object is referred to by its index in [self.pawns]. *)
Definition pawn_at (i : nat) : M Pawn := λ q,
  (getitem (pawns q) (Z.of_nat i), q).

Definition update_pawn (i : nat) (f : Pawn → Pawn) : M unit := λ q,
  match pawns q !! i with
  | Some p => (Ok tt, set_pawns q (<[i := f p]> (pawns q)))
  | None => (Raise IndexError, q)
  end.

(** ** [default_pos] and [__init__]

    [int(x/2)] truncates toward zero, which is [Z.quot]; the source goes
    through a float, which is exact for the board sizes that fit in memory. *)
Definition default_pos (w h : Z) (sd : Compass) : cell :=
  match sd with
  | NORTH => ((w - 1) ÷ 2, h - 1)
  | SOUTH => (w ÷ 2, 0)
  | WEST => (0, (h - 1) ÷ 2)
  | EAST => (w - 1, h ÷ 2)
  end.

Definition __init__ (height width : Z) (pawns : option (list Pawn))
    (def_pos : option (Compass → cell)) : result Quoridor :=
  let def_pos := default (default_pos width height) def_pos in
  let pawns :=
    default [new_pawn SOUTH (def_pos SOUTH); new_pawn NORTH (def_pos NORTH)]
            pawns in
  let cells0 : list (list (option nat)) :=
    replicate (Z.to_nat width) (replicate (Z.to_nat height) None) in
  let* cells :=
    foldM (λ cs ip, setitem2 cs (pos ip.2).1 (pos ip.2).2 (Some ip.1))
          cells0 (imap pair pawns) in
  Ok {| height := height; width := width; pawns := pawns; _curr_pawn := 0;
        cells := cells; _cell_tags := None;
        grid := replicate (Z.to_nat (width - 1))
                          (replicate (Z.to_nat (height - 1)) None);
        finished := false |}.

(** ** Turn order *)

(** The property [curr_pawn], as the index of the pawn it returns. *)
Definition curr_pawn : M nat := λ q,
  (let* _ := getitem (pawns q) (Z.of_nat (_curr_pawn q)) in
   Ok (_curr_pawn q), q).

Definition next_pawn : M nat := λ q,
  match length (pawns q) with
  | O => (Raise ZeroDivisionError, q)
  | S _ => curr_pawn (set_curr q ((_curr_pawn q + 1) mod length (pawns q))%nat)
  end.

(** The optional pawn argument of [put_fence], [move_region] and [move]. *)
Definition resolve (pawn : option nat) : M nat :=
  match pawn with
  | None => curr_pawn
  | Some i => let! _ := pawn_at i in mret i
  end.

(** ** [can_put_fence] and [put_fence] *)

Definition is_orient (x : option Orient) (o : Orient) : bool :=
  bool_decide (x = Some o).

(** The two neighbour tests of [can_put_fence]; [true] when the source
    returns [False] from one of them. *)
Definition neighbour_clash (q : Quoridor) (coord : cell) (orient : Orient)
  : result bool :=
  match orient with
  | HORZ =>
      let* a := (if decide (coord.1 > 0) then
                   let* x := getitem2 (grid q) (coord.1 - 1) coord.2 in
                   Ok (is_orient x HORZ)
                 else Ok false) in
      if a : bool then Ok true
      else if decide (coord.1 < width q - 2) then
        let* x := getitem2 (grid q) (coord.1 + 1) coord.2 in
        Ok (is_orient x HORZ)
      else Ok false
  | VERT =>
      let* a := (if decide (coord.2 > 0) then
                   let* x := getitem2 (grid q) coord.1 (coord.2 - 1) in
                   Ok (is_orient x VERT)
                 else Ok false) in
      if a : bool then Ok true
      else if decide (coord.2 < height q - 2) then
        let* x := getitem2 (grid q) coord.1 (coord.2 + 1) in
        Ok (is_orient x VERT)
      else Ok false
  end.

(** [any(self.is_blocking(pawn) for pawn in self.pawns)] *)
Fixpoint any_blocking (ps : list Pawn) : M bool :=
  match ps with
  | [] => mret false
  | p :: ps' =>
      let! b := is_blocking p in
      if b : bool then mret true else any_blocking ps'
  end.

Definition can_put_fence (coord : cell) (orient : Orient) : M bool :=
  let! q := get in
  if negb (bool_decide (0 ≤ coord.1 < width q - 1 ∧
                        0 ≤ coord.2 < height q - 1))
  then mret false else
  let! x := lift (getitem2 (grid q) coord.1 coord.2) in
  match x with
  | Some _ => mret false
  | None =>
      let! clash := lift (neighbour_clash q coord orient) in
      if clash : bool then mret false else
      let! _ := assign_grid coord (Some orient) in
      let! blocking := (λ q, any_blocking (pawns q) q) in
      let! _ := modify (λ q, set_cell_tags q None) in
      let! _ := assign_grid coord None in
      mret (negb blocking)
  end.

(** The body of [if check:] in [put_fence]. *)
Definition put_fence_check (coord : cell) (orient : Orient) (i : nat)
  : M unit :=
  let! p := pawn_at i in
  if decide (num_fences p ≤ 0) then
    raise (ValueError "Not enough fences to put")
  else
    let! ok := can_put_fence coord orient in
    if ok : bool then mret tt
    else raise (ValueError "Illegal position and orientation to put fence").

Definition put_fence (coord : cell) (orient : Orient) (player : option nat)
    (check : bool) : M unit :=
  let! i := resolve player in
  let! _ := (if check then put_fence_check coord orient i else mret tt) in
  let! _ := assign_grid coord (Some orient) in
  let! _ := update_pawn i (λ p,
              {| num_fences := num_fences p - 1; side := side p;
                 pos := pos p; win := win p |}) in
  let! _ := next_pawn in
  mret tt.

(** ** [move_region] and [move] *)

Fixpoint move_region_rec (fuel : nat) (cells : list (list (option nat)))
    (grid : fence_grid) (w h : Z) (p : cell)
    (st : gset cell * gset cell) : result (gset cell * gset cell) :=
  match fuel with
  | O => Raise OutOfFuel
  | S fuel' =>
      let '(region, visited) := st in
      if decide (p ∈ visited) then Ok (region, visited) else
      let* v := getitem2 cells p.1 p.2 in
      match v with
      | None => Ok ({[p]} ∪ region, visited)
      | Some _ =>
          let go :=
            visit grid w h p
                  (λ st q, move_region_rec fuel' cells grid w h q st) in
          let* st := go (region, {[p]} ∪ visited) Wd in
          let* st := go st Ed in
          let* st := go st Sd in
          go st Nd
      end
  end.

(** Every call that recurses adds to [visited] a new position naming an
    occupied entry of [cells]; an entry has at most four names (Python's
    negative indices), so four times the number of entries bounds the
    depth. *)
Definition move_region_fuel (cells : list (list (option nat))) : nat :=
  S (4 * sum_list (length <$> cells)).

Definition move_region (pawn : option nat) : M (gset cell) :=
  let! i := resolve pawn in
  let! p := pawn_at i in
  let! q := get in
  let! st := lift (move_region_rec (move_region_fuel (cells q)) (cells q)
                     (grid q) (width q) (height q) (pos p) (∅, ∅)) in
  mret st.1.

Definition wins (q : Quoridor) (sd : Compass) (dst : cell) : bool :=
  bool_decide ((sd = NORTH ∧ dst.2 = 0) ∨
               (sd = SOUTH ∧ dst.2 = height q - 1) ∨
               (sd = WEST ∧ dst.1 = 0) ∨
               (sd = EAST ∧ dst.1 = width q - 1)).

(** The body of [if check:] in [move]. *)
Definition move_check (dst : cell) (i : nat) : M unit :=
  let! region := move_region (Some i) in
  if decide (dst ∈ region) then mret tt
  else raise (ValueError "Illegal destination for pawn").

Definition move (dst : cell) (pawn : option nat) (check : bool) : M unit :=
  let! i := resolve pawn in
  let! _ := (if check then move_check dst i else mret tt) in
  let! p := pawn_at i in
  let! _ := assign_cell (pos p) None in
  let! _ := update_pawn i (λ p,
              {| num_fences := num_fences p; side := side p;
                 pos := dst; win := win p |}) in
  let! _ := assign_cell dst (Some i) in
  let! q := get in
  if wins q (side p) dst then
    let! _ := update_pawn i (λ p,
                {| num_fences := num_fences p; side := side p;
                   pos := pos p; win := true |}) in
    modify (λ q, set_finished q true)
  else
    let! _ := next_pawn in
    mret tt.

(** ** [parse_text_coord] and [do]

    Commands are modelled as strings of ASCII characters, on which
    [str.upper] changes the lower-case letters only. *)

Definition in_range (lo hi c : ascii) : bool :=
  bool_decide (nat_of_ascii lo ≤ nat_of_ascii c ≤ nat_of_ascii hi)%nat.

Definition is_upper (c : ascii) : bool := in_range "A" "Z" c.
Definition is_digit (c : ascii) : bool := in_range "0" "9" c.
Definition is_digit19 (c : ascii) : bool := in_range "1" "9" c.
Definition is_nswe (c : ascii) : bool :=
  bool_decide (c = "N" ∨ c = "S" ∨ c = "W" ∨ c = "E")%char.
Definition is_bar (c : ascii) : bool :=
  bool_decide (c = "-" ∨ c = "|")%char.

Definition upper_char (c : ascii) : ascii :=
  if in_range "a" "z" c then ascii_of_nat (nat_of_ascii c - 32) else c.

Definition upper (s : list ascii) : list ascii := upper_char <$> s.

Definition newline : ascii := ascii_of_nat 10.

(** The part of the string that a pattern ending in [$] has to cover: [$]
    matches at the end and also just before a newline that ends the
    string. *)
Definition before_dollar (s : list ascii) : list ascii :=
  match reverse s with
  | c :: r => if bool_decide (c = newline) then reverse r else s
  | [] => s
  end.

(** [([NSWE]+)$] *)
Definition match_moves (cmd : list ascii) : bool :=
  let body := before_dollar cmd in
  negb (bool_decide (body = [])) && forallb is_nswe body.

(** What is left after the longest prefix of characters of a class, as the
    greedy [+] and [*] consume it; the class that follows excludes the one
    consumed, so giving characters back never helps the match. *)
Fixpoint skip (f : ascii → bool) (s : list ascii) : list ascii :=
  match s with
  | c :: r => if f c then skip f r else s
  | [] => []
  end.

(** [([A-Z]+[1-9][0-9]*[\-|])$] *)
Definition match_fence (cmd : list ascii) : bool :=
  match before_dollar cmd with
  | l :: r1 =>
      is_upper l &&
      match skip is_upper r1 with
      | d :: r2 =>
          is_digit19 d &&
          match skip is_digit r2 with
          | [c] => is_bar c
          | _ => false
          end
      | [] => false
      end
  | [] => false
  end.

Definition parse_text_coord (coord : list ascii) : result cell :=
  if decide (length coord ≠ 2%nat) then
    Raise (ValueError "Text coordinates must be length of 2")
  else
    match coord with
    | [l; d] =>
        if is_upper l && is_digit19 d then
          Ok (Z.of_nat (nat_of_ascii l) - 64 - 1,
              Z.of_nat (nat_of_ascii d) - 48 - 1)
        else Raise (ValueError "Invalid text coordinate format")
    | _ => Raise (ValueError "Invalid text coordinate format")
    end.

(** The loop [for c in cmd] of [do]. *)
Definition step_char (p : cell) (c : ascii) : cell :=
  if bool_decide (c = "N"%char) then (p.1, p.2 + 1)
  else if bool_decide (c = "S"%char) then (p.1, p.2 - 1)
  else if bool_decide (c = "W"%char) then (p.1 - 1, p.2)
  else (p.1 + 1, p.2).

Definition do (cmd : string) : M unit :=
  let! q := get in
  if finished q then raise (ValueError "Game already finished") else
  let cmd := upper (String.list_ascii_of_string cmd) in
  if match_moves cmd then
    let! i := curr_pawn in
    let! pawn := pawn_at i in
    let dst := foldl step_char (pos pawn) cmd in
    move dst None true
  else if match_fence cmd then
    let! coord := lift (parse_text_coord (removelast cmd)) in
    let orient :=
      if bool_decide (last cmd = Some "|"%char) then VERT else HORZ in
    put_fence coord orient None true
  else raise (ValueError "Illegal command").

(** * Verification *)

(** ** Python indexing at non-negative positions *)

Lemma getitem_raises {A} (l : list A) i e :
  getitem l i = Raise e → e = IndexError.
Proof.
  unfold getitem. destruct (py_index _ _) as [k|]; [|congruence].
  destruct (l !! k); congruence.
Qed.

Lemma setitem_raises {A} (l : list A) i x e :
  setitem l i x = Raise e → e = IndexError.
Proof. unfold setitem. destruct (py_index _ _); congruence. Qed.

Lemma getitem2_raises {A} (m : list (list A)) c r e :
  getitem2 m c r = Raise e → e = IndexError.
Proof.
  unfold getitem2. destruct (getitem m c) as [row|e'] eqn:E; simpl.
  - apply getitem_raises.
  - intros [= <-]. eapply getitem_raises, E.
Qed.

Lemma setitem2_raises {A} (m : list (list A)) c r x e :
  setitem2 m c r x = Raise e → e = IndexError.
Proof.
  unfold setitem2. destruct (getitem m c) as [row|e'] eqn:E; simpl.
  - destruct (setitem row r x) as [row'|e''] eqn:E'; simpl.
    + apply setitem_raises.
    + intros [= <-]. eapply setitem_raises, E'.
  - intros [= <-]. eapply getitem_raises, E.
Qed.

Lemma getitem_nonneg {A} (l : list A) i :
  0 ≤ i →
  getitem l i =
    match l !! Z.to_nat i with Some x => Ok x | None => Raise IndexError end.
Proof.
  intros Hi. unfold getitem, py_index.
  destruct (decide (0 ≤ i < Z.of_nat (length l))) as [Hin|Hout]; [done|].
  rewrite decide_False by lia.
  rewrite (proj2 (lookup_ge_None l (Z.to_nat i))) by lia. done.
Qed.

Lemma setitem_nonneg {A} (l : list A) i x :
  0 ≤ i →
  setitem l i x =
    if decide (Z.to_nat i < length l)%nat then Ok (<[Z.to_nat i:=x]> l)
    else Raise IndexError.
Proof.
  intros Hi. unfold setitem, py_index.
  destruct (decide (0 ≤ i < Z.of_nat (length l))) as [Hin|Hout].
  - rewrite decide_True by lia. done.
  - rewrite (decide_False (P := (- _ ≤ i < 0))) by lia.
    rewrite decide_False by lia. done.
Qed.

Section indexing.
Context {A : Type}.
Implicit Types (l : list A) (m : list (list A)).

(** The entry at a cell with non-negative coordinates, if there is one. *)
Definition lookup2 m (p : cell) : option A :=
  if decide (0 ≤ p.1 ∧ 0 ≤ p.2) then
    m !! Z.to_nat p.1 ≫= λ row, row !! Z.to_nat p.2
  else None.

Lemma getitem2_lookup2 m c r :
  0 ≤ c → 0 ≤ r →
  getitem2 m c r =
    match lookup2 m (c, r) with Some x => Ok x | None => Raise IndexError end.
Proof.
  intros Hc Hr. unfold getitem2, lookup2. simpl.
  rewrite decide_True by done. rewrite getitem_nonneg by done.
  destruct (m !! Z.to_nat c) as [row|]; simpl; [|done].
  by rewrite getitem_nonneg.
Qed.

Lemma lookup2_nonneg m p x : lookup2 m p = Some x → 0 ≤ p.1 ∧ 0 ≤ p.2.
Proof. unfold lookup2. case_decide; [done|congruence]. Qed.

Lemma setitem2_lookup2 m c r x y :
  lookup2 m (c, r) = Some y →
  ∃ m', setitem2 m c r x = Ok m' ∧
        (∀ q, lookup2 m' q = if decide (q = (c, r)) then Some x
                             else lookup2 m q) ∧
        length <$> m' = length <$> m.
Proof.
  intros Hl. destruct (lookup2_nonneg _ _ _ Hl) as [Hc Hr]. simpl in *.
  unfold lookup2 in Hl. simpl in Hl. rewrite decide_True in Hl by done.
  destruct (m !! Z.to_nat c) as [row|] eqn:Hrow; simpl in Hl; [|done].
  assert (Z.to_nat c < length m)%nat by by eapply lookup_lt_Some.
  assert (Z.to_nat r < length row)%nat by by eapply lookup_lt_Some.
  exists (<[Z.to_nat c := <[Z.to_nat r := x]> row]> m). split; [|split].
  - unfold setitem2. rewrite getitem_nonneg, Hrow by done. simpl.
    rewrite setitem_nonneg, decide_True by done. simpl.
    by rewrite setitem_nonneg, decide_True.
  - intros [c' r']. unfold lookup2. simpl.
    destruct (decide (0 ≤ c' ∧ 0 ≤ r')) as [[Hc' Hr']|Hneg].
    + destruct (decide (Z.to_nat c = Z.to_nat c')) as [Ec|Nc].
      * rewrite <- Ec. rewrite list_lookup_insert_eq by done. simpl.
        destruct (decide (Z.to_nat r = Z.to_nat r')) as [Er|Nr].
        -- rewrite <- Er, list_lookup_insert_eq by done.
           rewrite decide_True; [done|]. f_equal; lia.
        -- rewrite list_lookup_insert_ne by done.
           rewrite decide_False; [by rewrite Hrow|]. intros [= -> ->]. lia.
      * rewrite list_lookup_insert_ne by done.
        rewrite decide_False; [done|]. intros [= -> ->]. lia.
    + rewrite decide_False; [done|]. intros [= -> ->]. lia.
  - apply list_eq. intros i. rewrite !list_lookup_fmap.
    destruct (decide (Z.to_nat c = i)) as [<-|Ni].
    + rewrite list_lookup_insert_eq, Hrow by done. simpl.
      by rewrite length_insert.
    + by rewrite list_lookup_insert_ne.
Qed.

Lemma setitem2_restore m c r x :
  lookup2 m (c, r) = Some x →
  ∀ y m', setitem2 m c r y = Ok m' → setitem2 m' c r x = Ok m.
Proof.
  intros Hl y m' Hset. destruct (lookup2_nonneg _ _ _ Hl) as [Hc Hr].
  simpl in *. unfold lookup2 in Hl. simpl in Hl.
  rewrite decide_True in Hl by done.
  destruct (m !! Z.to_nat c) as [row|] eqn:Hrow; simpl in Hl; [|done].
  assert (Z.to_nat c < length m)%nat by by eapply lookup_lt_Some.
  assert (Z.to_nat r < length row)%nat by by eapply lookup_lt_Some.
  unfold setitem2 in Hset. rewrite getitem_nonneg, Hrow in Hset by done.
  simpl in Hset. rewrite setitem_nonneg, decide_True in Hset by done.
  simpl in Hset. rewrite setitem_nonneg, decide_True in Hset by done.
  injection Hset as <-.
  unfold setitem2. rewrite getitem_nonneg by done.
  rewrite list_lookup_insert_eq by done. simpl.
  rewrite setitem_nonneg, decide_True by (rewrite ?length_insert; done).
  simpl.
  rewrite setitem_nonneg, decide_True by (rewrite ?length_insert; done).
  f_equal. rewrite list_insert_insert_eq, list_insert_insert_eq.
  rewrite (list_insert_id row) by done. by rewrite list_insert_id.
Qed.

(** A [W] by [H] matrix: [W] rows of length [H]. *)
Definition rect (W H : nat) m : Prop := length <$> m = replicate W H.

Lemma rect_replicate W H x : rect W H (replicate W (replicate H x)).
Proof. unfold rect. by rewrite fmap_replicate, length_replicate. Qed.

Lemma rect_length W H m : rect W H m → length m = W.
Proof.
  intros Hr. rewrite <- (length_fmap length m), Hr. apply length_replicate.
Qed.

Lemma rect_row W H m i row : rect W H m → m !! i = Some row → length row = H.
Proof.
  intros Hr Hi.
  assert ((length <$> m) !! i = Some (length row)) as Hl
    by by rewrite list_lookup_fmap, Hi.
  rewrite Hr in Hl. by apply lookup_replicate in Hl as [-> _].
Qed.

Lemma rect_lookup2 W H m p :
  rect W H m →
  is_Some (lookup2 m p) ↔
  0 ≤ p.1 < Z.of_nat W ∧ 0 ≤ p.2 < Z.of_nat H.
Proof.
  intros Hr. unfold lookup2. destruct p as [c r]. simpl.
  destruct (decide (0 ≤ c ∧ 0 ≤ r)) as [[Hc Hr']|Hneg].
  - destruct (m !! Z.to_nat c) as [row|] eqn:Hrow; simpl.
    + pose proof (rect_row _ _ _ _ _ Hr Hrow) as Hlen.
      apply lookup_lt_Some in Hrow. rewrite (rect_length _ _ _ Hr) in Hrow.
      rewrite lookup_lt_is_Some. lia.
    + apply lookup_ge_None in Hrow. rewrite (rect_length _ _ _ Hr) in Hrow.
      split; [by intros [? ?]|lia].
  - split; [by intros [? ?]|lia].
Qed.
End indexing.

(** ** Fence-blocked adjacency *)

Definition in_board (w h : Z) (p : cell) : Prop :=
  0 ≤ p.1 < w ∧ 0 ≤ p.2 < h.

(** The fence standing in a slot: [None] for an empty slot and for a
    position off the fence grid. *)
Definition fence (g : fence_grid) (s : cell) : option Orient :=
  default None (lookup2 g s).

(** The fence grid of a [w] by [h] board has [w - 1] by [h - 1] slots. *)
Definition wf_grid (w h : Z) (g : fence_grid) : Prop :=
  rect (Z.to_nat (w - 1)) (Z.to_nat (h - 1)) g.

(** Blocking, as the specification words it: a [VERT] fence at slot
    [(sc, sr)] blocks the edges between columns [sc] and [sc + 1] at rows
    [sr] and [sr + 1]; a [HORZ] fence at slot [(sc, sr)] blocks the edges
    between rows [sr] and [sr + 1] at columns [sc] and [sc + 1]. *)
Definition blocks (g : fence_grid) (p q : cell) : Prop :=
  ∃ sc sr,
    (fence g (sc, sr) = Some VERT ∧ p.2 = q.2 ∧ (p.2 = sr ∨ p.2 = sr + 1) ∧
     ((p.1 = sc ∧ q.1 = sc + 1) ∨ (p.1 = sc + 1 ∧ q.1 = sc)))
    ∨
    (fence g (sc, sr) = Some HORZ ∧ p.1 = q.1 ∧ (p.1 = sc ∨ p.1 = sc + 1) ∧
     ((p.2 = sr ∧ q.2 = sr + 1) ∨ (p.2 = sr + 1 ∧ q.2 = sr))).

Definition adjacent (p q : cell) : Prop := ∃ d, q = neighbour d p.

(** Two cells of the board are linked when they are orthogonally adjacent
    and no fence blocks their shared edge; cells are connected when a chain
    of links joins them. *)
Definition linked (g : fence_grid) (w h : Z) (p q : cell) : Prop :=
  in_board w h p ∧ in_board w h q ∧ adjacent p q ∧ ¬ blocks g p q.

Definition connected (g : fence_grid) (w h : Z) : cell → cell → Prop :=
  rtc (linked g w h).

Definition opposite (d : dir) : dir :=
  match d with Wd => Ed | Ed => Wd | Sd => Nd | Nd => Sd end.

Lemma neighbour_opposite d p : neighbour (opposite d) (neighbour d p) = p.
Proof. destruct p as [c r], d; simpl; f_equal; lia. Qed.

Lemma adjacent_sym p q : adjacent p q → adjacent q p.
Proof.
  intros [d ->]. exists (opposite d). by rewrite neighbour_opposite.
Qed.

Lemma blocks_sym g p q : blocks g p q → blocks g q p.
Proof.
  intros (sc & sr & H). exists sc, sr.
  destruct H as [(Hf & E & Hr & Hc)|(Hf & E & Hr & Hc)]; [left|right];
    (split; [done|]); (split; [done|]); rewrite <- E; (split; [done|]); tauto.
Qed.

Lemma linked_sym g w h p q : linked g w h p q → linked g w h q p.
Proof.
  intros (Hp & Hq & Ha & Hb). split; [done|]. split; [done|]. split.
  - by apply adjacent_sym.
  - intros Hb'. by apply Hb, blocks_sym.
Qed.

Lemma connected_sym g w h p q : connected g w h p q → connected g w h q p.
Proof.
  induction 1 as [|p q r Hpq _ IH]; [apply rtc_refl|].
  eapply rtc_r; [exact IH|]. by apply linked_sym.
Qed.

Lemma fence_off_grid g w h s :
  wf_grid w h g → ¬ (0 ≤ s.1 < w - 1 ∧ 0 ≤ s.2 < h - 1) → fence g s = None.
Proof.
  intros Hg Hs. unfold fence.
  destruct (lookup2 g s) as [x|] eqn:E; [|done].
  exfalso. apply Hs.
  pose proof (proj1 (rect_lookup2 _ _ _ s Hg) (mk_is_Some _ _ E)). lia.
Qed.

Lemma fence_on_grid g w h s :
  wf_grid w h g → 0 ≤ s.1 < w - 1 → 0 ≤ s.2 < h - 1 →
  lookup2 g s = Some (fence g s).
Proof.
  intros Hg H1 H2. unfold fence.
  destruct (proj2 (rect_lookup2 _ _ _ s Hg)) as [x ->]; [lia|done].
Qed.

Lemma is_not_fence x o : is_not x o = bool_decide (x ≠ Some o).
Proof.
  destruct x as [o'|]; simpl; [|done].
  destruct (decide (o' = o)) as [->|N]; symmetry.
  - apply bool_decide_eq_false_2. by intros ?.
  - apply bool_decide_eq_true_2. by intros [= ->].
Qed.

(** What the two-slot test computes on a well-formed grid, provided each
    boundary guard is set exactly when its slot is off the grid. *)
Lemma two_slots_spec g w h o g1 a1 b1 g2 a2 b2 :
  wf_grid w h g →
  (if g1 : bool then ¬ (0 ≤ a1 < w - 1 ∧ 0 ≤ b1 < h - 1)
   else 0 ≤ a1 < w - 1 ∧ 0 ≤ b1 < h - 1) →
  (if g2 : bool then ¬ (0 ≤ a2 < w - 1 ∧ 0 ≤ b2 < h - 1)
   else 0 ≤ a2 < w - 1 ∧ 0 ≤ b2 < h - 1) →
  two_slots g o g1 a1 b1 g2 a2 b2 =
    Ok (bool_decide (fence g (a1, b1) ≠ Some o ∧ fence g (a2, b2) ≠ Some o)).
Proof.
  intros Hg H1 H2. unfold two_slots.
  assert (∀ (gd : bool) a b,
    (if gd then ¬ (0 ≤ a < w - 1 ∧ 0 ≤ b < h - 1)
     else 0 ≤ a < w - 1 ∧ 0 ≤ b < h - 1) →
    (if gd then Ok true
     else let* x := getitem2 g a b in Ok (is_not x o)) =
    Ok (bool_decide (fence g (a, b) ≠ Some o))) as Hone.
  { intros gd a b Hgd. destruct gd.
    - rewrite (fence_off_grid g w h (a, b)) by done.
      by rewrite bool_decide_eq_true_2.
    - destruct Hgd as [Ha Hb].
      rewrite getitem2_lookup2 by lia.
      rewrite (fence_on_grid g w h (a, b)) by done. simpl.
      by rewrite is_not_fence. }
  rewrite (Hone g1 a1 b1 H1). simpl.
  destruct (decide (fence g (a1, b1) ≠ Some o)) as [Y1|N1].
  - rewrite (bool_decide_eq_true_2 _ Y1). rewrite (Hone g2 a2 b2 H2).
    f_equal. apply bool_decide_ext. tauto.
  - rewrite (bool_decide_eq_false_2 _ N1).
    f_equal. symmetry. apply bool_decide_eq_false_2. tauto.
Qed.

(** The specification's blocking rule, direction by direction, names exactly
    the two slots the source inspects. *)
Lemma blocks_neighbour g d c r :
  blocks g (c, r) (neighbour d (c, r)) ↔
  match d with
  | Wd => fence g (c - 1, r - 1) = Some VERT ∨ fence g (c - 1, r) = Some VERT
  | Ed => fence g (c, r - 1) = Some VERT ∨ fence g (c, r) = Some VERT
  | Sd => fence g (c - 1, r - 1) = Some HORZ ∨ fence g (c, r - 1) = Some HORZ
  | Nd => fence g (c - 1, r) = Some HORZ ∨ fence g (c, r) = Some HORZ
  end.
Proof.
  split.
  - intros (sc & sr & [(Hf & E & Hr & Hc)|(Hf & E & Hr & Hc)]);
      destruct d; simpl in *; try lia;
      destruct Hr as [Hr|Hr], Hc as [[? ?]|[? ?]]; try lia;
      first [ left; rewrite <- Hf; f_equal; f_equal; lia
            | right; rewrite <- Hf; f_equal; f_equal; lia ].
  - destruct d; simpl; intros [Hf|Hf];
      match type of Hf with fence _ (?a, ?b) = Some VERT =>
        exists a, b; left; simpl; (split; [exact Hf|]); lia
      | fence _ (?a, ?b) = Some HORZ =>
        exists a, b; right; simpl; (split; [exact Hf|]); lia
      end.
Qed.

(** [passable] never fails on a well-formed grid, and answers whether the
    cell and its neighbour in direction [d] are linked. *)
Lemma passable_spec g w h d p :
  wf_grid w h g → in_board w h p →
  ∃ b, passable g w h d p = Ok b ∧
       (b = true ↔ linked g w h p (neighbour d p)).
Proof.
  intros Hg Hp. destruct p as [c r]. unfold in_board in Hp. simpl in Hp.
  assert (∀ b : bool, ¬ in_board w h (neighbour d (c, r)) →
    b = false → b = true ↔ linked g w h (c, r) (neighbour d (c, r))) as Hout.
  { intros b Hn ->. split; [done|]. by intros (_ & Hq & _). }
  assert (∀ o a1 b1 a2 b2,
    in_board w h (neighbour d (c, r)) →
    (blocks g (c, r) (neighbour d (c, r)) ↔
     fence g (a1, b1) = Some o ∨ fence g (a2, b2) = Some o) →
    bool_decide (fence g (a1, b1) ≠ Some o ∧ fence g (a2, b2) ≠ Some o) = true
    ↔ linked g w h (c, r) (neighbour d (c, r))) as Hin.
  { intros o a1 b1 a2 b2 Hq Hb. rewrite bool_decide_eq_true. unfold linked.
    rewrite Hb. split.
    - intros [N1 N2]. split; [done|]. split; [done|]. split; [by exists d|].
      tauto.
    - intros (_ & _ & _ & N). tauto. }
  pose proof (blocks_neighbour g d c r) as Hb.
  destruct d; simpl in *;
    (case_decide;
     [ erewrite (two_slots_spec g w h) by
         (first [done | case_bool_decide; lia]);
       eexists; split; [reflexivity|];
       apply Hin; [unfold in_board; simpl; lia | exact Hb]
     | exists false; split; [done|];
       apply Hout; [unfold in_board; simpl; lia | done] ]).
Qed.

(** ** [_fill_cells]: termination, shape and the only possible error *)

Lemma setitem2_explicit {A} (m : list (list A)) c r x y :
  lookup2 m (c, r) = Some y →
  ∃ row, m !! Z.to_nat c = Some row ∧ row !! Z.to_nat r = Some y ∧
         setitem2 m c r x = Ok (<[Z.to_nat c := <[Z.to_nat r := x]> row]> m).
Proof.
  intros Hl. destruct (lookup2_nonneg _ _ _ Hl) as [Hc Hr]. simpl in *.
  unfold lookup2 in Hl. simpl in Hl. rewrite decide_True in Hl by done.
  destruct (m !! Z.to_nat c) as [row|] eqn:Hrow; simpl in Hl; [|done].
  exists row. split; [done|]. split; [done|].
  assert (Z.to_nat c < length m)%nat by by eapply lookup_lt_Some.
  assert (Z.to_nat r < length row)%nat by by eapply lookup_lt_Some.
  unfold setitem2. rewrite getitem_nonneg, Hrow by done. simpl.
  rewrite setitem_nonneg, decide_True by done. simpl.
  by rewrite setitem_nonneg, decide_True.
Qed.

Lemma row_count_insert (row : list (option Z)) j t :
  row !! j = Some None →
  S (length (filter (λ x, x = None) (<[j:=Some t]> row))) =
  length (filter (λ x, x = None) row).
Proof.
  revert j. induction row as [|x row IH]; intros [|j] Hj; simpl in *;
    try done.
  - injection Hj as ->. rewrite filter_cons_False by done.
    by rewrite filter_cons_True by done.
  - destruct (decide (x = None)) as [->|N].
    + rewrite !filter_cons_True by done. simpl. f_equal. by apply IH.
    + rewrite !filter_cons_False by done. by apply IH.
Qed.

Lemma sum_list_insert {A} (f : A → nat) (m : list A) i x y :
  m !! i = Some x →
  (sum_list (f <$> <[i:=y]> m) + f x = sum_list (f <$> m) + f y)%nat.
Proof.
  revert i. induction m as [|z m IH]; intros [|i] Hi; csimpl in *; try done.
  - injection Hi as ->. clear IH. lia.
  - specialize (IH i Hi). lia.
Qed.

Lemma count_none_label (cells cells' : tag_grid) c r t :
  lookup2 cells (c, r) = Some None →
  setitem2 cells c r (Some t) = Ok cells' →
  S (count_none cells') = count_none cells.
Proof.
  intros Hl Hset.
  destruct (setitem2_explicit cells c r (Some t) None Hl)
    as (row & Hrow & Hr & Heq).
  rewrite Heq in Hset. injection Hset as <-. unfold count_none.
  pose proof (sum_list_insert
    (λ row, length (filter (λ x, x = None) row)) cells (Z.to_nat c) row
    (<[Z.to_nat r:=Some t]> row) Hrow) as Hs. simpl in Hs.
  pose proof (row_count_insert row (Z.to_nat r) t Hr). lia.
Qed.

Lemma two_slots_raises g o g1 a1 b1 g2 a2 b2 e :
  two_slots g o g1 a1 b1 g2 a2 b2 = Raise e → e = IndexError.
Proof.
  unfold two_slots. destruct g1; simpl.
  - destruct g2; simpl; [done|].
    destruct (getitem2 g a2 b2) eqn:E; simpl; [done|].
    intros [= <-]. by eapply getitem2_raises.
  - destruct (getitem2 g a1 b1) eqn:E; simpl.
    + destruct (is_not a o); [|done]. destruct g2; simpl; [done|].
      destruct (getitem2 g a2 b2) eqn:E2; simpl; [done|].
      intros [= <-]. by eapply getitem2_raises.
    + intros [= <-]. by eapply getitem2_raises.
Qed.

Lemma passable_raises g w h d p e :
  passable g w h d p = Raise e → e = IndexError.
Proof.
  destruct p as [c r], d; simpl; case_decide; try done;
    apply two_slots_raises.
Qed.

Lemma passable_true_nonneg g w h d p :
  0 ≤ p.1 → 0 ≤ p.2 → passable g w h d p = Ok true →
  0 ≤ (neighbour d p).1 ∧ 0 ≤ (neighbour d p).2.
Proof.
  destruct p as [c r], d; simpl; intros ? ?; case_decide; try done;
    intros _; lia.
Qed.

Section fill_total.
Context (g : fence_grid) (tag : Z).

(** Outcome of a call on [cells]: either the same shape with no more
    unlabelled entries than before, or an [IndexError]. *)
Definition fill_outcome (cells : tag_grid) (r : result tag_grid) : Prop :=
  match r with
  | Ok cells' =>
      length <$> cells' = length <$> cells ∧
      (count_none cells' ≤ count_none cells)%nat
  | Raise e => e = IndexError
  end.

Lemma fill_outcome_trans cells cells' r :
  length <$> cells' = length <$> cells →
  (count_none cells' ≤ count_none cells)%nat →
  fill_outcome cells' r → fill_outcome cells r.
Proof.
  intros Hs Hc. destruct r as [cells''|e]; simpl; [|done].
  intros [Hs' Hc']. split; [congruence|lia].
Qed.

Lemma fill_total fuel cells p :
  0 ≤ p.1 → 0 ≤ p.2 → (count_none cells < fuel)%nat →
  fill_outcome cells (fill_cells_rec fuel cells g p tag).
Proof.
  revert cells p. induction fuel as [|fuel IH]; intros cells p H1 H2 Hfuel;
    [lia|].
  simpl. destruct (getitem cells 0) as [row0|e] eqn:E0; simpl;
    [|by eapply getitem_raises].
  rewrite getitem2_lookup2 by done. destruct p as [c r]. simpl in *.
  destruct (lookup2 cells (c, r)) as [[t|]|] eqn:El; simpl; [done| |done].
  destruct (setitem2_lookup2 cells c r (Some tag) None El)
    as (cells1 & Hset & _ & Hshape).
  rewrite Hset. simpl.
  pose proof (count_none_label _ _ _ _ _ El Hset) as Hcount.
  set (w := Z.of_nat (length cells)). set (h := Z.of_nat (length row0)).
  set (go := visit g w h (c, r)
               (λ cells q, fill_cells_rec fuel cells g q tag)).
  assert (∀ d cs, (count_none cs < fuel)%nat →
    fill_outcome cs (go cs d)) as Hstep.
  { intros d cs Hcs. unfold go, visit.
    destruct (passable g w h d (c, r)) as [[|]|e] eqn:Ep; simpl.
    - destruct (passable_true_nonneg _ _ _ _ (c, r) H1 H2 Ep).
      by apply IH.
    - done.
    - by eapply passable_raises. }
  apply (fill_outcome_trans _ cells1); [done|lia|].
  assert (count_none cells1 < fuel)%nat as Hf1 by lia.
  clear Hset Hcount Hshape El. revert Hf1. generalize cells1. clear cells1.
  clearbody go. intros cs0 Hf0.
  pose proof (Hstep Wd cs0 Hf0) as HW.
  destruct (go cs0 Wd) as [cs1|e]; simpl in *; [|done].
  destruct HW as [Hs1 Hc1]. apply (fill_outcome_trans _ cs1); [done..|].
  pose proof (Hstep Ed cs1 ltac:(lia)) as HE.
  destruct (go cs1 Ed) as [cs2|e]; simpl in *; [|done].
  destruct HE as [Hs2 Hc2]. apply (fill_outcome_trans _ cs2); [done..|].
  pose proof (Hstep Sd cs2 ltac:(lia)) as HS.
  destruct (go cs2 Sd) as [cs3|e]; simpl in *; [|done].
  destruct HS as [Hs3 Hc3]. apply (fill_outcome_trans _ cs3); [done..|].
  apply Hstep. lia.
Qed.

End fill_total.

(** ** [_fill_cells] labels exactly one connected component *)

(** The label of a cell: [None] when unlabelled or off the matrix. *)
Definition tag_of (cells : tag_grid) (p : cell) : option Z :=
  default None (lookup2 cells p).

Section fill_spec.
Context (g : fence_grid) (W H : nat) (tag : Z).
Let w := Z.of_nat W.
Let h := Z.of_nat H.
Context (Hg : wf_grid w h g).

(** Every cell linked to [p] carries a label. *)
Definition closed_at (cells : tag_grid) (p : cell) : Prop :=
  ∀ q, linked g w h p q → tag_of cells q ≠ None.

(** [cells'] extends [cells] by a flood from [p]: old labels are kept, and
    each new label is [tag], sits on a cell connected to [p], and all the
    cells linked to that cell are labelled too. *)
Definition ext (p : cell) (cells cells' : tag_grid) : Prop :=
  rect W H cells' ∧
  (∀ q t, tag_of cells q = Some t → tag_of cells' q = Some t) ∧
  (∀ q, tag_of cells q = None → tag_of cells' q ≠ None →
        tag_of cells' q = Some tag ∧ connected g w h p q ∧
        closed_at cells' q).

Lemma ext_keeps p cells cells' q :
  ext p cells cells' → tag_of cells q ≠ None → tag_of cells' q ≠ None.
Proof.
  intros (_ & Hold & _) Hq. destruct (tag_of cells q) as [t|] eqn:E; [|done].
  by rewrite (Hold q t E).
Qed.

Lemma ext_refl p cells : rect W H cells → ext p cells cells.
Proof.
  intros Hr. split; [done|]. split; [done|]. intros q Hn Hs. congruence.
Qed.

Lemma ext_trans p A B C : ext p A B → ext p B C → ext p A C.
Proof.
  intros HAB HBC. pose proof HAB as (_ & HoAB & HnAB).
  pose proof HBC as (HrC & HoBC & HnBC).
  split; [done|]. split; [by intros q t Hq; apply HoBC, HoAB|].
  intros q HA HC. destruct (tag_of B q) as [t|] eqn:EB.
  - destruct (HnAB q HA) as (Ht & Hconn & Hcl); [congruence|].
    split; [apply HoBC; congruence|]. split; [done|].
    intros q' Hl. eapply ext_keeps; [exact HBC|]. by apply Hcl.
  - by apply HnBC.
Qed.

Lemma ext_step p p' A B : linked g w h p p' → ext p' A B → ext p A B.
Proof.
  intros Hl (Hr & Ho & Hn). split; [done|]. split; [done|].
  intros q HA HB. destruct (Hn q HA HB) as (Ht & Hc & Hcl).
  split; [done|]. split; [|done]. by eapply rtc_l.
Qed.

Lemma tag_of_rect cells p :
  rect W H cells → in_board w h p → lookup2 cells p = Some (tag_of cells p).
Proof.
  intros Hr Hp. unfold tag_of.
  destruct (proj2 (rect_lookup2 _ _ _ p Hr)) as [x ->]; [done|done].
Qed.

Lemma fill_spec fuel cells p :
  rect W H cells → in_board w h p → (count_none cells < fuel)%nat →
  ∃ cells', fill_cells_rec fuel cells g p tag = Ok cells' ∧
            ext p cells cells' ∧ tag_of cells' p ≠ None.
Proof.
  revert cells p. induction fuel as [|fuel IH]; intros cells p Hr Hp Hfuel;
    [lia|].
  pose proof Hp as [Hp1 Hp2]. destruct p as [c r]. simpl in Hp1, Hp2.
  simpl.
  assert (∃ row0, cells !! 0%nat = Some row0) as [row0 Hrow0].
  { apply lookup_lt_is_Some. rewrite (rect_length _ _ _ Hr).
    unfold w in Hp1. lia. }
  rewrite getitem_nonneg by done. change (Z.to_nat 0) with 0%nat.
  rewrite Hrow0. simpl.
  rewrite (rect_row _ _ _ _ _ Hr Hrow0), (rect_length _ _ _ Hr).
  fold w h.
  rewrite getitem2_lookup2 by lia. rewrite (tag_of_rect _ _ Hr Hp).
  destruct (tag_of cells (c, r)) as [t|] eqn:Et.
  { exists cells. split; [done|]. split; [by apply ext_refl|congruence]. }
  pose proof (tag_of_rect _ _ Hr Hp) as El. rewrite Et in El.
  destruct (setitem2_lookup2 cells c r (Some tag) None El)
    as (cells1 & Hset & Hlook & Hshape).
  rewrite Hset. simpl.
  pose proof (count_none_label _ _ _ _ _ El Hset) as Hcount.
  assert (rect W H cells1) as Hr1 by (unfold rect in *; congruence).
  assert (∀ q, tag_of cells1 q =
               if decide (q = (c, r)) then Some tag else tag_of cells q)
    as Htag1.
  { intros q. unfold tag_of. rewrite Hlook. by case_decide. }
  set (go := visit g w h (c, r)
               (λ cells q, fill_cells_rec fuel cells g q tag)).
  assert (∀ d cs, rect W H cs → (count_none cs < fuel)%nat →
    ∃ cs', go cs d = Ok cs' ∧ ext (c, r) cs cs' ∧
           (linked g w h (c, r) (neighbour d (c, r)) →
            tag_of cs' (neighbour d (c, r)) ≠ None) ∧
           (count_none cs' ≤ count_none cs)%nat) as Hstep.
  { intros d cs Hrc Hcs. unfold go, visit.
    destruct (passable_spec g w h d (c, r) Hg Hp) as (b & -> & Hb). simpl.
    destruct b.
    - pose proof (proj1 Hb eq_refl) as Hl. pose proof Hl as (_ & Hq & _).
      destruct (IH cs _ Hrc Hq Hcs) as (cs' & Hfill & Hext & Hhere).
      exists cs'. split; [done|]. split; [by eapply ext_step|].
      split; [done|].
      pose proof (fill_total g tag fuel cs (neighbour d (c, r))
                    ltac:(unfold in_board in Hq; lia)
                    ltac:(unfold in_board in Hq; lia) Hcs) as Hout.
      rewrite Hfill in Hout. by destruct Hout.
    - exists cs. split; [done|]. split; [by apply ext_refl|].
      split; [|done]. intros Hl. by apply Hb in Hl. }
  clearbody go.
  destruct (Hstep Wd cells1 Hr1 ltac:(lia)) as (cs2 & -> & HeW & HW & HcW).
  simpl. pose proof HeW as (Hr2 & _).
  destruct (Hstep Ed cs2 Hr2 ltac:(lia)) as (cs3 & -> & HeE & HE & HcE).
  simpl. pose proof HeE as (Hr3 & _).
  destruct (Hstep Sd cs3 Hr3 ltac:(lia)) as (cs4 & -> & HeS & HS & HcS).
  simpl. pose proof HeS as (Hr4 & _).
  destruct (Hstep Nd cs4 Hr4 ltac:(lia)) as (cs5 & -> & HeN & HN & HcN).
  pose proof HeN as (Hr5 & _).
  exists cs5. split; [done|].
  assert (ext (c, r) cells1 cs5) as He15.
  { eapply ext_trans; [|exact HeN]. eapply ext_trans; [|exact HeS].
    eapply ext_trans; [exact HeW|exact HeE]. }
  assert (ext (c, r) cs2 cs5) as He25.
  { eapply ext_trans; [|exact HeN]. eapply ext_trans; [exact HeE|exact HeS]. }
  assert (ext (c, r) cs3 cs5) as He35 by (eapply ext_trans; eauto).
  assert (tag_of cs5 (c, r) = Some tag) as Hhere.
  { destruct He15 as (_ & Hold & _). apply Hold. rewrite Htag1.
    by rewrite decide_True. }
  split; [|congruence].
  split; [done|]. split.
  - intros q t Hq. destruct He15 as (_ & Hold & _). apply Hold.
    rewrite Htag1. rewrite decide_False; [done|]. intros ->. congruence.
  - intros q Hq Hq5. destruct (decide (q = (c, r))) as [->|Nq].
    + split; [done|]. split; [apply rtc_refl|].
      intros q' Hl. pose proof Hl as (_ & _ & [d ->] & _).
      destruct d.
      * eapply ext_keeps; [exact He25|]. by apply HW.
      * eapply ext_keeps; [exact He35|]. by apply HE.
      * eapply ext_keeps; [exact HeN|]. by apply HS.
      * by apply HN.
    + destruct He15 as (_ & _ & Hnew). apply Hnew; [|done].
      rewrite Htag1. by rewrite decide_False.
Qed.
End fill_spec.

(** ** Loops *)


(** Invariant rule for a loop that cannot fail: the invariant is indexed by
    the list of elements already processed. *)
Lemma foldM_inv {A S} (I : list A → S → Prop) (f : S → A → result S) l s :
  I [] s →
  (∀ pre x s, x ∈ l → I pre s → ∃ s', f s x = Ok s' ∧ I (pre ++ [x]) s') →
  ∃ s', foldM f s l = Ok s' ∧ I l s'.
Proof.
  intros H0 Hstep.
  cut (∀ l' pre s, (∀ x, x ∈ l' → x ∈ l) → I pre s →
         ∃ s', foldM f s l' = Ok s' ∧ I (pre ++ l') s').
  { intros Hcut. apply (Hcut l [] s); [done|done]. }
  clear s H0. induction l' as [|x l' IH]; intros pre s Hsub Hpre; simpl.
  - exists s. by rewrite app_nil_r.
  - destruct (Hstep pre x s) as (s1 & -> & H1); [apply Hsub; left|done|].
    simpl. destruct (IH (pre ++ [x]) s1) as (s2 & -> & H2).
    + intros y Hy. apply Hsub. by right.
    + done.
    + exists s2. split; [done|]. by rewrite <- app_assoc in H2.
Qed.

Lemma elem_of_range n x : x ∈ range n ↔ 0 ≤ x < n.
Proof.
  unfold range. rewrite list_elem_of_fmap. split.
  - intros (k & -> & Hk). apply elem_of_seq in Hk. lia.
  - intros Hx. exists (Z.to_nat x). split; [lia|]. apply elem_of_seq. lia.
Qed.

(** ** The labelling computed by [is_blocking] on a square board *)

Section label_spec.
Context (g : fence_grid) (n : nat).
Let N := Z.of_nat n.
Context (Hg : wf_grid N N g).

(** Invariant of the two labelling loops: labelled cells form whole
    connected components, two of them carry the same label exactly when
    they are connected, and labels used so far are below the counter. *)
Definition labelled_ok (cells : tag_grid) (tag : Z) : Prop :=
  rect n n cells ∧
  (∀ p t, tag_of cells p = Some t → t < tag) ∧
  (∀ p, tag_of cells p ≠ None → closed_at g n n cells p) ∧
  (∀ p q tp tq, tag_of cells p = Some tp → tag_of cells q = Some tq →
                (tp = tq ↔ connected g N N p q)).

Lemma closed_connected cells p q :
  (∀ p, tag_of cells p ≠ None → closed_at g n n cells p) →
  tag_of cells p ≠ None → connected g N N p q → tag_of cells q ≠ None.
Proof.
  intros Hcl Hp Hc. induction Hc as [|p p' q Hl _ IH]; [done|].
  apply IH. by apply (Hcl p).
Qed.

Lemma label_row_spec cells tag col row :
  labelled_ok cells tag → in_board N N (col, row) →
  ∃ cells' tag',
    label_row g col (cells, tag) row = Ok (cells', tag') ∧
    labelled_ok cells' tag' ∧ tag_of cells' (col, row) ≠ None ∧
    (∀ q, tag_of cells q ≠ None → tag_of cells' q ≠ None).
Proof.
  intros (Hr & Hlt & Hcl & Hiff) Hp. unfold label_row.
  pose proof Hp as [Hp1 Hp2]. simpl in Hp1, Hp2.
  rewrite getitem2_lookup2 by lia.
  rewrite (tag_of_rect n n cells (col, row) Hr Hp).
  destruct (tag_of cells (col, row)) as [t|] eqn:Et.
  { exists cells, tag. split; [done|]. split; [done|].
    split; [congruence|done]. }
  unfold _fill_cells.
  destruct (fill_spec g n n tag Hg (S (count_none cells)) cells (col, row)
              Hr Hp ltac:(lia)) as (cells' & -> & Hext & Hhere).
  simpl. exists cells', (tag + 1). split; [done|].
  pose proof Hext as (Hr' & Hold & Hnew).
  split; [|split; [done|by intros q; apply (ext_keeps g n n tag _ _ _ _ Hext)]].
  assert (∀ q t, tag_of cells' q = Some t →
            (tag_of cells q = Some t) ∨
            (tag_of cells q = None ∧ t = tag ∧
             connected g N N (col, row) q ∧ closed_at g n n cells' q))
    as Hcase.
  { intros q t Hq. destruct (tag_of cells q) as [t0|] eqn:E0.
    - left. rewrite (Hold q t0 E0) in Hq. congruence.
    - right. destruct (Hnew q E0) as (Ht & Hc & Hc'); [congruence|].
      split; [done|]. split; [congruence|done]. }
  split; [done|]. split; [|split].
  - intros p t Hpt. destruct (Hcase p t Hpt) as [Ho|(_ & -> & _)]; [|lia].
    specialize (Hlt p t Ho). lia.
  - intros p Hpn. destruct (tag_of cells' p) as [t|] eqn:Ep; [|done].
    destruct (Hcase p t Ep) as [Ho|(_ & _ & _ & Hc)]; [|done].
    intros q Hl. eapply ext_keeps; [exact Hext|].
    apply (Hcl p); [congruence|done].
  - intros p q tp tq Hp' Hq'.
    destruct (Hcase p tp Hp') as [Hop|(Hnp & -> & Hcp & _)],
             (Hcase q tq Hq') as [Hoq|(Hnq & -> & Hcq & _)].
    + by apply Hiff.
    + split.
      * intros ->. specialize (Hlt p tag Hop). lia.
      * intros Hc. exfalso.
        apply (closed_connected cells p q Hcl); [congruence|done|done].
    + split.
      * intros <-. specialize (Hlt q tag Hoq). lia.
      * intros Hc. exfalso. apply connected_sym in Hc.
        apply (closed_connected cells q p Hcl); [congruence|done|done].
    + split; [|done]. intros _.
      eapply rtc_trans; [|exact Hcq]. by apply connected_sym.
Qed.
End label_spec.

Lemma tag_of_replicate a b p :
  tag_of (replicate a (replicate b None)) p = None.
Proof.
  unfold tag_of, lookup2. case_decide; [|done].
  destruct (replicate a (replicate b None) !! Z.to_nat p.1) as [row|] eqn:E;
    simpl; [|done].
  apply lookup_replicate in E as [-> _].
  destruct (replicate b None !! Z.to_nat p.2) as [x|] eqn:E'; simpl; [|done].
  by apply lookup_replicate in E' as [-> _].
Qed.

Section label_all_spec.
Context (g : fence_grid) (n : nat).
Local Abbreviation N := (Z.of_nat n).
Context (Hg : wf_grid N N g).

(** A correct labelling of the whole board: every cell has a label, and
    two cells share a label exactly when they are connected. *)
Definition labelling (tags : tag_grid) : Prop :=
  rect n n tags ∧
  (∀ p, in_board N N p → is_Some (tag_of tags p)) ∧
  (∀ p q tp tq, tag_of tags p = Some tp → tag_of tags q = Some tq →
                (tp = tq ↔ connected g N N p q)).

Lemma label_all_spec : ∃ tags, label_all g N N = Ok tags ∧ labelling tags.
Proof.
  unfold label_all. cbv zeta. rewrite Nat2Z.id.
  destruct (foldM_inv
    (λ pre (st : tag_grid * Z),
       labelled_ok g n st.1 st.2 ∧
       ∀ q, q.1 ∈ pre → q.2 ∈ range N → tag_of st.1 q ≠ None)
    (λ st col, foldM (label_row g col) st (range N))
    (range N) (replicate n (replicate n None), 0))
    as ([tags tag] & -> & Hok & Hall).
  - split; [|by intros q Hq; apply elem_of_nil in Hq]. simpl.
    split; [apply rect_replicate|].
    split; [by intros p t; rewrite tag_of_replicate|].
    split; [by intros p; rewrite tag_of_replicate|].
    intros p q tp tq. by rewrite tag_of_replicate.
  - intros pre col [cs tg] Hcol [Hok Hdone]. simpl in Hok, Hdone.
    apply elem_of_range in Hcol.
    destruct (foldM_inv
      (λ pre' (st' : tag_grid * Z),
         labelled_ok g n st'.1 st'.2 ∧
         (∀ q, tag_of cs q ≠ None → tag_of st'.1 q ≠ None) ∧
         ∀ r, r ∈ pre' → tag_of st'.1 (col, r) ≠ None)
      (label_row g col) (range N) (cs, tg))
      as ([cs' tg'] & Hfold & Hok' & Hkeep & Hcolumn).
    + split; [done|]. split; [done|]. by intros r Hr; apply elem_of_nil in Hr.
    + intros pre' row [cs1 tg1] Hrow (Hok1 & Hkeep1 & Hcol1).
      simpl in Hok1, Hkeep1, Hcol1. apply elem_of_range in Hrow.
      destruct (label_row_spec g n Hg cs1 tg1 col row Hok1)
        as (cs2 & tg2 & -> & Hok2 & Hhere & Hkeep2); [done|].
      exists (cs2, tg2). split; [done|]. simpl. split; [done|].
      split; [by intros q Hq; apply Hkeep2, Hkeep1|].
      intros r Hr. apply elem_of_app in Hr as [Hr|Hr].
      * by apply Hkeep2, Hcol1.
      * apply list_elem_of_singleton in Hr as ->. done.
    + exists (cs', tg'). split; [done|]. simpl in *. split; [done|].
      intros [qc qr] Hq1 Hq2. simpl in *.
      apply elem_of_app in Hq1 as [Hq1|Hq1].
      * apply Hkeep. by apply Hdone.
      * apply list_elem_of_singleton in Hq1 as ->. by apply Hcolumn.
  - simpl in *. exists tags. split; [done|].
    destruct Hok as (Hr & _ & _ & Hiff). split; [done|]. split; [|done].
    intros p [Hp1 Hp2]. apply not_eq_None_Some.
    apply Hall; by apply elem_of_range.
Qed.
End label_all_spec.

(** ** [is_blocking] decides goal reachability *)

(** The boundary of a side, stated directly. *)
Definition on_edge (s : Compass) (w h : Z) (p : cell) : Prop :=
  in_board w h p ∧
  match s with
  | NORTH => p.2 = h - 1
  | SOUTH => p.2 = 0
  | WEST => p.1 = 0
  | EAST => p.1 = w - 1
  end.

Lemma elem_of_side_cells s w h p :
  0 < w → 0 < h → p ∈ side_cells s w h ↔ on_edge s w h p.
Proof.
  intros Hw Hh. destruct p as [c r]. unfold side_cells, on_edge, in_board.
  destruct s; rewrite list_elem_of_fmap; simpl; split.
  all: try (intros (x & [= -> ->] & Hx); apply elem_of_range in Hx; lia).
  - intros [[? ?] ->]. exists c. split; [done|]. by apply elem_of_range.
  - intros [[? ?] ->]. exists r. split; [done|]. by apply elem_of_range.
  - intros [[? ?] ->]. exists c. split; [done|]. by apply elem_of_range.
  - intros [[? ?] ->]. exists r. split; [done|]. by apply elem_of_range.
Qed.

(** The cache, when present, holds the labelling of the current grid. *)
Definition cache_fresh (q : Quoridor) : Prop :=
  match _cell_tags q with
  | None => True
  | Some tags => label_all (grid q) (width q) (height q) = Ok tags
  end.

Section read_tags_spec.
Context (g : fence_grid) (n : nat).
Local Abbreviation N := (Z.of_nat n).
Context (tags : tag_grid) (Htags : labelling g n tags).

Lemma all_differ_spec p tp dsts :
  tag_of tags p = Some tp →
  (∀ d, d ∈ dsts → in_board N N d) →
  ∃ b, all_differ tags (Some tp) dsts = Ok b ∧
       (b = true ↔ ∀ d, d ∈ dsts → ¬ connected g N N p d) ∧
       (b = false → ∃ d, d ∈ dsts ∧ connected g N N p d).
Proof.
  destruct Htags as (Hr & Hall & Hiff). intros Hp.
  induction dsts as [|d dsts IH]; intros Hin; simpl.
  - exists true. split; [done|]. split; [|done]. split; [|done].
    intros _ d Hd. by apply elem_of_nil in Hd.
  - assert (in_board N N d) as Hd by (apply Hin; left).
    pose proof Hd as [Hd1 Hd2].
    rewrite getitem2_lookup2 by lia.
    replace (d.1, d.2) with d by by destruct d.
    rewrite (tag_of_rect n n tags d Hr Hd).
    destruct (Hall d Hd) as [td Htd]. rewrite Htd. simpl.
    destruct (decide (Some tp ≠ Some td)) as [Hne|Heq].
    + destruct IH as (b & -> & Hb & Hex);
        [by intros d' Hd'; apply Hin; right|].
      exists b. split; [done|]. rewrite Hb. split; [split|].
      * intros Hrest d' Hd'. apply elem_of_cons in Hd' as [->|Hd'].
        -- intros Hc. apply Hne. f_equal. by apply (Hiff p d).
        -- by apply Hrest.
      * intros Hrest d' Hd'. apply Hrest. by right.
      * intros Hf. destruct (Hex Hf) as (d' & Hd' & Hc).
        exists d'. split; [by right|done].
    + assert (connected g N N p d) as Hc.
      { apply (Hiff p d tp td Hp Htd). apply dec_stable in Heq.
        congruence. }
      exists false. split; [done|]. split; [split; [done|]|].
      * intros Hrest. exfalso. apply (Hrest d); [left|done].
      * intros _. exists d. split; [left|done].
Qed.

Lemma read_tags_spec pawn :
  0 < N → in_board N N (pos pawn) →
  ∃ b, read_tags pawn N N tags = Ok b ∧
       (b = true ↔
        ∀ dst, on_edge (oppo (side pawn)) N N dst →
               ¬ connected g N N (pos pawn) dst) ∧
       (b = false →
        ∃ dst, on_edge (oppo (side pawn)) N N dst ∧
               connected g N N (pos pawn) dst).
Proof.
  intros HN Hp. unfold read_tags. pose proof Htags as (Hr & Hall & _).
  pose proof Hp as [Hp1 Hp2]. rewrite getitem2_lookup2 by lia.
  replace ((pos pawn).1, (pos pawn).2) with (pos pawn)
    by by destruct (pos pawn).
  rewrite (tag_of_rect n n tags _ Hr Hp).
  destruct (Hall _ Hp) as [tp Htp]. rewrite Htp. simpl.
  destruct (all_differ_spec (pos pawn) tp
              (side_cells (oppo (side pawn)) N N) Htp)
    as (b & -> & Hb & Hex).
  { intros d Hd. apply elem_of_side_cells in Hd; [|done..]. apply Hd. }
  exists b. split; [done|]. rewrite Hb. split; [split|].
  - intros Hside dst Hdst. apply Hside. by apply elem_of_side_cells.
  - intros Hedge dst Hdst. apply Hedge. by apply elem_of_side_cells in Hdst.
  - intros Hf. destruct (Hex Hf) as (d & Hd & Hc). exists d.
    split; [by apply elem_of_side_cells in Hd|done].
Qed.
End read_tags_spec.

(** On a square board with a well-formed grid and a cache that is absent or
    fresh, [is_blocking] returns, leaves a fresh cache behind, and answers
    whether the pawn is cut off from every cell of its goal edge. *)
Lemma is_blocking_spec q pawn :
  width q = height q →
  wf_grid (width q) (height q) (grid q) →
  cache_fresh q →
  in_board (width q) (height q) (pos pawn) →
  ∃ b tags,
    label_all (grid q) (width q) (height q) = Ok tags ∧
    is_blocking pawn q = (Ok b, set_cell_tags q (Some tags)) ∧
    (b = true ↔
     ∀ dst, on_edge (oppo (side pawn)) (width q) (height q) dst →
            ¬ connected (grid q) (width q) (height q) (pos pawn) dst) ∧
    (b = false →
     ∃ dst, on_edge (oppo (side pawn)) (width q) (height q) dst ∧
            connected (grid q) (width q) (height q) (pos pawn) dst).
Proof.
  intros Hsq Hg Hfresh Hp.
  set (n := Z.to_nat (width q)).
  assert (0 < width q) as Hw by (destruct Hp; lia).
  assert (width q = Z.of_nat n) as Ew by (unfold n; lia).
  rewrite <- Hsq in *. rewrite Ew in *.
  destruct (label_all_spec (grid q) n Hg) as (tags & Hlab & Htags).
  destruct (read_tags_spec (grid q) n tags Htags pawn Hw Hp) as (b & Hread & Hb).
  exists b, tags. split; [done|]. split; [|done].
  unfold is_blocking. rewrite <- Hsq, Ew. unfold cache_fresh in Hfresh.
  destruct (_cell_tags q) as [tags'|] eqn:Ec.
  - rewrite <- Hsq, Ew, Hlab in Hfresh. injection Hfresh as <-.
    rewrite Hread. f_equal. destruct q; simpl in *. by rewrite Ec.
  - by rewrite Hlab, Hread.
Qed.

(** ** [can_put_fence] *)

(** A pawn reaches its goal: its cell is connected to some cell of the edge
    opposite its own side. *)
Definition reaches_goal (g : fence_grid) (w h : Z) (p : Pawn) : Prop :=
  ∃ dst, on_edge (oppo (side p)) w h dst ∧ connected g w h (pos p) dst.

Definition cut_off (g : fence_grid) (w h : Z) (p : Pawn) : Prop :=
  ∀ dst, on_edge (oppo (side p)) w h dst → ¬ connected g w h (pos p) dst.

Lemma any_blocking_spec ps q :
  width q = height q →
  wf_grid (width q) (height q) (grid q) →
  cache_fresh q →
  (∀ p, p ∈ ps → in_board (width q) (height q) (pos p)) →
  ∃ b q',
    any_blocking ps q = (Ok b, q') ∧
    set_cell_tags q' None = set_cell_tags q None ∧
    (b = false →
     ∀ p, p ∈ ps → reaches_goal (grid q) (width q) (height q) p) ∧
    (b = true → ∃ p, p ∈ ps ∧ cut_off (grid q) (width q) (height q) p).
Proof.
  revert q. induction ps as [|p ps IH]; intros q Hsq Hg Hfresh Hin; simpl.
  - exists false, q. split; [done|]. split; [done|]. split; [|done].
    intros _ p Hp. by apply elem_of_nil in Hp.
  - destruct (is_blocking_spec q p Hsq Hg Hfresh)
      as (b & tags & Hlab & Hblk & Htrue & Hfalse); [apply Hin; left|].
    unfold mbind. rewrite Hblk. destruct b.
    + exists true, (set_cell_tags q (Some tags)). split; [done|].
      split; [done|]. split; [done|]. intros _. exists p.
      split; [left|]. exact (proj1 Htrue eq_refl).
    + destruct (IH (set_cell_tags q (Some tags)))
        as (b & q' & -> & Hq' & Hf & Ht);
        [done|done|done|by intros p' Hp'; apply Hin; right|].
      exists b, q'. split; [done|]. split; [done|]. split.
      * intros Hb p' Hp'. apply elem_of_cons in Hp' as [->|Hp'].
        -- by apply Hfalse.
        -- by apply Hf.
      * intros Hb. destruct (Ht Hb) as (p' & Hp' & Hcut).
        exists p'. split; [by right|done].
Qed.

(** The overlap rule of [can_put_fence], read off the grid. *)
Definition clashes (g : fence_grid) (coord : cell) (orient : Orient) : Prop :=
  match orient with
  | HORZ => fence g (coord.1 - 1, coord.2) = Some HORZ ∨
            fence g (coord.1 + 1, coord.2) = Some HORZ
  | VERT => fence g (coord.1, coord.2 - 1) = Some VERT ∨
            fence g (coord.1, coord.2 + 1) = Some VERT
  end.

Lemma is_orient_fence x o : is_orient x o = bool_decide (x = Some o).
Proof. done. Qed.

Lemma neighbour_clash_spec q coord orient :
  wf_grid (width q) (height q) (grid q) →
  0 ≤ coord.1 < width q - 1 → 0 ≤ coord.2 < height q - 1 →
  ∃ b, neighbour_clash q coord orient = Ok b ∧
       (b = true ↔ clashes (grid q) coord orient).
Proof.
  intros Hg H1 H2. destruct coord as [c r]. simpl in *.
  assert (∀ (P : Prop) `{Decision P} a b,
    (P → 0 ≤ a < width q - 1 ∧ 0 ≤ b < height q - 1) →
    (¬ P → ¬ (0 ≤ a < width q - 1 ∧ 0 ≤ b < height q - 1)) →
    ∀ o, (if decide P then
            let* x := getitem2 (grid q) a b in Ok (is_orient x o)
          else Ok false) =
         Ok (bool_decide (fence (grid q) (a, b) = Some o))) as Hone.
  { intros P HP a b Hin Hout o. destruct (decide P) as [Y|N].
    - destruct (Hin Y). rewrite getitem2_lookup2 by lia.
      by rewrite (fence_on_grid _ _ _ (a, b) Hg).
    - rewrite (fence_off_grid _ _ _ (a, b) Hg) by by apply Hout.
      by rewrite bool_decide_eq_false_2. }
  unfold neighbour_clash, clashes. simpl. destruct orient.
  - rewrite (Hone (r > 0) _ c (r - 1)) by lia. simpl.
    destruct (decide (fence (grid q) (c, r - 1) = Some VERT)) as [Y|N].
    + rewrite (bool_decide_eq_true_2 _ Y). exists true. split; [done|]. tauto.
    + rewrite (bool_decide_eq_false_2 _ N).
      rewrite (Hone (r < height q - 2) _ c (r + 1)) by lia.
      eexists. split; [done|]. rewrite bool_decide_eq_true. tauto.
  - rewrite (Hone (c > 0) _ (c - 1) r) by lia. simpl.
    destruct (decide (fence (grid q) (c - 1, r) = Some HORZ)) as [Y|N].
    + rewrite (bool_decide_eq_true_2 _ Y). exists true. split; [done|]. tauto.
    + rewrite (bool_decide_eq_false_2 _ N).
      rewrite (Hone (c < width q - 2) _ (c + 1) r) by lia.
      eexists. split; [done|]. rewrite bool_decide_eq_true. tauto.
Qed.

(** [is_blocking] touches nothing but the cache, whatever its outcome. *)
Lemma is_blocking_state p q :
  set_cell_tags (is_blocking p q).2 None = set_cell_tags q None.
Proof.
  unfold is_blocking. destruct (_cell_tags q); [done|].
  by destruct (label_all _ _ _).
Qed.

Lemma any_blocking_state ps q :
  set_cell_tags (any_blocking ps q).2 None = set_cell_tags q None.
Proof.
  revert q. induction ps as [|p ps IH]; intros q; simpl; [done|].
  unfold mbind. pose proof (is_blocking_state p q) as Hq.
  destruct (is_blocking p q) as [[[|]|e] q1]; simpl in *; try done.
  by rewrite IH.
Qed.


Definition slot_in_range (q : Quoridor) (coord : cell) : Prop :=
  0 ≤ coord.1 < width q - 1 ∧ 0 ≤ coord.2 < height q - 1.

(** Inversion of a returning [can_put_fence]: either it returned [False]
    before touching anything, or it went through the whole speculative
    check, after which the candidate is retracted and the cache cleared. *)
Lemma can_put_fence_returns q coord orient b q' :
  can_put_fence coord orient q = (Ok b, q') →
  (b = false ∧ q' = q) ∨
  (q' = set_cell_tags q None ∧ slot_in_range q coord ∧
   lookup2 (grid q) coord = Some None ∧
   neighbour_clash q coord orient = Ok false ∧
   ∃ g1 blocking q2,
     setitem2 (grid q) coord.1 coord.2 (Some orient) = Ok g1 ∧
     any_blocking (pawns q) (set_grid q g1) = (Ok blocking, q2) ∧
     b = negb blocking).
Proof.
  unfold can_put_fence, mbind, get, mret, lift, assign_grid, modify. simpl.
  case_bool_decide as Hrange; simpl; [|intros [= <- <-]; by left].
  destruct Hrange as [H1 H2]. rewrite getitem2_lookup2 by lia.
  replace (coord.1, coord.2) with coord by by destruct coord.
  destruct (lookup2 (grid q) coord) as [[o|]|] eqn:El; simpl;
    [intros [= <- <-]; by left| |done].
  destruct (neighbour_clash q coord orient) as [[|]|e] eqn:Ecl; simpl;
    [intros [= <- <-]; by left| |done].
  destruct (setitem2_lookup2 (grid q) coord.1 coord.2 (Some orient) None)
    as (g1 & Hset & _ & _); [by destruct coord|].
  rewrite Hset. simpl.
  pose proof (any_blocking_state (pawns q) (set_grid q g1)) as Hst.
  destruct (any_blocking (pawns q) (set_grid q g1)) as [[blocking|e] q2] eqn:Eany;
    simpl in *; [|done].
  assert (grid q2 = g1) as Hg2 by exact (f_equal grid Hst).
  rewrite Hg2.
  rewrite (setitem2_restore (grid q) coord.1 coord.2 None
             ltac:(by destruct coord) _ _ Hset).
  intros [= <- <-]. right. split.
  { clear Eany Ecl. destruct q, q2; simpl in *. by simplify_eq. }
  split; [done|]. split; [done|]. split; [done|].
  by exists g1, blocking, q2.
Qed.

(** On a square, well-formed board whose cache is clear, [can_put_fence]
    returns and leaves the state as it found it; a [True] answer means that
    every pawn still reaches its goal with the candidate in place. *)
Lemma can_put_fence_spec q coord orient :
  width q = height q →
  wf_grid (width q) (height q) (grid q) →
  _cell_tags q = None →
  (∀ p, p ∈ pawns q → in_board (width q) (height q) (pos p)) →
  ∃ b, can_put_fence coord orient q = (Ok b, q) ∧
       (b = true →
        ∃ g1, setitem2 (grid q) coord.1 coord.2 (Some orient) = Ok g1 ∧
              wf_grid (width q) (height q) g1 ∧
              ∀ p, p ∈ pawns q → reaches_goal g1 (width q) (height q) p).
Proof.
  intros Hsq Hg Hcache Hin.
  unfold can_put_fence, mbind, get, mret, lift, assign_grid, modify. simpl.
  case_bool_decide as Hrange; simpl; [|by exists false].
  destruct Hrange as [H1 H2]. rewrite getitem2_lookup2 by lia.
  replace (coord.1, coord.2) with coord by by destruct coord.
  rewrite (fence_on_grid _ _ _ coord Hg) by done.
  destruct (fence (grid q) coord) as [o|] eqn:Ef; simpl; [by exists false|].
  destruct (neighbour_clash_spec q coord orient Hg H1 H2) as (cl & -> & _).
  simpl. destruct cl; [by exists false|].
  pose proof (fence_on_grid _ _ _ coord Hg H1 H2) as El. rewrite Ef in El.
  destruct (setitem2_lookup2 (grid q) coord.1 coord.2 (Some orient) None)
    as (g1 & Hset & _ & Hshape); [by destruct coord|].
  rewrite Hset. simpl.
  assert (wf_grid (width q) (height q) g1) as Hg1
    by (unfold wf_grid, rect in *; congruence).
  destruct (any_blocking_spec (pawns q) (set_grid q g1))
    as (blocking & q2 & Hany & Hst & Hfalse & _); simpl; [done..| |done|].
  { unfold cache_fresh. simpl. by rewrite Hcache. }
  simpl in Hany. rewrite Hany. simpl.
  assert (grid q2 = g1) as Hg2 by exact (f_equal grid Hst).
  rewrite Hg2.
  rewrite (setitem2_restore (grid q) coord.1 coord.2 None
             ltac:(by destruct coord) _ _ Hset).
  exists (negb blocking). split.
  - f_equal. clear Hany Hfalse. destruct q, q2; simpl in *. by simplify_eq.
  - intros Hb. exists g1. split; [done|]. split; [done|].
    apply Hfalse. by destruct blocking.
Qed.

(** ** [move_region] *)

(** All the cells of the board, and the part of it not yet in [V]: the
    measure that bounds the recursion of [_move_region]. *)
Definition board_list (w h : Z) : list cell := cprod (range w) (range h).

Definition unvisited (V : gset cell) (l : list cell) : nat :=
  length (filter (λ x, x ∉ V) l).

Lemma elem_of_board_list w h p : p ∈ board_list w h ↔ in_board w h p.
Proof.
  unfold board_list, in_board.
  etransitivity; [apply list_elem_of_cprod|]. by rewrite !elem_of_range.
Qed.

Lemma length_range n : length (range n) = Z.to_nat n.
Proof. unfold range. by rewrite length_fmap, length_seq. Qed.

Lemma length_board_list w h :
  length (board_list w h) = (Z.to_nat w * Z.to_nat h)%nat.
Proof.
  unfold board_list. rewrite list_cprod_list_prod, length_prod.
  by rewrite !length_range.
Qed.

Lemma unvisited_mono V V' l : V ⊆ V' → (unvisited V' l ≤ unvisited V l)%nat.
Proof.
  intros Hsub. unfold unvisited. induction l as [|x l IH]; [done|].
  rewrite !filter_cons.
  destruct (decide (x ∉ V')), (decide (x ∉ V)); simpl; try lia.
  set_solver.
Qed.

Lemma unvisited_lt V V' l p :
  V ⊆ V' → p ∈ l → p ∉ V → p ∈ V' → (unvisited V' l < unvisited V l)%nat.
Proof.
  intros Hsub Hp HV HV'. induction l as [|x l IH]; [by apply elem_of_nil in Hp|].
  pose proof (unvisited_mono V V' l Hsub) as Hmono. unfold unvisited in *.
  rewrite !filter_cons. apply elem_of_cons in Hp as [<-|Hp].
  - rewrite (decide_False (P := p ∉ V')) by set_solver.
    rewrite (decide_True (P := p ∉ V)) by done. simpl. lia.
  - specialize (IH Hp).
    destruct (decide (x ∉ V')), (decide (x ∉ V)); simpl; try lia.
    set_solver.
Qed.

Section move_region_spec.
Context (cs : list (list (option nat))) (g : fence_grid) (w h : Z).
Context (Hcs : rect (Z.to_nat w) (Z.to_nat h) cs) (Hg : wf_grid w h g).

Definition occupied (x : cell) : Prop := ∃ i, lookup2 cs x = Some (Some i).
Definition vacant (x : cell) : Prop := lookup2 cs x = Some None.

(** What a traversal started at [p] adds: vacant cells to the region and
    occupied cells to the visited set, all connected to [p]; and every
    cell linked to a newly visited one ends up in one of the two sets. *)
Definition grow (p : cell) (st st' : gset cell * gset cell) : Prop :=
  st.1 ⊆ st'.1 ∧ st.2 ⊆ st'.2 ∧
  (∀ x, x ∈ st'.1 → x ∉ st.1 → vacant x ∧ connected g w h p x) ∧
  (∀ x, x ∈ st'.2 → x ∉ st.2 →
        in_board w h x ∧ occupied x ∧ connected g w h p x ∧
        ∀ y, linked g w h x y → y ∈ st'.1 ∪ st'.2).

Lemma grow_refl p st : grow p st st.
Proof. split; [done|]. split; [done|]. split; intros x Hx Hn; done. Qed.

Lemma grow_trans p A B C : grow p A B → grow p B C → grow p A C.
Proof.
  intros (HR1 & HV1 & Hr1 & Hv1) (HR2 & HV2 & Hr2 & Hv2).
  split; [by etrans|]. split; [by etrans|]. split.
  - intros x Hx Hn. destruct (decide (x ∈ B.1)); [by apply Hr1|by apply Hr2].
  - intros x Hx Hn. destruct (decide (x ∈ B.2)) as [HB|HB].
    + destruct (Hv1 x HB Hn) as (? & ? & ? & Hcl).
      split; [done|]. split; [done|]. split; [done|].
      intros y Hy. specialize (Hcl y Hy). set_solver.
    + by apply Hv2.
Qed.

Lemma grow_step p p' A B : linked g w h p p' → grow p' A B → grow p A B.
Proof.
  intros Hl (HR & HV & Hr & Hv). split; [done|]. split; [done|]. split.
  - intros x Hx Hn. destruct (Hr x Hx Hn). split; [done|]. by eapply rtc_l.
  - intros x Hx Hn. destruct (Hv x Hx Hn) as (? & ? & ? & ?).
    split; [done|]. split; [done|]. split; [by eapply rtc_l|done].
Qed.

Lemma move_region_rec_spec fuel p R V :
  in_board w h p →
  (∀ x, x ∈ V → in_board w h x) →
  (unvisited V (board_list w h) < fuel)%nat →
  ∃ st', move_region_rec fuel cs g w h p (R, V) = Ok st' ∧
         grow p (R, V) st' ∧ p ∈ st'.1 ∪ st'.2.
Proof.
  revert p R V. induction fuel as [|fuel IH]; intros p R V Hp HV Hfuel;
    [lia|].
  simpl. destruct (decide (p ∈ V)) as [Hin|Hnin].
  { exists (R, V). split; [done|]. split; [apply grow_refl|set_solver]. }
  pose proof Hp as [Hp1 Hp2]. rewrite getitem2_lookup2 by lia.
  replace (p.1, p.2) with p by by destruct p.
  destruct (proj2 (rect_lookup2 _ _ _ p Hcs)) as [v Hv]; [lia|].
  rewrite Hv. simpl. destruct v as [i|].
  2:{ exists ({[p]} ∪ R, V). split; [done|]. split; [|set_solver].
      split; [set_solver|]. split; [done|]. split.
      - intros x Hx Hn. simpl in *. assert (x = p) as -> by set_solver.
        split; [done|apply rtc_refl].
      - intros x Hx Hn. done. }
  set (go := visit g w h p
               (λ st q, move_region_rec fuel cs g w h q st)).
  assert (∀ d st, {[p]} ∪ V ⊆ st.2 → (∀ x, x ∈ st.2 → in_board w h x) →
    ∃ st', go st d = Ok st' ∧ grow p st st' ∧
           (linked g w h p (neighbour d p) → neighbour d p ∈ st'.1 ∪ st'.2))
    as Hstep.
  { intros d [R1 V1] Hsub HV1. unfold go, visit. simpl in *.
    destruct (passable_spec g w h d p Hg Hp) as (b & -> & Hb). simpl.
    destruct b.
    - pose proof (proj1 Hb eq_refl) as Hl. pose proof Hl as (_ & Hq & _).
      destruct (IH (neighbour d p) R1 V1 Hq HV1) as (st' & -> & Hgr & Hhere).
      { pose proof (unvisited_lt V V1 (board_list w h) p) as Hlt.
        rewrite elem_of_board_list in Hlt.
        specialize (Hlt ltac:(set_solver) Hp Hnin ltac:(set_solver)). lia. }
      exists st'. split; [done|]. split; [by eapply grow_step|done].
    - exists (R1, V1). split; [done|]. split; [apply grow_refl|].
      intros Hl. by apply Hb in Hl. }
  clearbody go.
  assert (∀ A B, grow p A B → (∀ x, x ∈ A.2 → in_board w h x) →
                 ∀ x, x ∈ B.2 → in_board w h x) as Hboard.
  { intros A B (_ & _ & _ & Hv') HA x Hx.
    destruct (decide (x ∈ A.2)); [by apply HA|]. by apply Hv'. }
  assert (∀ x, x ∈ {[p]} ∪ V → in_board w h x) as HV1.
  { intros x Hx. apply elem_of_union in Hx as [Hx|Hx]; [|by apply HV].
    by apply elem_of_singleton in Hx as ->. }
  destruct (Hstep Wd (R, {[p]} ∪ V)) as (s1 & -> & G1 & N1); [done|done|].
  simpl. pose proof (Hboard _ _ G1 HV1) as B1.
  pose proof G1 as (_ & S1 & _). simpl in S1.
  destruct (Hstep Ed s1) as (s2 & -> & G2 & N2); [done|done|].
  simpl. pose proof (Hboard _ _ G2 B1) as B2.
  pose proof G2 as (_ & S2 & _).
  destruct (Hstep Sd s2) as (s3 & -> & G3 & N3); [by etrans|done|].
  simpl. pose proof (Hboard _ _ G3 B2) as B3.
  pose proof G3 as (_ & S3 & _).
  destruct (Hstep Nd s3) as (s4 & -> & G4 & N4);
    [by etrans; [exact S1|etrans]|done|].
  pose proof G4 as (_ & S4 & _).
  exists s4. split; [done|].
  pose proof (grow_trans _ _ _ _ G1 (grow_trans _ _ _ _ G2
                (grow_trans _ _ _ _ G3 G4))) as G.
  pose proof G as (GR & GV & Gr & Gv). simpl in *.
  split; [|set_solver].
  split; [done|]. split; [set_solver|]. split; [done|].
  intros x Hx Hn. simpl in *. destruct (decide (x = p)) as [->|Nx].
  - split; [done|]. split; [by exists i|]. split; [apply rtc_refl|].
    intros y Hy. pose proof Hy as (_ & _ & [d ->] & _).
    destruct G2 as (R2 & _), G3 as (R3 & _), G4 as (R4 & _).
    clear -N1 N2 N3 N4 Hy R2 R3 R4 S2 S3 S4.
    destruct d; [specialize (N1 Hy)|specialize (N2 Hy)|specialize (N3 Hy)
                 |specialize (N4 Hy)]; set_solver.
  - apply Gv; [done|set_solver].
Qed.
End move_region_spec.

Lemma resolve_cases pawn q :
  (∃ i p, resolve pawn q = (Ok i, q) ∧ pawns q !! i = Some p) ∨
  (∃ e, resolve pawn q = (Raise e, q)).
Proof.
  destruct pawn as [i|]; simpl.
  - unfold mbind, pawn_at, mret. rewrite getitem_nonneg, Nat2Z.id by lia.
    destruct (pawns q !! i) as [p|] eqn:E; [left; by exists i, p|right; eauto].
  - unfold curr_pawn. rewrite getitem_nonneg, Nat2Z.id by lia.
    destruct (pawns q !! _curr_pawn q) as [p|] eqn:E; simpl.
    + left. by exists (_curr_pawn q), p.
    + right. eauto.
Qed.

Lemma pawn_at_lookup i q p : pawns q !! i = Some p → pawn_at i q = (Ok p, q).
Proof.
  intros Hp. unfold pawn_at. by rewrite getitem_nonneg, Nat2Z.id, Hp by lia.
Qed.

Lemma resolve_some i q p :
  pawns q !! i = Some p → resolve (Some i) q = (Ok i, q).
Proof.
  intros Hp. simpl. unfold mbind, mret. by rewrite (pawn_at_lookup i q p).
Qed.

Lemma move_region_fuel_enough (cs : list (list (option nat))) w h :
  rect (Z.to_nat w) (Z.to_nat h) cs →
  (unvisited ∅ (board_list w h) < move_region_fuel cs)%nat.
Proof.
  intros Hr. unfold move_region_fuel, unvisited.
  eapply Nat.le_lt_trans; [apply length_filter|].
  rewrite length_board_list. unfold rect in Hr.
  rewrite Hr, sum_list_replicate.
  generalize (Z.to_nat w * Z.to_nat h)%nat. intros k. lia.
Qed.

(** [move_region] on a well-formed board: it returns, changes nothing, and
    its result together with the set of traversed pawns is what a traversal
    from the pawn's cell adds to two empty sets. *)
Lemma move_region_spec q i p :
  rect (Z.to_nat (width q)) (Z.to_nat (height q)) (cells q) →
  wf_grid (width q) (height q) (grid q) →
  pawns q !! i = Some p →
  in_board (width q) (height q) (pos p) →
  ∃ region visited,
    move_region (Some i) q = (Ok region, q) ∧
    grow (cells q) (grid q) (width q) (height q) (pos p) (∅, ∅)
         (region, visited) ∧
    pos p ∈ region ∪ visited.
Proof.
  intros Hcs Hg Hi Hp. unfold move_region, mbind.
  rewrite (resolve_some i q p Hi), (pawn_at_lookup i q p Hi).
  unfold get, lift, mret.
  destruct (move_region_rec_spec (cells q) (grid q) (width q) (height q)
              Hcs Hg (move_region_fuel (cells q)) (pos p) ∅ ∅ Hp)
    as ([region visited] & -> & Hgrow & Hhere).
  - intros x Hx. set_solver.
  - by apply move_region_fuel_enough.
  - by exists region, visited.
Qed.

Lemma elem_of_insert_inv {A} (l : list A) i x y :
  y ∈ <[i:=x]> l → y = x ∨ y ∈ l.
Proof.
  intros Hy. apply list_elem_of_lookup in Hy as [j Hj].
  apply list_lookup_insert_Some in Hj as [(-> & -> & _)|[_ Hj]]; [by left|].
  right. apply list_elem_of_lookup. by exists j.
Qed.

(** ** The invariant of validated play on a square board *)

Record inv (q : Quoridor) : Prop := mk_inv {
  inv_square : width q = height q;
  inv_grid : wf_grid (width q) (height q) (grid q);
  inv_cells : rect (Z.to_nat (width q)) (Z.to_nat (height q)) (cells q);
  inv_cache : _cell_tags q = None;
  inv_board : ∀ p, p ∈ pawns q → in_board (width q) (height q) (pos p);
  inv_goal : ∀ p, p ∈ pawns q → reaches_goal (grid q) (width q) (height q) p
}.

Lemma next_pawn_state q :
  (next_pawn q).2 = q ∨ ∃ k, (next_pawn q).2 = set_curr q k.
Proof.
  unfold next_pawn. destruct (length (pawns q)); [by left|]. right.
  by eexists.
Qed.

Lemma inv_set_curr q k : inv q → inv (set_curr q k).
Proof. intros []. by constructor. Qed.

Lemma inv_set_finished q b : inv q → inv (set_finished q b).
Proof. intros []. by constructor. Qed.

Lemma inv_next_pawn q : inv q → inv (next_pawn q).2.
Proof.
  intros Hq. destruct (next_pawn_state q) as [->|[k ->]]; [done|].
  by apply inv_set_curr.
Qed.

Lemma reaches_goal_moved g w h p p' :
  side p' = side p → connected g w h (pos p) (pos p') →
  reaches_goal g w h p → reaches_goal g w h p'.
Proof.
  intros Hs Hc (dst & Hdst & Hgoal). exists dst. rewrite Hs. split; [done|].
  eapply rtc_trans; [|exact Hgoal]. by apply connected_sym.
Qed.

(** A validated move keeps the invariant, whether it succeeds or raises. *)
Lemma move_preserves dst pawn q : inv q → inv (move dst pawn true q).2.
Proof.
  intros Hq. pose proof Hq as [Hsq Hg Hcs Hcache Hboard Hgoal].
  unfold move. unfold mbind at 1.
  destruct (resolve_cases pawn q) as [(i & p & -> & Hi)|(e & ->)]; [|done].
  assert (p ∈ pawns q) as Hp by (apply list_elem_of_lookup; eauto).
  unfold mbind at 1. unfold move_check, mbind at 1.
  destruct (move_region_spec q i p Hcs Hg Hi (Hboard p Hp))
    as (region & visited & -> & (_ & _ & Hregion & _) & _).
  destruct (decide (dst ∈ region)) as [Hdst|Hdst]; [|done].
  destruct (Hregion dst Hdst ltac:(set_solver)) as [Hvac Hconn].
  simpl in Hvac, Hconn. unfold vacant in Hvac.
  assert (in_board (width q) (height q) dst) as Hdb.
  { pose proof (proj1 (rect_lookup2 _ _ _ dst Hcs) (mk_is_Some _ _ Hvac)).
    unfold in_board. lia. }
  unfold mret. unfold mbind at 1. rewrite (pawn_at_lookup i q p Hi).
  destruct (proj2 (rect_lookup2 _ _ _ (pos p) Hcs)) as [v Hv];
    [destruct (Hboard p Hp); lia|].
  destruct (setitem2_lookup2 (cells q) (pos p).1 (pos p).2 None v)
    as (cs1 & Hset1 & Hlook1 & Hshape1); [by destruct (pos p)|].
  unfold mbind at 1. unfold assign_cell at 1. rewrite Hset1.
  unfold mbind at 1. unfold update_pawn at 1. simpl. rewrite Hi.
  assert (is_Some (lookup2 cs1 dst)) as [v' Hv'].
  { rewrite Hlook1. case_decide; [done|]. by rewrite Hvac. }
  destruct (setitem2_lookup2 cs1 dst.1 dst.2 (Some i) v')
    as (cs2 & Hset2 & _ & Hshape2); [by destruct dst|].
  unfold mbind at 1. unfold assign_cell at 1. simpl. rewrite Hset2.
  unfold mbind at 1. unfold get. simpl.
  set (p' := {| num_fences := num_fences p; side := side p; pos := dst;
                win := win p |}).
  set (q3 := set_cells (set_pawns (set_cells q cs1) (<[i:=p']> (pawns q))) cs2).
  assert (inv q3) as Hq3.
  { constructor; simpl; try done.
    - unfold rect in *. congruence.
    - intros x Hx. apply elem_of_insert_inv in Hx as [->|Hx]; [done|].
      by apply Hboard.
    - intros x Hx. apply elem_of_insert_inv in Hx as [->|Hx]; [|by apply Hgoal].
      by apply (reaches_goal_moved _ _ _ p); [..|apply Hgoal]. }
  assert (pawns q3 !! i = Some p') as Hi3.
  { simpl. apply list_lookup_insert_eq. by eapply lookup_lt_Some. }
  clearbody q3. destruct (wins q3 (side p) dst).
  - unfold mbind, update_pawn. rewrite Hi3. unfold modify. simpl.
    apply inv_set_finished.
    assert (p' ∈ pawns q3) as Hp' by (apply list_elem_of_lookup; eauto).
    destruct Hq3 as [? ? ? ? Hb3 Hg3]. constructor; simpl in *; try done.
    + intros x Hx. apply elem_of_insert_inv in Hx as [->|Hx]; [|by apply Hb3].
      by apply (Hb3 p').
    + intros x Hx. apply elem_of_insert_inv in Hx as [->|Hx]; [|by apply Hg3].
      by apply (Hg3 p').
  - unfold mbind.
    pose proof (inv_next_pawn q3 Hq3) as Hn.
    by destruct (next_pawn q3) as [[k|e] q4].
Qed.

Lemma put_fence_check_spec q coord orient i p :
  inv q → pawns q !! i = Some p →
  (∃ e, put_fence_check coord orient i q = (Raise e, q)) ∨
  (put_fence_check coord orient i q = (Ok tt, q) ∧ 0 < num_fences p ∧
   ∃ g1, setitem2 (grid q) coord.1 coord.2 (Some orient) = Ok g1 ∧
         wf_grid (width q) (height q) g1 ∧
         ∀ x, x ∈ pawns q → reaches_goal g1 (width q) (height q) x).
Proof.
  intros [Hsq Hg Hcs Hcache Hboard Hgoal] Hi.
  unfold put_fence_check, mbind. rewrite (pawn_at_lookup i q p Hi).
  destruct (decide (num_fences p ≤ 0)) as [Hle|Hgt]; [left; by eexists|].
  destruct (can_put_fence_spec q coord orient Hsq Hg Hcache Hboard)
    as (b & -> & Hb).
  destruct b; [|left; by eexists].
  right. split; [done|]. split; [lia|]. by apply Hb.
Qed.

(** A validated fence placement keeps the invariant, whether it succeeds or
    raises. *)
Lemma put_fence_preserves coord orient player q :
  inv q → inv (put_fence coord orient player true q).2.
Proof.
  intros Hq. unfold put_fence. unfold mbind at 1.
  destruct (resolve_cases player q) as [(i & p & -> & Hi)|(e & ->)]; [|done].
  unfold mbind at 1.
  destruct (put_fence_check_spec q coord orient i p Hq Hi)
    as [(e & ->)|(-> & Hn & g1 & Hset & Hg1 & Hgoal1)]; [done|].
  destruct Hq as [Hsq Hg Hcs Hcache Hboard Hgoal].
  unfold mbind at 1. unfold assign_grid. rewrite Hset.
  unfold mbind at 1. unfold update_pawn. simpl. rewrite Hi.
  unfold mbind, mret.
  match goal with |- inv (match next_pawn ?q1 with _ => _ end).2 =>
    assert (inv q1) as Hq1; [|pose proof (inv_next_pawn q1 Hq1);
                               by destruct (next_pawn q1) as [[k|e] q2]]
  end.
  constructor; simpl; try done.
  - intros x Hx. apply elem_of_insert_inv in Hx as [->|Hx]; [|by apply Hboard].
    simpl. apply (Hboard p). apply list_elem_of_lookup. eauto.
  - intros x Hx. apply elem_of_insert_inv in Hx as [->|Hx]; [|by apply Hgoal1].
    apply (Hgoal1 p). apply list_elem_of_lookup. eauto.
Qed.

(** *** The initial state *)

Lemma lookup2_replicate {A} a b (x y : A) p :
  lookup2 (replicate a (replicate b x)) p = Some y → y = x.
Proof.
  unfold lookup2. case_decide; [|done].
  destruct (replicate a (replicate b x) !! Z.to_nat p.1) as [row|] eqn:E;
    simpl; [|done].
  apply lookup_replicate in E as [-> _]. intros E'.
  by apply lookup_replicate in E' as [-> _].
Qed.

Lemma fence_replicate a b s : fence (replicate a (replicate b None)) s = None.
Proof.
  unfold fence.
  destruct (lookup2 (replicate a (replicate b None)) s) as [x|] eqn:E; [|done].
  by apply lookup2_replicate in E as ->.
Qed.

Lemma not_blocks_empty g p q : (∀ s, fence g s = None) → ¬ blocks g p q.
Proof.
  intros He (sc & sr & [(Hf & _)|(Hf & _)]); by rewrite He in Hf.
Qed.

(** Without fences, a cell is connected to every cell above it. *)
Lemma column_connected g w h c r (k : nat) :
  (∀ s, fence g s = None) →
  in_board w h (c, r) → in_board w h (c, r + Z.of_nat k) →
  connected g w h (c, r) (c, r + Z.of_nat k).
Proof.
  intros He Hlo. induction k as [|k IH]; intros Hhi.
  - rewrite Z.add_0_r. apply rtc_refl.
  - unfold in_board in *. simpl in *.
    eapply rtc_r; [apply IH; lia|].
    split; [unfold in_board; simpl; lia|].
    split; [unfold in_board; simpl; lia|].
    split; [|by apply not_blocks_empty].
    exists Nd. simpl. f_equal. lia.
Qed.

Lemma init_default (n : Z) :
  0 < n →
  ∃ q0, __init__ n n None None = Ok q0 ∧ inv q0 ∧
        width q0 = n ∧ height q0 = n ∧ finished q0 = false ∧
        pawns q0 = [new_pawn SOUTH (n ÷ 2, 0);
                    new_pawn NORTH ((n - 1) ÷ 2, n - 1)].
Proof.
  intros Hn. unfold __init__. simpl.
  set (cs0 := replicate (Z.to_nat n) (replicate (Z.to_nat n) (@None nat))).
  assert (rect (Z.to_nat n) (Z.to_nat n) cs0) as Hr0 by apply rect_replicate.
  assert (0 ≤ n ÷ 2 < n) as HS.
  { split; [apply Z.quot_pos; lia|apply Z.quot_lt; lia]. }
  assert (0 ≤ (n - 1) ÷ 2 < n) as HN.
  { split; [apply Z.quot_pos; lia|].
    destruct (decide (n = 1)) as [->|]; [done|].
    assert ((n - 1) ÷ 2 < n - 1) by (apply Z.quot_lt; lia). lia. }
  destruct (proj2 (rect_lookup2 _ _ _ (n ÷ 2, 0) Hr0)) as [v1 Hv1];
    [simpl; lia|].
  destruct (setitem2_lookup2 cs0 (n ÷ 2) 0 (Some 0%nat) v1 Hv1)
    as (cs1 & -> & _ & Hs1).
  simpl.
  assert (rect (Z.to_nat n) (Z.to_nat n) cs1) as Hr1
    by (unfold rect in *; congruence).
  destruct (proj2 (rect_lookup2 _ _ _ ((n - 1) ÷ 2, n - 1) Hr1)) as [v2 Hv2];
    [simpl; lia|].
  destruct (setitem2_lookup2 cs1 ((n - 1) ÷ 2) (n - 1) (Some 1%nat) v2 Hv2)
    as (cs2 & -> & _ & Hs2).
  simpl. eexists. split; [done|]. split; [|done].
  assert (∀ s, fence (replicate (Z.to_nat (n - 1))
                        (replicate (Z.to_nat (n - 1)) None)) s = None) as He
    by (intros s; apply fence_replicate).
  constructor; simpl; try done.
  - apply rect_replicate.
  - unfold rect in *. congruence.
  - intros p Hp. apply elem_of_cons in Hp as [->|Hp].
    { unfold in_board. simpl. lia. }
    apply list_elem_of_singleton in Hp as ->. unfold in_board. simpl. lia.
  - intros p Hp. apply elem_of_cons in Hp as [->|Hp].
    + exists (n ÷ 2, n - 1). split.
      * unfold on_edge, in_board. simpl. lia.
      * pose proof (column_connected _ n n (n ÷ 2) 0 (Z.to_nat (n - 1)) He)
          as Hc.
        replace (0 + Z.of_nat (Z.to_nat (n - 1))) with (n - 1) in Hc by lia.
        apply Hc; unfold in_board; simpl; lia.
    + apply list_elem_of_singleton in Hp as ->.
      exists ((n - 1) ÷ 2, 0). split.
      * unfold on_edge, in_board. simpl. lia.
      * apply connected_sym. simpl.
        pose proof (column_connected _ n n ((n - 1) ÷ 2) 0
                      (Z.to_nat (n - 1)) He) as Hc.
        replace (0 + Z.of_nat (Z.to_nat (n - 1))) with (n - 1) in Hc by lia.
        apply Hc; unfold in_board; simpl; lia.
Qed.

(** *** Validated play *)

Inductive action : Type :=
  | Move (dst : cell) (pawn : option nat)
  | PutFence (coord : cell) (orient : Orient) (player : option nat).

(** An action of validated play: [move] or [put_fence] with [check=True]. *)
Definition perform (a : action) : M unit :=
  match a with
  | Move dst pawn => move dst pawn true
  | PutFence coord orient player => put_fence coord orient player true
  end.

(** The states the game object goes through; a raising call counts, with
    the state it leaves behind. *)
Inductive reachable (q0 : Quoridor) : Quoridor → Prop :=
  | reachable_init : reachable q0 q0
  | reachable_step q a : reachable q0 q → reachable q0 (perform a q).2.

Lemma inv_reachable q0 q : inv q0 → reachable q0 q → inv q.
Proof.
  intros H0. induction 1 as [|q a _ IH]; [done|].
  destruct a; simpl; [by apply move_preserves|by apply put_fence_preserves].
Qed.


(** ** Boards that are not square *)











(** ** Fence counts: a Hoare rule for the method monad *)

(** [hoare J P m Q]: started in a state satisfying [P], the call [m] either
    returns [a] in a state satisfying [Q a], or raises and leaves a state
    satisfying [J]. *)
Definition hoare {A} (J P : Quoridor → Prop) (m : M A)
    (Q : A → Quoridor → Prop) : Prop :=
  ∀ q, P q →
    match m q with
    | (Ok a, q') => Q a q'
    | (Raise _, q') => J q'
    end.

Lemma hoare_bind {A B} J P (m : M A) Q (f : A → M B) R :
  hoare J P m Q → (∀ a, hoare J (Q a) (f a) R) → hoare J P (mbind m f) R.
Proof.
  intros Hm Hf q HP. unfold mbind. specialize (Hm q HP).
  destruct (m q) as [[a|e] q']; [by apply Hf|done].
Qed.

Lemma hoare_ret {A} J (P : Quoridor → Prop) (a : A) :
  hoare J P (mret a) (λ _, P).
Proof. by intros q HP. Qed.

Lemma hoare_raise {A} (J P : Quoridor → Prop) e (Q : A → Quoridor → Prop) :
  (∀ q, P q → J q) → hoare J P (raise e) Q.
Proof. intros HPJ q HP. by apply HPJ. Qed.

(** A call that never changes [self.pawns] keeps any property of it. *)
Lemma hoare_same_pawns {A} (F : list Pawn → Prop) (J : Quoridor → Prop)
    (m : M A) :
  (∀ q, pawns (m q).2 = pawns q) → (∀ q, F (pawns q) → J q) →
  hoare J (λ q, F (pawns q)) m (λ _ q, F (pawns q)).
Proof.
  intros Hm HJ q HP. specialize (Hm q).
  destruct (m q) as [[a|e] q']; simpl in *; [by rewrite Hm|].
  apply HJ. by rewrite Hm.
Qed.

Lemma assign_grid_pawns coord x q : pawns (assign_grid coord x q).2 = pawns q.
Proof. unfold assign_grid. by destruct (setitem2 _ _ _ _). Qed.

Lemma assign_cell_pawns p x q : pawns (assign_cell p x q).2 = pawns q.
Proof. unfold assign_cell. by destruct (setitem2 _ _ _ _). Qed.

Lemma next_pawn_pawns q : pawns (next_pawn q).2 = pawns q.
Proof. by destruct (next_pawn_state q) as [->|[k ->]]. Qed.

Lemma resolve_state pawn q : (resolve pawn q).2 = q.
Proof. by destruct (resolve_cases pawn q) as [(i & p & -> & _)|(e & ->)]. Qed.

Lemma pawn_at_state i q : (pawn_at i q).2 = q.
Proof. done. Qed.

Lemma pawn_at_Ok i q p q' :
  pawn_at i q = (Ok p, q') → q' = q ∧ pawns q !! i = Some p.
Proof.
  unfold pawn_at. rewrite getitem_nonneg, Nat2Z.id by lia.
  destruct (pawns q !! i); by intros [= <- <-].
Qed.

Lemma move_region_state pawn q : (move_region pawn q).2 = q.
Proof.
  unfold move_region, mbind. pose proof (resolve_state pawn q) as Hr.
  destruct (resolve pawn q) as [[i|e] q1]; simpl in Hr; subst; [|done].
  unfold pawn_at. destruct (getitem _ _); [|done].
  unfold get, lift. by destruct (move_region_rec _ _ _ _ _ _ _).
Qed.

(** [can_put_fence] never touches the pawns, whatever its outcome. *)
Lemma can_put_fence_pawns coord orient q :
  pawns (can_put_fence coord orient q).2 = pawns q.
Proof.
  unfold can_put_fence, mbind, get, mret, lift, modify. simpl.
  destruct (negb _); [done|].
  destruct (getitem2 (grid q) coord.1 coord.2) as [[o|]|e]; [done| |done].
  destruct (neighbour_clash q coord orient) as [[|]|e]; [done| |done].
  pose proof (assign_grid_pawns coord (Some orient) q) as Ha.
  destruct (assign_grid coord (Some orient) q) as [[[]|e] q1]; [|done].
  simpl in Ha. pose proof (any_blocking_state (pawns q1) q1) as Hb.
  apply (f_equal pawns) in Hb. simpl in Hb.
  destruct (any_blocking (pawns q1) q1) as [[b|e] q2]; simpl in *;
    [|congruence].
  rewrite <- Ha, <- Hb.
  pose proof (assign_grid_pawns coord None (set_cell_tags q2 None)) as Hd.
  by destruct (assign_grid coord None (set_cell_tags q2 None)) as [[[]|e] q3].
Qed.

(** No pawn has a negative fence count. *)
Definition fences_ok (ps : list Pawn) : Prop :=
  ∀ p, p ∈ ps → 0 ≤ num_fences p.

Lemma hoare_update_pawn (F : list Pawn → Prop) J i f :
  (∀ ps p, F ps → ps !! i = Some p → F (<[i := f p]> ps)) →
  (∀ q, F (pawns q) → J q) →
  hoare J (λ q, F (pawns q)) (update_pawn i f) (λ _ q, F (pawns q)).
Proof.
  intros Hf HJ q HP. unfold update_pawn.
  destruct (pawns q !! i) as [p|] eqn:E; simpl; [by apply Hf|by apply HJ].
Qed.

Lemma fences_ok_insert (ps : list Pawn) (i : nat) (p' : Pawn) :
  fences_ok ps → 0 ≤ num_fences p' → fences_ok (<[i := p']> ps).
Proof.
  intros Hps Hp' x Hx. apply elem_of_insert_inv in Hx as [->|Hx]; [done|].
  by apply Hps.
Qed.

(** The validated check of [put_fence] establishes that the placing pawn has
    a fence to spend. *)
Lemma hoare_put_fence_check coord orient i :
  hoare (λ q, fences_ok (pawns q)) (λ q, fences_ok (pawns q))
        (put_fence_check coord orient i)
        (λ _ q, fences_ok (pawns q) ∧
                ∃ p, pawns q !! i = Some p ∧ 0 < num_fences p).
Proof.
  intros q HP. unfold put_fence_check, mbind, pawn_at.
  rewrite getitem_nonneg, Nat2Z.id by lia.
  destruct (pawns q !! i) as [p|] eqn:Hi; simpl; [|done].
  destruct (decide (num_fences p ≤ 0)); [done|].
  pose proof (can_put_fence_pawns coord orient q) as Hc.
  destruct (can_put_fence coord orient q) as [[[|]|e] q1]; simpl in *;
    rewrite Hc; [|done..].
  split; [done|]. exists p. split; [done|lia].
Qed.

Lemma hoare_put_fence coord orient player :
  hoare (λ q, fences_ok (pawns q)) (λ q, fences_ok (pawns q))
        (put_fence coord orient player true)
        (λ _ q, fences_ok (pawns q)).
Proof.
  unfold put_fence.
  eapply hoare_bind;
    [apply (hoare_same_pawns fences_ok); [|done];
     intros q; by rewrite resolve_state|].
  intros i. eapply hoare_bind; [apply hoare_put_fence_check|]. intros ?.
  set (F := λ ps : list Pawn,
         fences_ok ps ∧ ∃ p, ps !! i = Some p ∧ 0 < num_fences p).
  eapply hoare_bind;
    [apply (hoare_same_pawns F); [apply assign_grid_pawns|by intros q []]|].
  intros ?. eapply hoare_bind with (Q := λ _ q, fences_ok (pawns q)).
  { intros q [Hok (p & Hp & Hpos)]. unfold update_pawn. rewrite Hp. simpl.
    apply fences_ok_insert; [done|simpl; lia]. }
  intros ?. eapply hoare_bind;
    [apply (hoare_same_pawns fences_ok); [apply next_pawn_pawns|done]|].
  intros ?. apply hoare_ret.
Qed.

Lemma hoare_move dst pawn check :
  hoare (λ q, fences_ok (pawns q)) (λ q, fences_ok (pawns q))
        (move dst pawn check)
        (λ _ q, fences_ok (pawns q)).
Proof.
  assert (∀ i (f : Pawn → Pawn), (∀ p, num_fences (f p) = num_fences p) →
    hoare (λ q, fences_ok (pawns q)) (λ q, fences_ok (pawns q))
          (update_pawn i f) (λ _ q, fences_ok (pawns q))) as Hupd.
  { intros i f Hf. apply (hoare_update_pawn fences_ok); [|done].
    intros ps p Hps Hp. apply fences_ok_insert; [done|]. rewrite Hf.
    apply Hps. apply list_elem_of_lookup. eauto. }
  unfold move.
  eapply hoare_bind;
    [apply (hoare_same_pawns fences_ok); [|done];
     intros q; by rewrite resolve_state|].
  intros i. eapply hoare_bind with (Q := λ _ q, fences_ok (pawns q)).
  { destruct check; [|apply hoare_ret]. unfold move_check.
    eapply hoare_bind;
      [apply (hoare_same_pawns fences_ok); [|done];
       intros q; by rewrite move_region_state|].
    intros region. destruct (decide (dst ∈ region));
      [apply hoare_ret|by apply hoare_raise]. }
  intros ?. eapply hoare_bind;
    [apply (hoare_same_pawns fences_ok); [done|done]|].
  intros p. eapply hoare_bind;
    [apply (hoare_same_pawns fences_ok); [apply assign_cell_pawns|done]|].
  intros ?. eapply hoare_bind; [by apply Hupd|].
  intros ?. eapply hoare_bind;
    [apply (hoare_same_pawns fences_ok); [apply assign_cell_pawns|done]|].
  intros ?. eapply hoare_bind;
    [apply (hoare_same_pawns fences_ok (λ q, fences_ok (pawns q)) get);
     [done|done]|].
  intros q'. destruct (wins q' (side p) dst).
  - eapply hoare_bind; [by apply Hupd|]. intros ?.
    apply (hoare_same_pawns fences_ok); done.
  - eapply hoare_bind;
      [apply (hoare_same_pawns fences_ok); [apply next_pawn_pawns|done]|].
    intros ?. apply hoare_ret.
Qed.

(** Validated play never makes a fence count negative, on any board. *)
Lemma fences_ok_reachable q0 q :
  fences_ok (pawns q0) → reachable q0 q → fences_ok (pawns q).
Proof.
  intros H0. induction 1 as [|q a _ IH]; [done|].
  destruct a as [dst pawn|coord orient player]; simpl.
  - pose proof (hoare_move dst pawn true q IH) as Hm.
    by destruct (move dst pawn true q) as [[[]|e] q'].
  - pose proof (hoare_put_fence coord orient player q IH) as Hm.
    by destruct (put_fence coord orient player true q) as [[[]|e] q'].
Qed.

(** [pawn.num_fences -= 1] *)
Definition spend (p : Pawn) : Pawn :=
  {| num_fences := num_fences p - 1; side := side p; pos := pos p;
     win := win p |}.

Lemma next_pawn_returns q k q' :
  next_pawn q = (Ok k, q') → q' = set_curr q k.
Proof.
  unfold next_pawn. destruct (length (pawns q)) eqn:E; [done|].
  unfold curr_pawn. simpl. destruct (getitem _ _); simpl; [|done].
  by intros [= <- <-].
Qed.

(** What a validated [put_fence] that returns has done. *)
Lemma put_fence_returns coord orient player q q' :
  put_fence coord orient player true q = (Ok tt, q') →
  ∃ i p g1 k,
    resolve player q = (Ok i, q) ∧ pawns q !! i = Some p ∧
    0 < num_fences p ∧
    can_put_fence coord orient q = (Ok true, set_cell_tags q None) ∧
    setitem2 (grid q) coord.1 coord.2 (Some orient) = Ok g1 ∧
    q' = set_curr (set_pawns (set_grid (set_cell_tags q None) g1)
                             (<[i := spend p]> (pawns q))) k.
Proof.
  intros H. unfold put_fence in H. unfold mbind at 1 in H.
  destruct (resolve_cases player q) as [(i & p & Hr & Hi)|(e & Hr)];
    rewrite Hr in H; [|done].
  unfold mbind at 1 in H.
  destruct (put_fence_check coord orient i q) as [[[]|e] q1] eqn:Hc; [|done].
  unfold put_fence_check, mbind in Hc. rewrite (pawn_at_lookup i q p Hi) in Hc.
  destruct (decide (num_fences p ≤ 0)) as [|Hpos]; [done|].
  destruct (can_put_fence coord orient q) as [[[|]|e] q2] eqn:Hcan;
    [|done..].
  injection Hc as <-.
  apply can_put_fence_returns in Hcan as Hq2.
  destruct Hq2 as [[? _]|(-> & _)]; [done|].
  unfold mbind at 1 in H. unfold assign_grid in H. simpl in H.
  destruct (setitem2 (grid q) coord.1 coord.2 (Some orient)) as [g1|e] eqn:Hg;
    [|done].
  unfold mbind at 1 in H. unfold update_pawn in H. simpl in H.
  rewrite Hi in H. unfold mbind, mret in H.
  match type of H with (match next_pawn ?q1 with _ => _ end) = _ =>
    destruct (next_pawn q1) as [[k|e] q3] eqn:Hn; [|done]
  end.
  apply next_pawn_returns in Hn as ->. injection H as <-.
  exists i, p, g1, k. repeat split; try done. lia.
Qed.

Lemma init_fences_ok h w dp q0 :
  __init__ h w None dp = Ok q0 → fences_ok (pawns q0).
Proof.
  unfold __init__. simpl.
  destruct (setitem2 _ _ _ _) as [s1|]; simpl; [|done].
  destruct (setitem2 _ _ _ _) as [s2|]; simpl; [|done].
  intros [= <-] p. simpl. intros Hp.
  apply elem_of_cons in Hp as [->|Hp]; [done|].
  apply elem_of_cons in Hp as [->|Hp]; [done|]. by apply elem_of_nil in Hp.
Qed.

(** ** Pawns and the occupancy grid *)

(** [self.cells] records the pawns: a cell of the board holds a pawn number
    exactly when some pawn of [self.pawns] stands on it. *)
Definition cells_track (q : Quoridor) : Prop :=
  ∀ x, in_board (width q) (height q) x →
    (occupied (cells q) x ↔ ∃ p, p ∈ pawns q ∧ pos p = x).

Lemma move_region_resolved pawn i q :
  resolve pawn q = (Ok i, q) → move_region pawn q = move_region (Some i) q.
Proof.
  intros Hr. unfold move_region, mbind. rewrite Hr.
  destruct (resolve_cases pawn q) as [(i' & p & Hr' & Hi)|(e & Hr')];
    rewrite Hr' in Hr; [|done].
  injection Hr as ->. by rewrite (resolve_some i q p Hi).
Qed.

Lemma vacant_not_occupied (cs : list (list (option nat))) x :
  vacant cs x → ¬ occupied cs x.
Proof. unfold vacant, occupied. intros -> [i [=]]. Qed.

Lemma not_occupied_vacant (cs : list (list (option nat))) w h x :
  rect (Z.to_nat w) (Z.to_nat h) cs → in_board w h x →
  ¬ occupied cs x → vacant cs x.
Proof.
  intros Hcs [Hx1 Hx2] Hn. unfold vacant.
  destruct (proj2 (rect_lookup2 _ _ _ x Hcs)) as [[i|] Hv]; [lia| |done].
  destruct Hn. by exists i.
Qed.

(** The occupancy grid and the pawn list name each other: the cell of pawn
    number [i] holds [i], and a cell holding [i] is the cell of pawn [i]. *)
Definition tracks (cs : list (list (option nat))) (ps : list Pawn) : Prop :=
  (∀ i p, ps !! i = Some p → lookup2 cs (pos p) = Some (Some i)) ∧
  (∀ x i, lookup2 cs x = Some (Some i) → ∃ p, ps !! i = Some p ∧ pos p = x).

Lemma tracks_cells_track q : tracks (cells q) (pawns q) → cells_track q.
Proof.
  intros [T1 T2] x _. split.
  - intros [i Hi]. destruct (T2 x i Hi) as (p & Hp & <-).
    exists p. split; [|done]. apply list_elem_of_lookup. eauto.
  - intros (p & Hp & <-). apply list_elem_of_lookup in Hp as [i Hi].
    exists i. by apply T1.
Qed.

(** An assignment to a pawn that keeps its position keeps the two in step. *)
Lemma tracks_same_pos cs ps i p p' :
  tracks cs ps → ps !! i = Some p → pos p' = pos p →
  tracks cs (<[i := p']> ps).
Proof.
  intros [T1 T2] Hi Hpos. split.
  - intros j x Hj.
    apply list_lookup_insert_Some in Hj as [(-> & -> & _)|[Hne Hj]].
    + rewrite Hpos. by apply T1.
    + by apply T1.
  - intros x j Hx. destruct (T2 x j Hx) as (pj & Hj & <-).
    destruct (decide (i = j)) as [->|Hne].
    + exists p'. rewrite list_lookup_insert_eq by by eapply lookup_lt_Some.
      split; [done|]. congruence.
    + exists pj. by rewrite list_lookup_insert_ne.
Qed.

(** The three assignments of [move]: the old cell is cleared, the pawn takes
    the new position, the new cell takes the pawn. *)
Lemma tracks_move cs ps i p dst cs1 cs2 p' :
  tracks cs ps → ps !! i = Some p → vacant cs dst →
  setitem2 cs (pos p).1 (pos p).2 None = Ok cs1 →
  setitem2 cs1 dst.1 dst.2 (Some i) = Ok cs2 →
  pos p' = dst →
  tracks cs2 (<[i := p']> ps).
Proof.
  intros [T1 T2] Hi Hvac Hset1 Hset2 Hpos. unfold vacant in Hvac.
  pose proof (T1 i p Hi) as Hold.
  assert (dst ≠ pos p) as Hne by (intros ->; congruence).
  assert (pos p = ((pos p).1, (pos p).2)) as Ep by by destruct (pos p).
  assert (dst = (dst.1, dst.2)) as Ed by by destruct dst.
  rewrite Ep in Hold.
  destruct (setitem2_lookup2 _ _ _ None _ Hold) as (cs1' & Hs1 & Hl1 & _).
  rewrite Hset1 in Hs1. injection Hs1 as <-. rewrite <- Ep in Hl1.
  assert (lookup2 cs1 (dst.1, dst.2) = Some None) as Hd1.
  { rewrite <- Ed, Hl1. by rewrite decide_False. }
  destruct (setitem2_lookup2 _ _ _ (Some i) _ Hd1) as (cs2' & Hs2 & Hl2 & _).
  rewrite Hset2 in Hs2. injection Hs2 as <-. rewrite <- Ed in Hl2.
  split.
  - intros j x Hj. rewrite Hl2, Hl1.
    apply list_lookup_insert_Some in Hj as [(-> & -> & _)|[Hij Hj]].
    + by rewrite Hpos, decide_True.
    + pose proof (T1 j x Hj) as Hx.
      rewrite decide_False by (intros E; rewrite E in Hx; congruence).
      rewrite decide_False by (intros E; rewrite E in Hx; congruence).
      done.
  - intros x j. rewrite Hl2, Hl1.
    destruct (decide (x = dst)) as [->|Hxd].
    { intros [= <-]. exists p'.
      by rewrite list_lookup_insert_eq by by eapply lookup_lt_Some. }
    destruct (decide (x = pos p)) as [->|Hxp]; [done|].
    intros Hx. destruct (T2 x j Hx) as (pj & Hj & <-).
    exists pj. split; [|done]. rewrite list_lookup_insert_ne; [done|].
    intros <-. congruence.
Qed.

(** What a validated [move] does to the pawn list and the occupancy grid. *)
Lemma move_effect dst pawn q r q' :
  inv q → move dst pawn true q = (r, q') →
  (cells q' = cells q ∧ pawns q' = pawns q) ∨
  ∃ i p cs1 b,
    pawns q !! i = Some p ∧ vacant (cells q) dst ∧
    setitem2 (cells q) (pos p).1 (pos p).2 None = Ok cs1 ∧
    setitem2 cs1 dst.1 dst.2 (Some i) = Ok (cells q') ∧
    pawns q' = <[i := mkPawn (num_fences p) (side p) dst b]> (pawns q).
Proof.
  intros Hq Hrun. pose proof Hq as [Hsq Hg Hcs Hcache Hboard Hgoal].
  unfold move in Hrun. unfold mbind at 1 in Hrun.
  destruct (resolve_cases pawn q) as [(i & p & Hr & Hi)|(e & Hr)];
    rewrite Hr in Hrun; [|injection Hrun as <- <-; left; by split].
  assert (p ∈ pawns q) as Hp by (apply list_elem_of_lookup; eauto).
  unfold mbind at 1 in Hrun. unfold move_check, mbind at 1 in Hrun.
  destruct (move_region_spec q i p Hcs Hg Hi (Hboard p Hp))
    as (region & visited & Hreg & (_ & _ & Hregion & _) & _).
  rewrite Hreg in Hrun.
  destruct (decide (dst ∈ region)) as [Hdst|Hdst];
    [|injection Hrun as <- <-; left; by split].
  destruct (Hregion dst Hdst ltac:(set_solver)) as [Hvac _].
  simpl in Hvac. pose proof Hvac as Hvac'. unfold vacant in Hvac.
  unfold mret in Hrun. unfold mbind at 1 in Hrun.
  rewrite (pawn_at_lookup i q p Hi) in Hrun.
  destruct (proj2 (rect_lookup2 _ _ _ (pos p) Hcs)) as [v Hv];
    [destruct (Hboard p Hp); lia|].
  destruct (setitem2_lookup2 (cells q) (pos p).1 (pos p).2 None v)
    as (cs1 & Hset1 & Hlook1 & Hshape1); [by destruct (pos p)|].
  unfold mbind at 1 in Hrun. unfold assign_cell at 1 in Hrun.
  rewrite Hset1 in Hrun.
  unfold mbind at 1 in Hrun. unfold update_pawn at 1 in Hrun.
  simpl in Hrun. rewrite Hi in Hrun.
  assert (is_Some (lookup2 cs1 dst)) as [v' Hv'].
  { rewrite Hlook1. case_decide; [done|]. by rewrite Hvac. }
  destruct (setitem2_lookup2 cs1 dst.1 dst.2 (Some i) v')
    as (cs2 & Hset2 & _ & Hshape2); [by destruct dst|].
  unfold mbind at 1 in Hrun. unfold assign_cell at 1 in Hrun.
  simpl in Hrun. rewrite Hset2 in Hrun.
  unfold mbind at 1 in Hrun. unfold get in Hrun. simpl in Hrun.
  set (p' := {| num_fences := num_fences p; side := side p; pos := dst;
                win := win p |}) in Hrun.
  set (q3 := set_cells (set_pawns (set_cells q cs1) (<[i:=p']> (pawns q))) cs2)
    in Hrun.
  assert (pawns q3 !! i = Some p') as Hi3.
  { simpl. apply list_lookup_insert_eq. by eapply lookup_lt_Some. }
  assert (cells q3 = cs2) as Hc3 by done.
  assert (pawns q3 = <[i:=p']> (pawns q)) as Hp3 by done.
  right. exists i, p, cs1.
  clearbody q3. destruct (wins q3 (side p) dst).
  - unfold mbind, update_pawn in Hrun. rewrite Hi3 in Hrun.
    unfold modify in Hrun. injection Hrun as <- <-. simpl.
    exists true. rewrite Hc3, Hp3, list_insert_insert_eq. by split_and!.
  - unfold mbind in Hrun. pose proof (next_pawn_state q3) as Hn.
    exists (win p).
    destruct (next_pawn q3) as [[k|e] q4]; injection Hrun as <- <-;
      simpl in Hn; destruct Hn as [->|[k' ->]]; simpl; rewrite Hc3, Hp3;
      by split_and!.
Qed.

(** What a validated [put_fence] does to them. *)
Lemma put_fence_effect coord orient player q r q' :
  inv q → put_fence coord orient player true q = (r, q') →
  cells q' = cells q ∧
  (pawns q' = pawns q ∨
   ∃ i p, pawns q !! i = Some p ∧ pawns q' = <[i := spend p]> (pawns q)).
Proof.
  intros Hq Hrun. unfold put_fence in Hrun. unfold mbind at 1 in Hrun.
  destruct (resolve_cases player q) as [(i & p & Hr & Hi)|(e & Hr)];
    rewrite Hr in Hrun; [|injection Hrun as <- <-; split; [done|by left]].
  unfold mbind at 1 in Hrun.
  destruct (put_fence_check_spec q coord orient i p Hq Hi)
    as [(e & Hc)|(Hc & _ & g1 & Hset & _)]; rewrite Hc in Hrun;
    [injection Hrun as <- <-; split; [done|by left]|].
  unfold mbind at 1 in Hrun. unfold assign_grid in Hrun.
  rewrite Hset in Hrun.
  unfold mbind at 1 in Hrun. unfold update_pawn in Hrun. simpl in Hrun.
  rewrite Hi in Hrun. unfold mbind, mret in Hrun.
  match type of Hrun with context [next_pawn ?q1] =>
    pose proof (next_pawn_state q1) as Hn;
    destruct (next_pawn q1) as [[k|e] q2]
  end; injection Hrun as <- <-; simpl in Hn; destruct Hn as [->|[k' ->]];
    simpl; (split; [done|right; by exists i, p]).
Qed.

Lemma tracks_perform a q :
  inv q → tracks (cells q) (pawns q) →
  tracks (cells (perform a q).2) (pawns (perform a q).2).
Proof.
  intros Hq Ht. destruct a as [dst pawn|coord orient player]; simpl.
  - destruct (move dst pawn true q) as [r q'] eqn:Hrun. simpl.
    destruct (move_effect dst pawn q r q' Hq Hrun)
      as [[-> ->]|(i & p & cs1 & b & Hi & Hvac & Hs1 & Hs2 & ->)]; [done|].
    by eapply tracks_move.
  - destruct (put_fence coord orient player true q) as [r q'] eqn:Hrun. simpl.
    destruct (put_fence_effect coord orient player q r q' Hq Hrun)
      as [-> [->|(i & p & Hi & ->)]]; [done|].
    by eapply tracks_same_pos.
Qed.

(** On a board of at least 2 by 2 cells the two default pawns start on
    different cells, each recorded in the occupancy grid. *)
Lemma init_tracks n q0 :
  1 < n → __init__ n n None None = Ok q0 → tracks (cells q0) (pawns q0).
Proof.
  intros Hn. unfold __init__. simpl.
  set (cs0 := replicate (Z.to_nat n) (replicate (Z.to_nat n) (@None nat))).
  assert (rect (Z.to_nat n) (Z.to_nat n) cs0) as Hr0 by apply rect_replicate.
  assert (0 ≤ n ÷ 2 < n) as HS.
  { split; [apply Z.quot_pos; lia|apply Z.quot_lt; lia]. }
  assert (0 ≤ (n - 1) ÷ 2 < n) as HN.
  { split; [apply Z.quot_pos; lia|].
    assert ((n - 1) ÷ 2 < n - 1) by (apply Z.quot_lt; lia). lia. }
  destruct (proj2 (rect_lookup2 _ _ _ (n ÷ 2, 0) Hr0)) as [v1 Hv1];
    [simpl; lia|].
  destruct (setitem2_lookup2 cs0 (n ÷ 2) 0 (Some 0%nat) v1 Hv1)
    as (cs1 & -> & Hl1 & Hs1).
  simpl.
  assert (rect (Z.to_nat n) (Z.to_nat n) cs1) as Hr1
    by (unfold rect in *; congruence).
  destruct (proj2 (rect_lookup2 _ _ _ ((n - 1) ÷ 2, n - 1) Hr1)) as [v2 Hv2];
    [simpl; lia|].
  destruct (setitem2_lookup2 cs1 ((n - 1) ÷ 2) (n - 1) (Some 1%nat) v2 Hv2)
    as (cs2 & -> & Hl2 & Hs2).
  simpl. intros [= <-]. simpl. split.
  - intros i p Hi. rewrite Hl2, Hl1.
    destruct i as [|[|i]]; simpl in Hi; [| |done]; injection Hi as <-; simpl.
    + rewrite decide_False by (intros [=]; lia). by rewrite decide_True.
    + by rewrite decide_True.
  - intros x i. rewrite Hl2, Hl1.
    destruct (decide (x = ((n - 1) ÷ 2, n - 1))) as [->|_].
    { intros [= <-]. by eexists. }
    destruct (decide (x = (n ÷ 2, 0))) as [->|_].
    { intros [= <-]. by eexists. }
    intros Hx. by apply lookup2_replicate in Hx.
Qed.

(** In every state that validated play goes through from the default start
    of a board of at least 2 by 2 cells, the board is as [move_region] needs
    it: the grids have their shapes, the pawns are on the board, and the
    occupancy grid records them. *)
Lemma play_tracks n q0 q :
  1 < n → __init__ n n None None = Ok q0 → reachable q0 q →
  rect (Z.to_nat (width q)) (Z.to_nat (height q)) (cells q) ∧
  wf_grid (width q) (height q) (grid q) ∧
  cells_track q ∧
  (∀ x, x ∈ pawns q → in_board (width q) (height q) (pos x)).
Proof.
  intros Hn Hinit Hreach.
  destruct (init_default n) as (q0' & Hinit' & Hinv0 & _); [lia|].
  rewrite Hinit in Hinit'. injection Hinit' as <-.
  pose proof (init_tracks n q0 Hn Hinit) as Ht0.
  assert (inv q ∧ tracks (cells q) (pawns q)) as [Hq Ht].
  { induction Hreach as [|q a Hreach [IHq IHt]]; [done|]. split.
    - destruct a; simpl;
        [by apply move_preserves|by apply put_fence_preserves].
    - by apply tracks_perform. }
  destruct Hq as [_ Hg Hcs _ Hboard _].
  split; [done|]. split; [done|]. split; [|done].
  by apply tracks_cells_track.
Qed.

(** * The claims *)

(** The default game: a 9 by 9 board, South at (4, 0), North at (4, 8). *)
Definition start9 : Quoridor :=
  Eval vm_compute in
    match __init__ 9 9 None None with
    | Ok q => q
    | Raise _ => mkQuoridor 0 0 [] 0 [] None [] false
    end.

Example start9_init : __init__ 9 9 None None = Ok start9.
Proof. reflexivity. Qed.





(** A board that is not square: [Quoridor(height=2, width=3)]. *)
Definition start23 : Quoridor :=
  Eval vm_compute in
    match __init__ 2 3 None None with
    | Ok q => q
    | Raise _ => mkQuoridor 0 0 [] 0 [] None [] false
    end.

Example start23_init : __init__ 2 3 None None = Ok start23.
Proof. reflexivity. Qed.



(** What the failed check leaves behind on the 3 by 2 board: the candidate
    fence stays in the grid, and a second call answers differently. *)
Example start23_fence_left_behind :
  grid (can_put_fence (0, 0) HORZ start23).2 = [[Some HORZ]; [None]] ∧
  (can_put_fence (0, 0) HORZ (can_put_fence (0, 0) HORZ start23).2).1
    = Ok false.
Proof. split; reflexivity. Qed.

(** C7: on a well-formed grid [can_put_fence] answers [False], changing
    nothing, whenever the slot already holds a fence, or the orientation is
    [HORZ] and the slot to the left or right holds a [HORZ] fence, or the
    orientation is [VERT] and the slot above or below holds a [VERT] fence;
    and on the default board, once a [HORZ] fence stands at slot (3, 3), a
    [HORZ] fence at slot (4, 3) is refused. *)
Theorem C7_overlap_rejected :
  (∀ (q : Quoridor) (coord : cell) (orient : Orient),
     wf_grid (width q) (height q) (grid q) →
     is_Some (fence (grid q) coord) ∨ clashes (grid q) coord orient →
     can_put_fence coord orient q = (Ok false, q)) ∧
  (let q1 := put_fence (3, 3) HORZ None true start9 in
   q1.1 = Ok tt ∧
   fence (grid q1.2) (3, 3) = Some HORZ ∧
   (can_put_fence (4, 3) HORZ q1.2).1 = Ok false ∧
   (put_fence (4, 3) HORZ None true q1.2).1 =
     Raise (ValueError "Illegal position and orientation to put fence")).
Proof.
  split; [|by vm_compute].
  intros q coord orient Hg Hbad.
  unfold can_put_fence, mbind, get, mret, lift. simpl.
  case_bool_decide as Hrange; simpl; [|done].
  destruct Hrange as [H1 H2]. rewrite getitem2_lookup2 by lia.
  replace (coord.1, coord.2) with coord by by destruct coord.
  rewrite (fence_on_grid _ _ _ coord Hg) by done.
  destruct (fence (grid q) coord) as [o|] eqn:Ef; simpl; [done|].
  destruct Hbad as [[o Ho]|Hclash]; [done|].
  destruct (neighbour_clash_spec q coord orient Hg H1 H2) as (cl & -> & Hcl).
  simpl. by rewrite (proj2 Hcl Hclash).
Qed.

Lemma C7_overlap_rejected_witness :
  can_put_fence (4, 3) HORZ (put_fence (3, 3) HORZ None true start9).2 =
    (Ok false, (put_fence (3, 3) HORZ None true start9).2).
Proof.
  apply (proj1 C7_overlap_rejected).
  - vm_compute. reflexivity.
  - right. vm_compute. left. reflexivity.
Defined.

(** C8: a validated fence placement that succeeds replaces the placing pawn
    by the same pawn with one fence less and touches no other pawn; with no
    fence left [put_fence] raises "Not enough fences to put" and changes
    nothing; and in every state that validated play goes through from a
    state with non-negative counts (the default game starts at 10), no fence
    count is negative. *)
Theorem C8_fence_count_decrement (q0 q : Quoridor) coord orient player :
  fences_ok (pawns q0) → reachable q0 q →
  (∀ q', put_fence coord orient player true q = (Ok tt, q') →
     ∃ i p, (resolve player q).1 = Ok i ∧ pawns q !! i = Some p ∧
            0 < num_fences p ∧
            pawns q' = <[i := spend p]> (pawns q) ∧
            num_fences (spend p) = num_fences p - 1) ∧
  (∀ i p, (resolve player q).1 = Ok i → pawns q !! i = Some p →
          num_fences p ≤ 0 →
          put_fence coord orient player true q =
            (Raise (ValueError "Not enough fences to put"), q)) ∧
  fences_ok (pawns q).
Proof.
  intros H0 Hreach. split; [|split].
  - intros q' H. apply put_fence_returns in H
      as (i & p & g1 & k & Hr & Hi & Hpos & _ & _ & ->).
    exists i, p. rewrite Hr. by repeat split.
  - intros i p Hr Hi Hle. unfold put_fence. unfold mbind at 1.
    destruct (resolve_cases player q) as [(i' & p' & Hr' & _)|(e & Hr')];
      rewrite Hr' in Hr |- *; simpl in Hr; [|done].
    injection Hr as ->. unfold mbind at 1. unfold put_fence_check, mbind.
    rewrite (pawn_at_lookup _ _ _ Hi). by rewrite decide_True.
  - by eapply fences_ok_reachable.
Qed.

Lemma C8_fence_count_decrement_witness :
  fences_ok (pawns start9) ∧
  (put_fence (3, 3) HORZ None true start9).1 = Ok tt ∧
  (num_fences <$> pawns (put_fence (3, 3) HORZ None true start9).2)
    = [9; 10] ∧
  fences_ok (pawns (put_fence (3, 3) HORZ None true start9).2).
Proof.
  assert (fences_ok (pawns start9)) as H0
    by (apply (init_fences_ok 9 9 None); reflexivity).
  split; [done|]. split; [by vm_compute|]. split; [by vm_compute|].
  apply (C8_fence_count_decrement start9 _ (0, 0) HORZ None H0).
  apply (reachable_step start9 start9 (PutFence (3, 3) HORZ None)).
  apply reachable_init.
Defined.

(** C6: on a board whose occupancy grid records the pawns, [move_region]
    returns, changes nothing, and its region holds only cells of the board on
    which no pawn stands, so in particular neither an opposing pawn's cell
    nor the moving pawn's own; and when another pawn stands on the neighbour
    of the moving pawn in direction [d], no fence blocks the edge between
    them nor the edge from that pawn to its own neighbour in direction [d],
    and no pawn stands on that cell beyond, the cell beyond is in the
    region. *)
Theorem C6_move_region_jump (q : Quoridor) pawn i p :
  rect (Z.to_nat (width q)) (Z.to_nat (height q)) (cells q) →
  wf_grid (width q) (height q) (grid q) →
  cells_track q →
  (∀ x, x ∈ pawns q → in_board (width q) (height q) (pos x)) →
  resolve pawn q = (Ok i, q) → pawns q !! i = Some p →
  ∃ region,
    move_region pawn q = (Ok region, q) ∧
    (∀ x, x ∈ region →
       in_board (width q) (height q) x ∧ ∀ o, o ∈ pawns q → pos o ≠ x) ∧
    (∀ o, o ∈ pawns q → pos o ∉ region) ∧
    (∀ o d, o ∈ pawns q → pos o = neighbour d (pos p) →
       linked (grid q) (width q) (height q) (pos p) (pos o) →
       linked (grid q) (width q) (height q) (pos o) (neighbour d (pos o)) →
       (∀ x, x ∈ pawns q → pos x ≠ neighbour d (pos o)) →
       neighbour d (pos o) ∈ region).
Proof.
  intros Hcs Hg Htrack Hboard Hr Hi.
  assert (p ∈ pawns q) as Hp by (apply list_elem_of_lookup; eauto).
  destruct (move_region_spec q i p Hcs Hg Hi (Hboard p Hp))
    as (region & visited & Hrun & (_ & _ & Hreg & Hvis) & Hstart).
  simpl in Hreg, Hvis.
  assert (∀ x, x ∈ region → vacant (cells q) x) as Hvac
    by (intros x Hx; by apply Hreg).
  assert (∀ x, x ∈ visited → occupied (cells q) x) as Hocc
    by (intros x Hx; by apply Hvis).
  assert (∀ o, o ∈ pawns q → occupied (cells q) (pos o)) as Hpawn.
  { intros o Ho. apply Htrack; [by apply Hboard|]. by exists o. }
  assert (∀ o, o ∈ pawns q → pos o ∉ region) as Hnot.
  { intros o Ho Hin. by apply (vacant_not_occupied _ _ (Hvac _ Hin)), Hpawn. }
  assert (∀ o, o ∈ pawns q → pos o ∈ region ∪ visited → pos o ∈ visited)
    as Hin_vis.
  { intros o Ho Hin. apply elem_of_union in Hin as [Hin|Hin]; [|done].
    by destruct (Hnot o Ho). }
  exists region. rewrite (move_region_resolved pawn i q Hr).
  split; [done|]. split; [|split; [done|]].
  - intros x Hx. assert (in_board (width q) (height q) x) as Hxb.
    { apply (rect_lookup2 _ _ (cells q) x) in Hcs as Hl.
      pose proof (Hvac x Hx) as Hv. unfold vacant in Hv.
      destruct Hl as [Hl _]. rewrite Hv in Hl.
      destruct Hl as [Hl1 Hl2]; [done|]. split; lia. }
    split; [done|]. intros o Ho Heq.
    apply (vacant_not_occupied _ _ (Hvac x Hx)). rewrite <- Heq.
    by apply Hpawn.
  - intros o d Ho Hadj Hl1 Hl2 Hfree.
    pose proof (Hin_vis p Hp Hstart) as Hpv.
    destruct (Hvis (pos p) Hpv) as (_ & _ & _ & Hclosed); [set_solver|].
    pose proof (Hin_vis o Ho (Hclosed _ Hl1)) as Hov.
    destruct (Hvis (pos o) Hov) as (_ & _ & _ & Hclosed'); [set_solver|].
    pose proof (Hclosed' _ Hl2) as Hbeyond.
    apply elem_of_union in Hbeyond as [Hb|Hb]; [done|].
    destruct Hl2 as (_ & Hbb & _).
    apply Hocc, (Htrack _ Hbb) in Hb as (x & Hx & Heq).
    by destruct (Hfree x Hx).
Qed.

(** A 3 by 3 game after South's first step: South stands on (1, 1), right
    below North on (1, 2), and it is North's turn. *)
Definition start3 : Quoridor :=
  Eval vm_compute in
    match __init__ 3 3 None None with
    | Ok q => q
    | Raise _ => mkQuoridor 0 0 [] 0 [] None [] false
    end.

Definition face3 : Quoridor :=
  Eval vm_compute in (move (1, 1) None true start3).2.

Example face3_run :
  __init__ 3 3 None None = Ok start3 ∧
  move (1, 1) None true start3 = (Ok tt, face3).
Proof. split; reflexivity. Qed.

Lemma face3_track : cells_track face3.
Proof.
  apply (play_tracks 3 start3); [lia|reflexivity|].
  apply (reachable_step start3 start3 (Move (1, 1) None)), reachable_init.
Qed.

Lemma C6_move_region_jump_witness :
  ∃ region,
    move_region None face3 = (Ok region, face3) ∧
    (1, 0) ∈ region ∧ ((1, 1) ∉ region) ∧ ((1, 2) ∉ region).
Proof.
  assert (∀ p q, ¬ blocks (grid face3) p q) as Hfree.
  { intros p q. apply not_blocks_empty. intros s.
    apply (fence_replicate 2 2). }
  destruct (C6_move_region_jump face3 None 1
              (mkPawn 10 NORTH (1, 2) false))
    as (region & Hrun & _ & Hnot & Hjump).
  - reflexivity.
  - reflexivity.
  - exact face3_track.
  - intros x Hx. simpl in Hx.
    apply elem_of_cons in Hx as [->|Hx]; [by vm_compute|].
    apply elem_of_cons in Hx as [->|Hx]; [by vm_compute|].
    by apply elem_of_nil in Hx.
  - reflexivity.
  - reflexivity.
  - exists region. split; [exact Hrun|]. split; [|split].
    + apply (Hjump (mkPawn 10 SOUTH (1, 1) false) Sd).
      * simpl. set_solver.
      * reflexivity.
      * split; [by vm_compute|]. split; [by vm_compute|].
        split; [by exists Sd|apply Hfree].
      * split; [by vm_compute|]. split; [by vm_compute|].
        split; [by exists Sd|apply Hfree].
      * intros x Hx. simpl in Hx.
        apply elem_of_cons in Hx as [->|Hx]; [done|].
        apply elem_of_cons in Hx as [->|Hx]; [done|].
        by apply elem_of_nil in Hx.
    + apply (Hnot (mkPawn 10 SOUTH (1, 1) false)). simpl. set_solver.
    + apply (Hnot (mkPawn 10 NORTH (1, 2) false)). simpl. set_solver.
Defined.

(** The default position as the specification words it: the midpoint of the
    side's own edge, the higher index on a tie. *)
Definition midpoint_high (w h : Z) (sd : Compass) : cell :=
  match sd with
  | NORTH => (w / 2, h - 1)
  | SOUTH => (w / 2, 0)
  | WEST => (0, h / 2)
  | EAST => (w - 1, h / 2)
  end.

(** The number of cells of a side's edge, and the index of a cell along it. *)
Definition edge_len (w h : Z) (sd : Compass) : Z :=
  match sd with NORTH | SOUTH => w | WEST | EAST => h end.

Definition along (sd : Compass) (p : cell) : Z :=
  match sd with NORTH | SOUTH => p.1 | WEST | EAST => p.2 end.

(** On a 4 by 4 board North starts on column 1, the lower of the two middle
    columns, not on column 2. *)
Lemma C9_default_pos_counterexample :
  default_pos 4 4 NORTH = (1, 3) ∧ midpoint_high 4 4 NORTH = (2, 3) ∧
  default_pos 4 4 NORTH ≠ midpoint_high 4 4 NORTH.
Proof. split; [reflexivity|]. split; [reflexivity|]. by vm_compute. Qed.

(** C9, amended: on a board of positive width and height the default
    position of a side lies on that side's own edge; on an edge of [2k + 1]
    cells it is the middle cell [k]; on an edge of [2k] cells South and East
    start on cell [k], the higher of the two middle cells, and North and
    West on cell [k - 1], the lower one. *)
Theorem C9_default_pos_middle (w h k : Z) (sd : Compass) :
  0 < w → 0 < h →
  on_edge sd w h (default_pos w h sd) ∧
  (edge_len w h sd = 2 * k + 1 → along sd (default_pos w h sd) = k) ∧
  (edge_len w h sd = 2 * k →
   along sd (default_pos w h sd) =
     match sd with SOUTH | EAST => k | NORTH | WEST => k - 1 end).
Proof.
  intros Hw Hh. unfold on_edge, in_board.
  destruct sd; simpl; rewrite ?Z.quot_div_nonneg by lia;
    split_and!;
    first [Z.to_euclidean_division_equations; lia
          |intros Hn; Z.to_euclidean_division_equations; lia].
Qed.

Lemma C9_default_pos_middle_witness :
  along NORTH (default_pos 4 4 NORTH) = 1 ∧
  along SOUTH (default_pos 4 4 SOUTH) = 2.
Proof.
  split.
  - apply (C9_default_pos_middle 4 4 2 NORTH); [lia|lia|reflexivity].
  - apply (C9_default_pos_middle 4 4 2 SOUTH); [lia|lia|reflexivity].
Defined.

(** A 2 by 2 game: South on (1, 0), North on (0, 1), one fence slot. *)
Definition start2 : Quoridor :=
  Eval vm_compute in
    match __init__ 2 2 None None with
    | Ok q => q
    | Raise _ => mkQuoridor 0 0 [] 0 [] None [] false
    end.

Example start2_init : __init__ 2 2 None None = Ok start2.
Proof. reflexivity. Qed.

(** The same game after a direct call of [is_blocking], which leaves the
    labels of the fence-free board in the cache. *)
Definition labelled2 : Quoridor :=
  Eval vm_compute in (is_blocking (mkPawn 10 SOUTH (1, 0) false) start2).2.

Example labelled2_run :
  is_blocking (mkPawn 10 SOUTH (1, 0) false) start2 = (Ok false, labelled2) ∧
  _cell_tags labelled2 = Some [[Some 0; Some 0]; [Some 0; Some 0]].
Proof. split; reflexivity. Qed.





(** With labels in the cache, [can_put_fence] checks the candidate against
    labels computed before the candidate was inserted: it accepts the fence
    that cuts both pawns off, which it refuses on a clear cache.  And an
    unchecked [put_fence] keeps the old labels, from which a later
    [is_blocking] answers [False] for a pawn that the new fence cuts off. *)
Lemma C4_cache_counterexample :
  grid labelled2 = grid start2 ∧
  (can_put_fence (0, 0) HORZ start2).1 = Ok false ∧
  (can_put_fence (0, 0) HORZ labelled2).1 = Ok true ∧
  let q' := (put_fence (0, 0) HORZ None false labelled2).2 in
  grid q' = [[Some HORZ]] ∧
  _cell_tags q' = Some [[Some 0; Some 0]; [Some 0; Some 0]] ∧
  (is_blocking (mkPawn 10 NORTH (0, 1) false) q').1 = Ok false ∧
  (is_blocking (mkPawn 10 NORTH (0, 1) false) (set_cell_tags q' None)).1
    = Ok true.
Proof. by vm_compute. Qed.

(** C4, amended: [can_put_fence] clears the cache once, after its check: a
    call that returns leaves the fence grid as it was and either returned
    [False] before inserting anything, with the state untouched, or leaves
    the cache clear; a validated [put_fence] that returns leaves the cache
    clear, so that on a square board a later [is_blocking] labels the new
    grid and answers whether the pawn is cut off in it. *)
Theorem C4_cache_cleared_after_check (q : Quoridor) coord orient :
  (∀ b q', can_put_fence coord orient q = (Ok b, q') →
     grid q' = grid q ∧ ((b = false ∧ q' = q) ∨ _cell_tags q' = None)) ∧
  (∀ player q', put_fence coord orient player true q = (Ok tt, q') →
     _cell_tags q' = None ∧
     lookup2 (grid q') coord = Some (Some orient) ∧
     ∀ pawn,
       width q = height q → wf_grid (width q) (height q) (grid q) →
       in_board (width q) (height q) (pos pawn) →
       ∃ b tags,
         label_all (grid q') (width q') (height q') = Ok tags ∧
         is_blocking pawn q' = (Ok b, set_cell_tags q' (Some tags)) ∧
         (b = true ↔ cut_off (grid q') (width q') (height q') pawn)).
Proof.
  split.
  - intros b q' Hrun.
    apply can_put_fence_returns in Hrun as [[-> ->]|[-> _]].
    + split; [done|]. by left.
    + split; [done|]. by right.
  - intros player q' Hrun. apply put_fence_returns in Hrun
      as (i & p & g1 & k & _ & _ & _ & Hcan & Hset & ->).
    apply can_put_fence_returns in Hcan as [[[=] _]|(_ & Hrange & Hslot & _)].
    split; [done|]. simpl.
    destruct Hrange as [Hc Hr].
    assert (coord = (coord.1, coord.2)) as Ecoord by by destruct coord.
    rewrite Ecoord in Hslot.
    destruct (setitem2_lookup2 _ _ _ (Some orient) _ Hslot)
      as (g1' & Hset' & Hlook & Hlen).
    rewrite Hset in Hset'. injection Hset' as <-.
    split; [by rewrite Hlook, decide_True|].
    intros pawn Hsq Hg Hp.
    match goal with |- context [is_blocking pawn ?q1] =>
      destruct (is_blocking_spec q1 pawn) as (b & tags & Hlab & Hb & Hiff & _)
    end; simpl; try done.
    { unfold wf_grid, rect in *. by rewrite Hlen. }
    exists b, tags. by split; [|split].
Qed.

Lemma C4_cache_cleared_after_check_witness :
  _cell_tags (put_fence (3, 3) HORZ None true start9).2 = None ∧
  _cell_tags (can_put_fence (3, 3) HORZ start9).2 = None.
Proof.
  split.
  - apply (proj2 (C4_cache_cleared_after_check start9 (3, 3) HORZ) None).
    reflexivity.
  - destruct (proj1 (C4_cache_cleared_after_check start9 (3, 3) HORZ)
                true start9 eq_refl) as [_ [[[=] _]|H]].
    exact H.
Defined.

(** [do] on the default board: a step north, a fence command, a command that
    is not one, and a command followed by the newline that [$] lets through,
    which the loop over the characters then takes for a step east. *)
Example do_examples :
  pos <$> pawns (do "n" start9).2 = [(4, 1); (4, 8)] ∧
  lookup2 (grid (do "d4|" start9).2) (3, 3) = Some (Some VERT) ∧
  (do "d10|" start9).1
    = Raise (ValueError "Text coordinates must be length of 2") ∧
  (do "x" start9).1 = Raise (ValueError "Illegal command") ∧
  (do (String "n" (String newline EmptyString)) start9).1
    = Raise (ValueError "Illegal destination for pawn").
Proof. by vm_compute. Qed.

(** The 2 by 2 game after South's winning step to (1, 1). *)
Definition won2 : Quoridor :=
  Eval vm_compute in (move (1, 1) None true start2).2.

Example won2_run :
  move (1, 1) None true start2 = (Ok tt, won2) ∧ finished won2 = true.
Proof. split; reflexivity. Qed.

(** In the finished game a direct [move] still moves the winner back, and a
    direct [put_fence] still places a fence and spends it. *)
Lemma C3_finished_counterexample :
  finished won2 = true ∧
  (move (1, 0) None true won2).1 = Ok tt ∧
  pos <$> pawns won2 = [(1, 1); (0, 1)] ∧
  pos <$> pawns (move (1, 0) None true won2).2 = [(1, 0); (0, 1)] ∧
  (put_fence (0, 0) VERT None true won2).1 = Ok tt ∧
  grid won2 = [[None]] ∧
  grid (put_fence (0, 0) VERT None true won2).2 = [[Some VERT]] ∧
  num_fences <$> pawns (put_fence (0, 0) VERT None true won2).2 = [9; 10] ∧
  _curr_pawn (put_fence (0, 0) VERT None true won2).2 = 1%nat.
Proof. by vm_compute. Qed.

(** C3, amended: once [finished] is true, every command given to [do], the
    entry point that dispatches to [move] and [put_fence], fails with
    "Game already finished" and leaves the whole game state unchanged. *)
Theorem C3_do_rejects_when_finished (q : Quoridor) (cmd : string)
    (later : list string) :
  finished q = true →
  do cmd q = (Raise (ValueError "Game already finished"), q) ∧
  foldl (λ q' c, (do c q').2) q later = q.
Proof.
  intros Hfin.
  assert (∀ c, do c q = (Raise (ValueError "Game already finished"), q))
    as Hdo by (intros c; unfold do, mbind, get; by rewrite Hfin).
  split; [done|]. induction later as [|c later IH]; [done|].
  simpl. by rewrite Hdo.
Qed.

Lemma C3_do_rejects_when_finished_witness :
  do "N" won2 = (Raise (ValueError "Game already finished"), won2) ∧
  foldl (λ q' c, (do c q').2) won2 ["S"; "a1|"] = won2.
Proof.
  apply (C3_do_rejects_when_finished won2 "N" ["S"; "a1|"]). reflexivity.
Defined.

(** * Further properties of the code *)

(** ** [Compass.oppo] and [Compass.cells] *)

Lemma NoDup_range n : NoDup (range n).
Proof.
  unfold range. apply NoDup_fmap_2; [apply _|apply NoDup_seq].
Qed.

(** X1: [Compass.cells(w, h)] lists every cell of the side's edge exactly
    once: it has no repetition, it has [w] cells for North and South and [h]
    for West and East (none when that number is not positive), and on a
    board of positive width and height a cell is listed exactly when it is
    on the board and on that edge. *)
Theorem X1_side_cells_edge (s : Compass) (w h : Z) :
  NoDup (side_cells s w h) ∧
  length (side_cells s w h) = Z.to_nat (edge_len w h s) ∧
  (0 < w → 0 < h → ∀ p, p ∈ side_cells s w h ↔ on_edge s w h p).
Proof.
  split; [|split].
  - destruct s; simpl; (apply NoDup_fmap_2; [|apply NoDup_range]);
      intros x y [=]; done.
  - destruct s; simpl; by rewrite length_fmap, length_range.
  - intros Hw Hh p. by apply elem_of_side_cells.
Qed.

Lemma X1_side_cells_edge_witness :
  (2, 8) ∈ side_cells NORTH 9 9 ↔ on_edge NORTH 9 9 (2, 8).
Proof.
  apply (proj2 (proj2 (X1_side_cells_edge NORTH 9 9))); lia.
Defined.

(** X2: the goal edge of a side, the edge of [oppo], is the edge of a
    different side whose own opposite is the side again; and on a board with
    at least two rows and two columns no cell lies both on a side's edge
    and on the edge opposite. *)
Theorem X2_oppo_edges_apart (s : Compass) (w h : Z) (p : cell) :
  oppo (oppo s) = s ∧ oppo s ≠ s ∧
  (1 < w → 1 < h → p ∈ side_cells s w h → p ∉ side_cells (oppo s) w h).
Proof.
  split; [by destruct s|]. split; [by destruct s|].
  intros Hw Hh Hp Hq.
  apply elem_of_side_cells in Hp as [_ Hp]; [|lia..].
  apply elem_of_side_cells in Hq as [_ Hq]; [|lia..].
  destruct s; simpl in *; lia.
Qed.

Lemma X2_oppo_edges_apart_witness : (4, 0) ∉ side_cells (oppo SOUTH) 9 9.
Proof.
  apply (proj2 (proj2 (X2_oppo_edges_apart SOUTH 9 9 (4, 0)))); [lia|lia|].
  apply elem_of_side_cells; [lia|lia|]. unfold on_edge, in_board. simpl. lia.
Defined.

(** ** [parse_text_coord] *)

Lemma in_range_spec lo hi c :
  in_range lo hi c = true ↔
  (nat_of_ascii lo ≤ nat_of_ascii c ≤ nat_of_ascii hi)%nat.
Proof. unfold in_range. by rewrite bool_decide_eq_true. Qed.

(** The character of a code below 256. *)
Definition chr (n : Z) : ascii := ascii_of_nat (Z.to_nat n).

Lemma nat_of_chr n : 0 ≤ n < 256 → Z.of_nat (nat_of_ascii (chr n)) = n.
Proof. intros Hn. unfold chr. rewrite nat_ascii_embedding; lia. Qed.

Lemma chr_of_nat c : chr (Z.of_nat (nat_of_ascii c)) = c.
Proof. unfold chr. by rewrite Nat2Z.id, ascii_nat_embedding. Qed.

(** X3: [parse_text_coord] accepts exactly the two-character texts made of
    a capital letter and a digit from 1 to 9, and reads the letter as a
    column counted from [A] = 0 and the digit as a row counted from [1] = 0,
    so its results lie within 26 columns and 9 rows; a text of another
    length raises "Text coordinates must be length of 2" and any other text
    of length 2 raises "Invalid text coordinate format". *)
Theorem X3_parse_text_coord_exact (s : list ascii) :
  match parse_text_coord s with
  | Ok (c, r) =>
      0 ≤ c < 26 ∧ 0 ≤ r < 9 ∧ s = [chr (c + 65); chr (r + 49)]
  | Raise e =>
      (length s ≠ 2%nat ∧
       e = ValueError "Text coordinates must be length of 2") ∨
      (length s = 2%nat ∧ e = ValueError "Invalid text coordinate format" ∧
       ∀ c r, 0 ≤ c < 26 → 0 ≤ r < 9 → s ≠ [chr (c + 65); chr (r + 49)])
  end.
Proof.
  unfold parse_text_coord.
  destruct (decide (length s ≠ 2%nat)) as [Hlen|Hlen]; [by left|].
  destruct s as [|l [|d [|x s]]];
    try (exfalso; apply Hlen; simpl; lia).
  destruct (is_upper l) eqn:El; simpl.
  - apply in_range_spec in El. change (nat_of_ascii "A") with 65%nat in El.
    change (nat_of_ascii "Z") with 90%nat in El.
    destruct (is_digit19 d) eqn:Ed.
    + apply in_range_spec in Ed. change (nat_of_ascii "1") with 49%nat in Ed.
      change (nat_of_ascii "9") with 57%nat in Ed.
      split; [lia|]. split; [lia|].
      replace (Z.of_nat (nat_of_ascii l) - 64 - 1 + 65)
        with (Z.of_nat (nat_of_ascii l)) by lia.
      replace (Z.of_nat (nat_of_ascii d) - 48 - 1 + 49)
        with (Z.of_nat (nat_of_ascii d)) by lia.
      by rewrite !chr_of_nat.
    + right. split; [done|]. split; [done|]. intros c r Hc Hr [= _ ->].
      apply not_true_iff_false in Ed. apply Ed, in_range_spec.
      change (nat_of_ascii "1") with 49%nat.
      change (nat_of_ascii "9") with 57%nat.
      pose proof (nat_of_chr (r + 49)). lia.
  - right. split; [done|]. split; [done|]. intros c r Hc Hr [= -> _].
    apply not_true_iff_false in El. apply El, in_range_spec.
    change (nat_of_ascii "A") with 65%nat.
    change (nat_of_ascii "Z") with 90%nat.
    pose proof (nat_of_chr (c + 65)). lia.
Qed.

(** X4: reading back a written coordinate: for a column below 26 and a row
    below 9, the text made of the column's letter and the row's digit parses
    to that column and row. *)
Theorem X4_parse_text_coord_round_trip (c r : Z) :
  0 ≤ c < 26 → 0 ≤ r < 9 →
  parse_text_coord [chr (c + 65); chr (r + 49)] = Ok (c, r).
Proof.
  intros Hc Hr.
  pose proof (X := nat_of_chr (c + 65)). pose proof (Y := nat_of_chr (r + 49)).
  unfold parse_text_coord. simpl.
  assert (is_upper (chr (c + 65)) = true) as ->.
  { apply in_range_spec. change (nat_of_ascii "A") with 65%nat.
    change (nat_of_ascii "Z") with 90%nat. lia. }
  assert (is_digit19 (chr (r + 49)) = true) as ->.
  { apply in_range_spec. change (nat_of_ascii "1") with 49%nat.
    change (nat_of_ascii "9") with 57%nat. lia. }
  simpl. f_equal. f_equal; lia.
Qed.

Lemma X4_parse_text_coord_round_trip_witness :
  parse_text_coord [chr (3 + 65); chr (3 + 49)] = Ok (3, 3).
Proof. apply X4_parse_text_coord_round_trip; lia. Defined.

(** ** [do] *)

Lemma before_dollar_id (s : list ascii) :
  last s ≠ Some newline → before_dollar s = s.
Proof.
  intros Hl. unfold before_dollar.
  destruct (reverse s) as [|c r] eqn:E; [done|].
  case_bool_decide as Hc; [|done]. subst c. destruct Hl.
  rewrite <- (reverse_involutive s), E, reverse_cons. apply last_snoc.
Qed.

Lemma before_dollar_newline (s : list ascii) :
  before_dollar (s ++ [newline]) = s.
Proof.
  unfold before_dollar. rewrite reverse_app. simpl.
  apply reverse_involutive.
Qed.

Lemma forallb_true_Forall {A} (f : A → bool) (l : list A) :
  Forall (λ x, f x = true) l → forallb f l = true.
Proof. induction 1 as [|x l Hx _ IH]; [done|]. simpl. by rewrite Hx. Qed.

Lemma is_nswe_spec c :
  is_nswe c = true ↔ (c = "N" ∨ c = "S" ∨ c = "W" ∨ c = "E")%char.
Proof. unfold is_nswe. by rewrite bool_decide_eq_true. Qed.

Lemma is_bar_spec c : is_bar c = true ↔ (c = "-" ∨ c = "|")%char.
Proof. unfold is_bar. by rewrite bool_decide_eq_true. Qed.

(** How many times a character occurs. *)
Definition count_char (c : ascii) (s : list ascii) : Z :=
  Z.of_nat (length (filter (λ x, x = c) s)).

Lemma count_char_cons c x s :
  count_char c (x :: s) = (if decide (x = c) then 1 else 0) + count_char c s.
Proof.
  unfold count_char. rewrite filter_cons.
  destruct (decide (x = c)); simpl; lia.
Qed.

(** The loop of [do] over a command of direction letters adds up the
    steps. *)
Lemma foldl_step_char (s : list ascii) (p : cell) :
  Forall (λ c, is_nswe c = true) s →
  foldl step_char p s =
    (p.1 + count_char "E" s - count_char "W" s,
     p.2 + count_char "N" s - count_char "S" s).
Proof.
  intros Hs. revert p. induction Hs as [|c s Hc _ IH]; intros p.
  { destruct p. unfold count_char. simpl. f_equal; lia. }
  simpl. rewrite IH, !count_char_cons.
  apply is_nswe_spec in Hc as [->|[->|[->| ->]]]; simpl; f_equal; lia.
Qed.

Lemma curr_pawn_lookup q p :
  pawns q !! _curr_pawn q = Some p → curr_pawn q = (Ok (_curr_pawn q), q).
Proof.
  intros Hp. unfold curr_pawn. by rewrite getitem_nonneg, Nat2Z.id, Hp by lia.
Qed.

Lemma last_Forall {A} (P : A → Prop) (s : list A) x :
  Forall P s → last s = Some x → P x.
Proof.
  intros Hs Hl. apply last_Some in Hl as [s' ->].
  by apply Forall_app in Hs as [_ [Hx _]%Forall_cons].
Qed.

(** X5: a command made of the letters n, s, w and e, in either case, moves
    the current pawn by a validated [move] to its cell displaced by one
    column east for every E and west for every W, one row up for every N
    and down for every S, whatever the order of the letters; and when the
    command ends in a newline, which the pattern lets through, the loop
    takes the newline for one more step east. *)
Theorem X5_do_walks (q : Quoridor) (p : Pawn) (cs : list ascii) :
  finished q = false →
  pawns q !! _curr_pawn q = Some p →
  cs ≠ [] → Forall (λ c, is_nswe (upper_char c) = true) cs →
  let u := upper cs in
  let dst := ((pos p).1 + count_char "E" u - count_char "W" u,
              (pos p).2 + count_char "N" u - count_char "S" u) in
  do (String.string_of_list_ascii cs) q = move dst None true q ∧
  do (String.string_of_list_ascii (cs ++ [newline])) q
    = move (dst.1 + 1, dst.2) None true q.
Proof.
  intros Hfin Hp Hne Hcs u dst.
  assert (Forall (λ c, is_nswe c = true) u) as Hu.
  { unfold u, upper. by apply Forall_fmap. }
  assert (u ≠ []) as Hune by (unfold u, upper; by destruct cs).
  assert (match_moves u = true) as Hm.
  { unfold match_moves. rewrite before_dollar_id.
    - rewrite bool_decide_eq_false_2 by done. simpl.
      by apply forallb_true_Forall.
    - intros Hl. by apply (last_Forall _ _ _ Hu) in Hl. }
  assert (match_moves (u ++ [newline]) = true) as Hm'.
  { unfold match_moves. rewrite before_dollar_newline.
    rewrite bool_decide_eq_false_2 by done. simpl.
    by apply forallb_true_Forall. }
  split.
  - unfold do, mbind at 1, get. rewrite Hfin.
    rewrite String.list_ascii_of_string_of_list_ascii. fold u. rewrite Hm.
    unfold mbind at 1. rewrite (curr_pawn_lookup q p Hp).
    unfold mbind. rewrite (pawn_at_lookup _ q p Hp).
    by rewrite foldl_step_char by done.
  - unfold do, mbind at 1, get. rewrite Hfin.
    rewrite String.list_ascii_of_string_of_list_ascii.
    unfold upper. rewrite fmap_app. fold (upper cs). fold u.
    change (upper_char <$> [newline]) with [newline]. rewrite Hm'.
    unfold mbind at 1. rewrite (curr_pawn_lookup q p Hp).
    unfold mbind. rewrite (pawn_at_lookup _ q p Hp).
    rewrite foldl_app, (foldl_step_char u) by done. reflexivity.
Qed.

Lemma X5_do_walks_witness :
  do "n" start9 = move (4, 1) None true start9 ∧
  do (String.string_of_list_ascii ["n"%char; newline]) start9
    = move (5, 1) None true start9.
Proof.
  apply (X5_do_walks start9 (new_pawn SOUTH (4, 0)) ["n"%char]).
  - reflexivity.
  - reflexivity.
  - discriminate.
  - repeat constructor.
Defined.

Lemma upper_char_keeps c :
  in_range "a" "z" c = false → upper_char c = c.
Proof. unfold upper_char. by intros ->. Qed.

Lemma digit_not_lower c : is_digit c = true → in_range "a" "z" c = false.
Proof.
  intros Hc. apply in_range_spec in Hc. apply not_true_iff_false.
  rewrite in_range_spec. change (nat_of_ascii "0") with 48%nat in Hc.
  change (nat_of_ascii "9") with 57%nat in Hc.
  change (nat_of_ascii "a") with 97%nat. lia.
Qed.

Lemma digit19_digit c : is_digit19 c = true → is_digit c = true.
Proof.
  unfold is_digit19, is_digit.
  rewrite !in_range_spec. change (nat_of_ascii "0") with 48%nat.
  change (nat_of_ascii "1") with 49%nat. lia.
Qed.

Lemma digit_not_upper c : is_digit c = true → is_upper c = false.
Proof.
  intros Hc. apply in_range_spec in Hc. apply not_true_iff_false.
  unfold is_upper.
  rewrite in_range_spec. change (nat_of_ascii "0") with 48%nat in Hc.
  change (nat_of_ascii "9") with 57%nat in Hc.
  change (nat_of_ascii "A") with 65%nat. lia.
Qed.

Lemma digit_not_nswe c : is_digit c = true → is_nswe c = false.
Proof.
  intros Hc. apply in_range_spec in Hc. apply not_true_iff_false.
  rewrite is_nswe_spec. change (nat_of_ascii "0") with 48%nat in Hc.
  change (nat_of_ascii "9") with 57%nat in Hc.
  intros [->|[->|[->| ->]]]; vm_compute in Hc; lia.
Qed.

Lemma bar_plain c :
  is_bar c = true →
  upper_char c = c ∧ is_digit c = false ∧ c ≠ newline.
Proof.
  intros Hc. apply is_bar_spec in Hc as [->| ->]; by vm_compute.
Qed.

(** The greedy run of a class stops at the first character outside it. *)
Lemma skip_run (f : ascii → bool) (s : list ascii) c rest :
  Forall (λ x, f x = true) s → f c = false →
  skip f (s ++ c :: rest) = c :: rest.
Proof.
  intros Hs Hc. induction Hs as [|x s Hx _ IH]; simpl; [by rewrite Hc|].
  by rewrite Hx.
Qed.

(** A command of the shape letters, digits, bar, as the second alternative
    of the pattern accepts it. *)
Lemma match_fence_shape (ls ds : list ascii) (d b : ascii) :
  ls ≠ [] → Forall (λ c, is_upper c = true) ls →
  is_digit19 d = true → Forall (λ c, is_digit c = true) ds →
  is_bar b = true →
  match_moves (ls ++ d :: ds ++ [b]) = false ∧
  match_fence (ls ++ d :: ds ++ [b]) = true.
Proof.
  intros Hne Hls Hd Hds Hb.
  destruct (bar_plain b Hb) as (_ & Hbd & Hbn).
  assert (before_dollar (ls ++ d :: ds ++ [b]) = ls ++ d :: ds ++ [b]) as Hbd'.
  { apply before_dollar_id.
    replace (ls ++ d :: ds ++ [b]) with ((ls ++ d :: ds) ++ [b])
      by by rewrite <- app_assoc.
    rewrite last_snoc. congruence. }
  split.
  - unfold match_moves. rewrite Hbd'. apply andb_false_iff. right.
    apply not_true_iff_false. intros Hall.
    rewrite forallb_forall in Hall.
    assert (is_nswe d = true) as Hn.
    { apply Hall, in_or_app. right. by left. }
    by rewrite digit_not_nswe in Hn by by apply digit19_digit.
  - unfold match_fence. rewrite Hbd'.
    destruct ls as [|l ls]; [done|]. apply Forall_cons in Hls as [Hl Hls].
    simpl. rewrite Hl. simpl.
    rewrite (skip_run is_upper ls d (ds ++ [b])); [|done|].
    2:{ by apply digit_not_upper, digit19_digit. }
    rewrite Hd. simpl. rewrite (skip_run is_digit ds b []); [done|done|done].
Qed.

Lemma upper_keeps (s : list ascii) :
  Forall (λ c, in_range "a" "z" c = false) s → upper s = s.
Proof.
  induction 1 as [|c s Hc _ IH]; [done|]. unfold upper in *.
  by rewrite fmap_cons, IH, upper_char_keeps.
Qed.

(** X6: a command made of one letter, in either case, one digit from 1 to 9
    and a bar places by a validated [put_fence] a fence for the current
    pawn at the slot whose column is the letter counted from A = 0 and whose
    row is the digit counted from 1 = 0, upright for [|] and level for
    [-]. *)
Theorem X6_do_fence (q : Quoridor) (l d b : ascii) :
  finished q = false →
  is_upper (upper_char l) = true → is_digit19 d = true → is_bar b = true →
  do (String.string_of_list_ascii [l; d; b]) q =
    put_fence (Z.of_nat (nat_of_ascii (upper_char l)) - 65,
               Z.of_nat (nat_of_ascii d) - 49)
              (if bool_decide (b = "|"%char) then VERT else HORZ)
              None true q.
Proof.
  intros Hfin Hl Hd Hb. destruct (bar_plain b Hb) as (Hbu & _ & _).
  pose proof (upper_char_keeps d (digit_not_lower d (digit19_digit d Hd)))
    as Hdu.
  destruct (match_fence_shape [upper_char l] [] d b) as [Hm Hf];
    [done|by constructor|done|done|done|].
  unfold do, mbind at 1, get. rewrite Hfin.
  rewrite String.list_ascii_of_string_of_list_ascii.
  change (upper [l; d; b]) with [upper_char l; upper_char d; upper_char b].
  rewrite Hdu, Hbu. simpl in Hm, Hf. rewrite Hm, Hf.
  unfold mbind, lift. simpl removelast. unfold parse_text_coord.
  simpl. rewrite Hl, Hd. simpl.
  replace (Z.of_nat (nat_of_ascii (upper_char l)) - 64 - 1)
    with (Z.of_nat (nat_of_ascii (upper_char l)) - 65) by lia.
  replace (Z.of_nat (nat_of_ascii d) - 48 - 1)
    with (Z.of_nat (nat_of_ascii d) - 49) by lia.
  assert (bool_decide (Some b = Some "|"%char) = bool_decide (b = "|"%char))
    as -> by (apply bool_decide_ext; split; congruence).
  by destruct (put_fence _ _ None true q) as [[[]|e] q'].
Qed.

Lemma X6_do_fence_witness :
  do "d4|" start9 = put_fence (3, 3) VERT None true start9.
Proof.
  apply (X6_do_fence start9 "d" "4" "|"); reflexivity.
Defined.

(** X7: [do] cannot address a fence slot beyond column Z or row 9: a fence
    command in capitals whose coordinate part has more than two characters,
    that is several column letters or a row number of several digits,
    passes the pattern and is then rejected with "Text coordinates must be
    length of 2", the game unchanged. *)
Theorem X7_do_long_coordinate (q : Quoridor) (ls ds : list ascii)
    (d b : ascii) :
  finished q = false →
  ls ≠ [] → Forall (λ c, is_upper c = true) ls →
  is_digit19 d = true → Forall (λ c, is_digit c = true) ds →
  is_bar b = true →
  (2 < length ls + S (length ds))%nat →
  do (String.string_of_list_ascii (ls ++ d :: ds ++ [b])) q =
    (Raise (ValueError "Text coordinates must be length of 2"), q).
Proof.
  intros Hfin Hne Hls Hd Hds Hb Hlen.
  destruct (match_fence_shape ls ds d b) as [Hm Hf]; [done..|].
  destruct (bar_plain b Hb) as (Hbu & _ & _).
  assert (upper (ls ++ d :: ds ++ [b]) = ls ++ d :: ds ++ [b]) as Hup.
  { apply upper_keeps. apply Forall_app. split.
    - eapply Forall_impl; [exact Hls|]. intros c Hc. simpl in Hc.
      apply in_range_spec in Hc. apply not_true_iff_false.
      rewrite in_range_spec. change (nat_of_ascii "Z") with 90%nat in Hc.
      change (nat_of_ascii "a") with 97%nat. lia.
    - apply Forall_cons. split; [by apply digit_not_lower, digit19_digit|].
      apply Forall_app. split.
      + eapply Forall_impl; [exact Hds|]. intros c. apply digit_not_lower.
      + apply Forall_singleton. unfold upper_char in Hbu.
        destruct (in_range "a" "z" b) eqn:E; [|done].
        apply is_bar_spec in Hb as [->| ->]; by vm_compute in E. }
  unfold do, mbind at 1, get. rewrite Hfin.
  rewrite String.list_ascii_of_string_of_list_ascii, Hup, Hm, Hf.
  unfold mbind, lift.
  replace (ls ++ d :: ds ++ [b]) with ((ls ++ d :: ds) ++ [b])
    by by rewrite <- app_assoc.
  rewrite removelast_last. unfold parse_text_coord.
  rewrite decide_True; [done|]. rewrite length_app. simpl. lia.
Qed.

Lemma X7_do_long_coordinate_witness :
  do "D10|" start9 =
    (Raise (ValueError "Text coordinates must be length of 2"), start9).
Proof.
  apply (X7_do_long_coordinate start9 ["D"%char] ["0"%char] "1" "|").
  - reflexivity.
  - discriminate.
  - repeat constructor.
  - reflexivity.
  - repeat constructor.
  - reflexivity.
  - simpl. lia.
Defined.

(** ** [__init__] *)

Lemma setitem2_empty_rows {A} (m : list (list A)) c r x :
  (∀ row, row ∈ m → row = []) → setitem2 m c r x = Raise IndexError.
Proof.
  intros Hrows. unfold setitem2, getitem.
  destruct (py_index (length m) c) as [k|]; [|done].
  destruct (m !! k) as [row|] eqn:E; [|done]. simpl.
  rewrite (Hrows row) by (apply list_elem_of_lookup; eauto).
  unfold setitem, py_index. simpl.
  rewrite decide_False by lia. by rewrite decide_False by lia.
Qed.

(** X8: [Quoridor(height, width)] with the default pawns returns exactly
    when both dimensions are positive, and raises [IndexError] otherwise.
    The game it returns has the given dimensions, an occupancy grid of
    [width] columns of [height] cells, a fence grid of [width - 1] by
    [height - 1] empty slots, a clear cache, South to move first and then
    North, each with 10 fences on its own edge, and is not finished.  The
    occupancy grid holds North's number on North's cell, South's number on
    South's cell unless that is North's cell too (a single row of odd
    width), and nothing elsewhere. *)
Theorem X8_init_default_game (h w : Z) :
  (0 < w → 0 < h →
   ∃ q0, __init__ h w None None = Ok q0 ∧
     height q0 = h ∧ width q0 = w ∧
     rect (Z.to_nat w) (Z.to_nat h) (cells q0) ∧
     wf_grid w h (grid q0) ∧ (∀ s, fence (grid q0) s = None) ∧
     _cell_tags q0 = None ∧ finished q0 = false ∧ _curr_pawn q0 = 0%nat ∧
     pawns q0 = [new_pawn SOUTH (default_pos w h SOUTH);
                 new_pawn NORTH (default_pos w h NORTH)] ∧
     (∀ p, p ∈ pawns q0 → on_edge (side p) w h (pos p)) ∧
     (∀ x, in_board w h x →
        lookup2 (cells q0) x =
          if decide (x = default_pos w h NORTH) then Some (Some 1%nat)
          else if decide (x = default_pos w h SOUTH) then Some (Some 0%nat)
          else Some None)) ∧
  (¬ (0 < w ∧ 0 < h) → __init__ h w None None = Raise IndexError).
Proof.
  split.
  - intros Hw Hh. unfold __init__. simpl.
    set (cs0 := replicate (Z.to_nat w) (replicate (Z.to_nat h) (@None nat))).
    assert (rect (Z.to_nat w) (Z.to_nat h) cs0) as Hr0
      by apply rect_replicate.
    assert (0 ≤ w ÷ 2 < w) as HS.
    { split; [apply Z.quot_pos; lia|apply Z.quot_lt; lia]. }
    assert (0 ≤ (w - 1) ÷ 2 < w) as HN.
    { split; [apply Z.quot_pos; lia|].
      destruct (decide (w = 1)) as [->|]; [done|].
      assert ((w - 1) ÷ 2 < w - 1) by (apply Z.quot_lt; lia). lia. }
    destruct (proj2 (rect_lookup2 _ _ _ (w ÷ 2, 0) Hr0)) as [v1 Hv1];
      [simpl; lia|].
    destruct (setitem2_lookup2 cs0 (w ÷ 2) 0 (Some 0%nat) v1 Hv1)
      as (cs1 & -> & Hl1 & Hs1).
    simpl.
    assert (rect (Z.to_nat w) (Z.to_nat h) cs1) as Hr1
      by (unfold rect in *; congruence).
    destruct (proj2 (rect_lookup2 _ _ _ ((w - 1) ÷ 2, h - 1) Hr1))
      as [v2 Hv2]; [simpl; lia|].
    destruct (setitem2_lookup2 cs1 ((w - 1) ÷ 2) (h - 1) (Some 1%nat) v2 Hv2)
      as (cs2 & -> & Hl2 & Hs2).
    simpl. eexists. split; [done|]. simpl. split_and!; try done.
    + unfold rect in *. congruence.
    + apply rect_replicate.
    + intros s. apply fence_replicate.
    + intros p Hp. apply elem_of_cons in Hp as [->|Hp].
      { unfold on_edge, in_board. simpl. lia. }
      apply list_elem_of_singleton in Hp as ->.
      unfold on_edge, in_board. simpl. lia.
    + intros x Hx. rewrite Hl2, Hl1.
      destruct (decide (x = ((w - 1) ÷ 2, h - 1))); [done|].
      destruct (decide (x = (w ÷ 2, 0))); [done|].
      destruct (proj2 (rect_lookup2 _ _ _ x Hr0)) as [v Hv];
        [destruct Hx; lia|].
      rewrite Hv. by apply lookup2_replicate in Hv as ->.
  - intros Hneg. unfold __init__. simpl.
    rewrite setitem2_empty_rows; [done|].
    intros row Hrow. apply elem_of_replicate in Hrow as [-> Hw].
    destruct (decide (0 < w)) as [Hw'|Hw']; [|lia].
    replace (Z.to_nat h) with 0%nat by lia. done.
Qed.

Lemma X8_init_default_game_witness :
  (∃ q0, __init__ 2 3 None None = Ok q0 ∧ height q0 = 2 ∧ width q0 = 3) ∧
  __init__ 0 3 None None = Raise IndexError.
Proof.
  split.
  - destruct (proj1 (X8_init_default_game 2 3)) as (q0 & H0 & Hh & Hw & _);
      [lia|lia|].
    by exists q0.
  - apply (proj2 (X8_init_default_game 0 3)). lia.
Defined.

(** ** Turn order *)

Lemma set_curr_same q : set_curr q (_curr_pawn q) = q.
Proof. by destruct q. Qed.

Lemma next_pawn_some q :
  pawns q ≠ [] →
  next_pawn q =
    (Ok ((_curr_pawn q + 1) mod length (pawns q))%nat,
     set_curr q ((_curr_pawn q + 1) mod length (pawns q))%nat).
Proof.
  intros Hne. unfold next_pawn.
  destruct (length (pawns q)) as [|n] eqn:En.
  { by apply length_zero_iff_nil in En. }
  rewrite <- En. unfold curr_pawn. rewrite getitem_nonneg, Nat2Z.id by lia.
  cbn [pawns _curr_pawn set_curr].
  destruct (lookup_lt_is_Some_2 (pawns q)
              ((_curr_pawn q + 1) mod length (pawns q))%nat)
    as [p Hp]; [apply Nat.mod_upper_bound; lia|].
  by rewrite Hp.
Qed.

(** X9: [next_pawn] passes the turn to the following pawn of the list,
    the first one after the last one, and returns it; on a game whose
    current index is within the list, as many calls as there are pawns bring
    the turn back where it was, the game unchanged.  On a game without
    pawns it raises [ZeroDivisionError]. *)
Theorem X9_next_pawn_cycle (q : Quoridor) :
  (pawns q ≠ [] →
   next_pawn q =
     (Ok ((_curr_pawn q + 1) mod length (pawns q))%nat,
      set_curr q ((_curr_pawn q + 1) mod length (pawns q))%nat) ∧
   ((_curr_pawn q < length (pawns q))%nat →
    Nat.iter (length (pawns q)) (λ q', (next_pawn q').2) q = q)) ∧
  (pawns q = [] → next_pawn q = (Raise ZeroDivisionError, q)).
Proof.
  split.
  - intros Hne. split; [by apply next_pawn_some|]. intros Hc.
    set (n := length (pawns q)).
    assert (n ≠ 0%nat) as Hn.
    { unfold n. intros E. by apply length_zero_iff_nil in E. }
    assert (∀ k, Nat.iter k (λ q', (next_pawn q').2) q
                 = set_curr q ((_curr_pawn q + k) mod n)%nat) as Hiter.
    { induction k as [|k IH]; simpl.
      - rewrite Nat.add_0_r, Nat.mod_small by done.
        symmetry. apply set_curr_same.
      - rewrite IH, next_pawn_some by done. simpl. fold n. f_equal.
        rewrite Nat.Div0.add_mod_idemp_l. f_equal. lia. }
    rewrite Hiter. replace (_curr_pawn q + n)%nat with (_curr_pawn q + 1 * n)%nat by lia.
    rewrite Nat.Div0.mod_add, Nat.mod_small by done. apply set_curr_same.
  - intros He. unfold next_pawn. by rewrite He.
Qed.

Lemma X9_next_pawn_cycle_witness :
  (next_pawn start9).1 = Ok 1%nat ∧
  (next_pawn (next_pawn start9).2).2 = start9.
Proof.
  destruct (proj1 (X9_next_pawn_cycle start9)) as [H1 H2]; [discriminate|].
  split; [by rewrite H1|]. apply H2. simpl. lia.
Defined.

(** ** What a validated [move] does *)

(** The game after a successful [move] of pawn [i], which was [p], to
    [dst], with [cs] as the new occupancy grid. *)
Definition moved (q : Quoridor) (i : nat) (p : Pawn) (dst : cell)
    (cs : list (list (option nat))) : Quoridor :=
  let won := wins q (side p) dst in
  {| height := height q; width := width q;
     pawns := <[i := {| num_fences := num_fences p; side := side p;
                        pos := dst;
                        win := if won then true else win p |}]> (pawns q);
     _curr_pawn := if won then _curr_pawn q
                   else ((_curr_pawn q + 1) mod length (pawns q))%nat;
     cells := cs; _cell_tags := _cell_tags q; grid := grid q;
     finished := if won then true else finished q |}.

Lemma resolve_raises pawn q e q' :
  resolve pawn q = (Raise e, q') → e = IndexError.
Proof.
  destruct pawn as [i|]; simpl.
  - unfold mbind, pawn_at, mret.
    destruct (getitem (pawns q) (Z.of_nat i)) eqn:E; [done|].
    intros [= <- _]. by eapply getitem_raises.
  - unfold curr_pawn.
    destruct (getitem (pawns q) (Z.of_nat (_curr_pawn q))) eqn:E; [done|].
    simpl. intros [= <- _]. by eapply getitem_raises.
Qed.

Lemma move_outcome dst pawn q :
  inv q →
  (∃ e, move dst pawn true q = (Raise e, q) ∧
        (e = IndexError ∨ e = ValueError "Illegal destination for pawn")) ∨
  ∃ i p cs1 cs2,
    resolve pawn q = (Ok i, q) ∧ pawns q !! i = Some p ∧
    vacant (cells q) dst ∧
    connected (grid q) (width q) (height q) (pos p) dst ∧
    setitem2 (cells q) (pos p).1 (pos p).2 None = Ok cs1 ∧
    setitem2 cs1 dst.1 dst.2 (Some i) = Ok cs2 ∧
    move dst pawn true q = (Ok tt, moved q i p dst cs2).
Proof.
  intros Hq. pose proof Hq as [Hsq Hg Hcs Hcache Hboard Hgoal].
  destruct (move dst pawn true q) as [r q'] eqn:Hrun.
  unfold move in Hrun. unfold mbind at 1 in Hrun.
  destruct (resolve_cases pawn q) as [(i & p & Hr & Hi)|(e & Hr)];
    rewrite Hr in Hrun.
  2:{ injection Hrun as <- <-. left. exists e. split; [done|]. left.
      by eapply resolve_raises. }
  assert (p ∈ pawns q) as Hp by (apply list_elem_of_lookup; eauto).
  unfold mbind at 1 in Hrun. unfold move_check, mbind at 1 in Hrun.
  destruct (move_region_spec q i p Hcs Hg Hi (Hboard p Hp))
    as (region & visited & Hreg & (_ & _ & Hregion & _) & _).
  rewrite Hreg in Hrun.
  destruct (decide (dst ∈ region)) as [Hdst|Hdst];
    [|injection Hrun as <- <-; left; eexists; split; [done|by right]].
  destruct (Hregion dst Hdst ltac:(set_solver)) as [Hvac Hconn].
  simpl in Hvac, Hconn. pose proof Hvac as Hvac'. unfold vacant in Hvac.
  unfold mret in Hrun. unfold mbind at 1 in Hrun.
  rewrite (pawn_at_lookup i q p Hi) in Hrun.
  destruct (proj2 (rect_lookup2 _ _ _ (pos p) Hcs)) as [v Hv];
    [destruct (Hboard p Hp); lia|].
  destruct (setitem2_lookup2 (cells q) (pos p).1 (pos p).2 None v)
    as (cs1 & Hset1 & Hlook1 & Hshape1); [by destruct (pos p)|].
  unfold mbind at 1 in Hrun. unfold assign_cell at 1 in Hrun.
  rewrite Hset1 in Hrun.
  unfold mbind at 1 in Hrun. unfold update_pawn at 1 in Hrun.
  simpl in Hrun. rewrite Hi in Hrun.
  assert (is_Some (lookup2 cs1 dst)) as [v' Hv'].
  { rewrite Hlook1. case_decide; [done|]. by rewrite Hvac. }
  destruct (setitem2_lookup2 cs1 dst.1 dst.2 (Some i) v')
    as (cs2 & Hset2 & _ & Hshape2); [by destruct dst|].
  unfold mbind at 1 in Hrun. unfold assign_cell at 1 in Hrun.
  simpl in Hrun. rewrite Hset2 in Hrun.
  unfold mbind at 1 in Hrun. unfold get in Hrun. simpl in Hrun.
  set (p' := {| num_fences := num_fences p; side := side p; pos := dst;
                win := win p |}) in Hrun.
  set (q3 := set_cells (set_pawns (set_cells q cs1) (<[i:=p']> (pawns q))) cs2)
    in Hrun.
  assert (pawns q3 !! i = Some p') as Hi3.
  { simpl. apply list_lookup_insert_eq. by eapply lookup_lt_Some. }
  change (wins q3 (side p) dst) with (wins q (side p) dst) in Hrun.
  right. exists i, p, cs1, cs2. split_and!; try done.
  rewrite <- Hrun. unfold moved. destruct (wins q (side p) dst).
  - unfold mbind, update_pawn. rewrite Hi3. unfold modify. simpl.
    by rewrite list_insert_insert_eq.
  - unfold mbind. rewrite next_pawn_some.
    + simpl. by rewrite length_insert.
    + simpl. intros E. apply (f_equal length) in E.
      rewrite length_insert in E. apply lookup_lt_Some in Hi.
      simpl in E. lia.
Qed.


Lemma start9_inv : inv start9.
Proof.
  destruct (init_default 9) as (q0 & Hinit & Hinv & _); [lia|].
  rewrite start9_init in Hinit. by injection Hinit as <-.
Qed.


(** ** What a validated [put_fence] does *)

(** The game after pawn [i], which was [p], has placed a fence, with [g] as
    the new fence grid. *)
Definition placed (q : Quoridor) (i : nat) (p : Pawn) (g : fence_grid)
  : Quoridor :=
  {| height := height q; width := width q;
     pawns := <[i := spend p]> (pawns q);
     _curr_pawn := ((_curr_pawn q + 1) mod length (pawns q))%nat;
     cells := cells q; _cell_tags := _cell_tags q; grid := g;
     finished := finished q |}.

Lemma put_fence_outcome coord orient player q :
  inv q →
  (∃ e, put_fence coord orient player true q = (Raise e, q) ∧
        (e = IndexError ∨ e = ValueError "Not enough fences to put" ∨
         e = ValueError "Illegal position and orientation to put fence")) ∨
  ∃ i p g1,
    resolve player q = (Ok i, q) ∧ pawns q !! i = Some p ∧
    0 < num_fences p ∧
    lookup2 (grid q) coord = Some None ∧
    setitem2 (grid q) coord.1 coord.2 (Some orient) = Ok g1 ∧
    (∀ x, x ∈ pawns q → reaches_goal g1 (width q) (height q) x) ∧
    put_fence coord orient player true q = (Ok tt, placed q i p g1).
Proof.
  intros Hq. pose proof Hq as [Hsq Hg Hcs Hcache Hboard Hgoal].
  destruct (put_fence coord orient player true q) as [r q'] eqn:Hrun.
  unfold put_fence in Hrun. unfold mbind at 1 in Hrun.
  destruct (resolve_cases player q) as [(i & p & Hr & Hi)|(e & Hr)];
    rewrite Hr in Hrun.
  2:{ injection Hrun as <- <-. left. exists e. split; [done|]. left.
      by eapply resolve_raises. }
  unfold mbind at 1 in Hrun. unfold put_fence_check, mbind at 1 in Hrun.
  rewrite (pawn_at_lookup i q p Hi) in Hrun.
  destruct (decide (num_fences p ≤ 0)) as [Hle|Hgt].
  { injection Hrun as <- <-. left. eexists. split; [done|]. right. by left. }
  destruct (can_put_fence_spec q coord orient Hsq Hg Hcache Hboard)
    as (b & Hcan & Hb).
  unfold mbind at 1 in Hrun. rewrite Hcan in Hrun.
  destruct b.
  2:{ injection Hrun as <- <-. left. eexists. split; [done|]. right.
      by right. }
  destruct (Hb eq_refl) as (g1 & Hset & Hg1 & Hgoal1).
  apply can_put_fence_returns in Hcan
    as [[[=] _]|(_ & _ & Hslot & _)].
  unfold mret in Hrun.
  unfold mbind at 1 in Hrun. unfold assign_grid in Hrun.
  rewrite Hset in Hrun.
  unfold mbind at 1 in Hrun. unfold update_pawn in Hrun. simpl in Hrun.
  rewrite Hi in Hrun. unfold mbind in Hrun.
  rewrite next_pawn_some in Hrun.
  2:{ simpl. intros E. apply (f_equal length) in E.
      rewrite length_insert in E. apply lookup_lt_Some in Hi.
      simpl in E. lia. }
  simpl in Hrun. rewrite length_insert in Hrun.
  right. exists i, p, g1. split_and!; try done; try lia.
  all: by rewrite <- Hrun.
Qed.



(** X12: on a square board in play, a validated [put_fence] that returns
    was given an empty slot of the fence grid by a pawn that had a fence
    left; the game it leaves is the old one with that slot holding the
    fence and every other slot as before, the pawn's count one lower, and
    the turn passed to the next pawn; every pawn still reaches its goal
    edge. *)
Theorem X12_put_fence_effect (q q' : Quoridor) (coord : cell)
    (orient : Orient) (player : option nat) :
  inv q → put_fence coord orient player true q = (Ok tt, q') →
  ∃ i p g1,
    resolve player q = (Ok i, q) ∧ pawns q !! i = Some p ∧
    0 < num_fences p ∧ lookup2 (grid q) coord = Some None ∧
    q' = placed q i p g1 ∧
    (∀ s, lookup2 g1 s = if decide (s = coord) then Some (Some orient)
                         else lookup2 (grid q) s) ∧
    (∀ x, x ∈ pawns q' → reaches_goal g1 (width q) (height q) x).
Proof.
  intros Hq Hrun.
  destruct (put_fence_outcome coord orient player q Hq)
    as [(e & He & _)|(i & p & g1 & Hr & Hi & Hn & Hslot & Hset & Hgoal & Hm)];
    [congruence|].
  exists i, p, g1. rewrite Hm in Hrun. injection Hrun as <-.
  split_and!; try done.
  - assert (coord = (coord.1, coord.2)) as E by by destruct coord.
    rewrite E in Hslot.
    destruct (setitem2_lookup2 _ _ _ (Some orient) _ Hslot)
      as (g1' & Hset' & Hl & _).
    rewrite Hset in Hset'. injection Hset' as <-. by rewrite <- E in Hl.
  - simpl. intros x Hx. apply elem_of_insert_inv in Hx as [->|Hx].
    + apply (Hgoal p). apply list_elem_of_lookup. eauto.
    + by apply Hgoal.
Qed.

Lemma X12_put_fence_effect_witness :
  ∃ i p g1,
    resolve None start9 = (Ok i, start9) ∧ pawns start9 !! i = Some p ∧
    0 < num_fences p ∧ lookup2 (grid start9) (3, 3) = Some None ∧
    (put_fence (3, 3) HORZ None true start9).2 = placed start9 i p g1 ∧
    (∀ s, lookup2 g1 s = if decide (s = (3, 3)) then Some (Some HORZ)
                         else lookup2 (grid start9) s) ∧
    (∀ x, x ∈ pawns (put_fence (3, 3) HORZ None true start9).2 →
          reaches_goal g1 (width start9) (height start9) x).
Proof.
  apply (X12_put_fence_effect start9 _ (3, 3) HORZ None start9_inv).
  by vm_compute.
Defined.

(** ** Fences on the board and in hand *)








(** ** [move_region], exactly *)

Section move_region_exact.
Context (cs : list (list (option nat))) (g : fence_grid) (w h : Z).
Context (Hcs : rect (Z.to_nat w) (Z.to_nat h) cs) (Hg : wf_grid w h g).

(** One hop of the traversal: from a cell that holds a pawn across an open
    edge. *)
Definition hop (x y : cell) : Prop := occupied cs x ∧ linked g w h x y.

(** Everything the traversal has collected is reached from [s0] by hops. *)
Definition hopped (s0 : cell) (st : gset cell * gset cell) : Prop :=
  ∀ x, x ∈ st.1 ∪ st.2 → rtc hop s0 x.

Lemma move_region_rec_hopped s0 fuel p st st' :
  in_board w h p → rtc hop s0 p → hopped s0 st →
  move_region_rec fuel cs g w h p st = Ok st' → hopped s0 st'.
Proof.
  revert p st st'. induction fuel as [|fuel IH]; intros p [R V] st' Hp Hsp Hst;
    [done|].
  simpl. destruct (decide (p ∈ V)); [by intros [= <-]|].
  pose proof Hp as [Hp1 Hp2]. rewrite getitem2_lookup2 by lia.
  replace (p.1, p.2) with p by by destruct p.
  destruct (lookup2 cs p) as [[i|]|] eqn:Hv; simpl; [| |done].
  2:{ intros [= <-] x Hx. simpl in Hx.
      destruct (decide (x = p)) as [->|]; [done|]. apply Hst. set_solver. }
  set (go := visit g w h p (λ st q, move_region_rec fuel cs g w h q st)).
  assert (∀ d st1 st2, hopped s0 st1 → go st1 d = Ok st2 → hopped s0 st2)
    as Hstep.
  { intros d st1 st2 H1. unfold go, visit.
    destruct (passable_spec g w h d p Hg Hp) as (b & -> & Hb). simpl.
    destruct b; [|by intros [= <-]].
    pose proof (proj1 Hb eq_refl) as Hl. pose proof Hl as (_ & Hq & _).
    apply IH; [done| |done].
    eapply rtc_r; [exact Hsp|]. split; [by exists i|done]. }
  assert (hopped s0 (R, {[p]} ∪ V)) as H0.
  { intros x Hx. simpl in Hx.
    destruct (decide (x = p)) as [->|]; [done|]. apply Hst. set_solver. }
  destruct (go (R, {[p]} ∪ V) Wd) as [s1|] eqn:E1; simpl; [|done].
  destruct (go s1 Ed) as [s2|] eqn:E2; simpl; [|done].
  destruct (go s2 Sd) as [s3|] eqn:E3; simpl; [|done].
  intros E4. eauto.
Qed.

(** A chain of hops from a traversed pawn ends, when it ends on a vacant
    cell, in the region. *)
Lemma grow_hops p R V x y :
  grow cs g w h p (∅, ∅) (R, V) → x ∈ V → rtc hop x y → vacant cs y →
  y ∈ R.
Proof.
  intros (_ & _ & Hreg & Hvis) Hx Hxy Hy. simpl in *.
  induction Hxy as [x|x x1 y [_ Hl] Hrest IH].
  - destruct (Hvis x Hx) as (_ & Hocc & _); [set_solver|].
    by destruct (vacant_not_occupied cs x Hy).
  - destruct (Hvis x Hx) as (_ & _ & _ & Hclosed); [set_solver|].
    specialize (Hclosed x1 Hl). apply elem_of_union in Hclosed as [H1|H1];
      [|by apply IH].
    destruct (Hreg x1 H1) as [Hv1 _]; [set_solver|].
    inversion Hrest as [|? x2 ? [Hocc _] _]; subst; [done|].
    by destruct (vacant_not_occupied cs x1 Hv1).
Qed.
End move_region_exact.

(** X14: the cells a pawn may move to, exactly.  On a board whose grids
    have their shapes, for a pawn on the board whose own cell is recorded as
    occupied, [move_region] returns, changes nothing, and its result holds a
    cell exactly when that cell is vacant and is reached from the pawn's
    cell by a chain of steps across open edges, each step leaving a cell
    that holds a pawn: one step to a free neighbour, or a walk over any
    number of pawns standing in line or around a corner. *)
Theorem X14_move_region_exact (q : Quoridor) (pawn : option nat) (i : nat)
    (p : Pawn) :
  rect (Z.to_nat (width q)) (Z.to_nat (height q)) (cells q) →
  wf_grid (width q) (height q) (grid q) →
  resolve pawn q = (Ok i, q) → pawns q !! i = Some p →
  in_board (width q) (height q) (pos p) →
  occupied (cells q) (pos p) →
  ∃ region,
    move_region pawn q = (Ok region, q) ∧
    ∀ y, y ∈ region ↔
         vacant (cells q) y ∧
         rtc (hop (cells q) (grid q) (width q) (height q)) (pos p) y.
Proof.
  intros Hcs Hg Hr Hi Hp Hocc.
  destruct (move_region_spec q i p Hcs Hg Hi Hp)
    as (region & visited & Hrun & Hgrow & Hstart).
  exists region. rewrite (move_region_resolved pawn i q Hr).
  split; [done|]. intros y. split.
  - intros Hy. split; [by apply Hgrow|].
    pose proof Hrun as Hrun'. unfold move_region, mbind in Hrun'.
    rewrite (resolve_some i q p Hi), (pawn_at_lookup i q p Hi) in Hrun'.
    unfold get, lift, mret in Hrun'.
    destruct (move_region_rec _ _ _ _ _ _ _) as [st|] eqn:Erec; [|done].
    injection Hrun' as <-.
    assert (hopped (cells q) (grid q) (width q) (height q) (pos p) st)
      as Hh.
    { eapply move_region_rec_hopped;
        [exact Hcs|exact Hg|exact Hp|apply rtc_refl| |exact Erec].
      intros x Hx. set_solver. }
    apply Hh. set_solver.
  - intros [Hvac Hhops].
    eapply (grow_hops (cells q) (grid q) (width q) (height q));
      [exact Hcs|exact Hg|exact Hgrow| |exact Hhops|exact Hvac].
    apply elem_of_union in Hstart as [Hin|Hin]; [|done].
    destruct Hgrow as (_ & _ & Hreg & _).
    destruct (Hreg (pos p) Hin) as [Hv _]; [set_solver|].
    by destruct (vacant_not_occupied _ _ Hv).
Qed.

Lemma X14_move_region_exact_witness :
  ∃ region,
    move_region None face3 = (Ok region, face3) ∧
    ∀ y, y ∈ region ↔
         vacant (cells face3) y ∧
         rtc (hop (cells face3) (grid face3) 3 3) (1, 2) y.
Proof.
  apply (X14_move_region_exact face3 None 1 (mkPawn 10 NORTH (1, 2) false)).
  - reflexivity.
  - reflexivity.
  - reflexivity.
  - reflexivity.
  - by vm_compute.
  - by exists 1%nat.
Defined.

(** ** [can_put_fence], exactly *)



(** ** A board that is not square keeps the fence of a failed placement *)



(** ** The label cache of [is_blocking] *)



(** ** [_fill_cells] on a blank matrix *)



(** ** Games played through [do] *)

(** The states a game goes through when it is driven by commands, as the
    main loop drives it; a command that raises counts, with the state it
    leaves. *)
Inductive played (q0 : Quoridor) : Quoridor → Prop :=
  | played_init : played q0 q0
  | played_step q cmd : played q0 q → played q0 (do cmd q).2.

(** [do], with the binds of the method monad carried out. *)
Lemma do_unfold cmd q :
  do cmd q =
    if finished q then (Raise (ValueError "Game already finished"), q) else
    let u := upper (String.list_ascii_of_string cmd) in
    if match_moves u then
      match getitem (pawns q) (Z.of_nat (_curr_pawn q)) with
      | Ok p => move (foldl step_char (pos p) u) None true q
      | Raise e => (Raise e, q)
      end
    else if match_fence u then
      match parse_text_coord (removelast u) with
      | Ok coord =>
          put_fence coord
            (if bool_decide (last u = Some "|"%char) then VERT else HORZ)
            None true q
      | Raise e => (Raise e, q)
      end
    else (Raise (ValueError "Illegal command"), q).
Proof.
  unfold do, mbind at 1, get. destruct (finished q); [done|]. cbv zeta.
  destruct (match_moves _).
  - unfold mbind at 1, curr_pawn.
    destruct (getitem (pawns q) (Z.of_nat (_curr_pawn q))) as [p|e] eqn:E;
      simpl; [|done].
    unfold mbind at 1, pawn_at. by rewrite E.
  - destruct (match_fence _); [|done].
    unfold mbind at 1, lift. by destruct (parse_text_coord _).
Qed.

(** A command either leaves the game as it is or is a validated action of
    the current pawn on a game that is not finished. *)
Lemma do_cases cmd q :
  (do cmd q).2 = q ∨
  finished q = false ∧
  ∃ a, do cmd q = perform a q ∧
       ((∃ dst, a = Move dst None) ∨ (∃ c o, a = PutFence c o None)).
Proof.
  rewrite do_unfold. destruct (finished q) eqn:Hfin; [by left|]. cbv zeta.
  destruct (match_moves _).
  - destruct (getitem (pawns q) (Z.of_nat (_curr_pawn q))) as [p|e];
      [|by left].
    right. split; [done|].
    eexists (Move _ None). split; [reflexivity|]. left. by eexists.
  - destruct (match_fence _); [|by left].
    destruct (parse_text_coord _) as [coord|e]; [|by left].
    right. split; [done|].
    eexists (PutFence coord _ None). split; [reflexivity|]. right.
    by do 2 eexists.
Qed.

Lemma resolve_None_curr q i :
  resolve None q = (Ok i, q) → i = _curr_pawn q.
Proof.
  simpl. unfold curr_pawn. destruct (getitem _ _); simpl; [|done].
  by intros [= <-].
Qed.

(** The win flags agree with [finished] and the turn. *)
Definition flags_ok (q : Quoridor) : Prop :=
  (∀ j p, pawns q !! j = Some p →
          (win p = true ↔ finished q = true ∧ j = _curr_pawn q)) ∧
  (finished q = true →
   ∃ p, pawns q !! _curr_pawn q = Some p ∧
        wins q (side p) (pos p) = true) ∧
  (∀ p, p ∈ pawns q → side p = NORTH ∨ side p = SOUTH).

Lemma flags_ok_not_won q j p :
  flags_ok q → finished q = false → pawns q !! j = Some p → win p = false.
Proof.
  intros [Hw _] Hfin Hj. destruct (win p) eqn:E; [|done].
  apply (Hw j p Hj) in E as [E _]. congruence.
Qed.

Lemma flags_ok_perform a q :
  inv q → flags_ok q → finished q = false →
  ((∃ dst, a = Move dst None) ∨ (∃ c o, a = PutFence c o None)) →
  flags_ok (perform a q).2.
Proof.
  intros Hq Hf Hfin [[dst ->]|(c & o & ->)]; simpl.
  - destruct (move_outcome dst None q Hq)
      as [(e & -> & _)|(i & p & cs1 & cs2 & Hr & Hi & _ & _ & _ & _ & ->)];
      [done|].
    apply resolve_None_curr in Hr as ->. simpl.
    pose proof (flags_ok_not_won q _ p Hf Hfin Hi) as Hwp.
    assert (p ∈ pawns q) as Hp by (apply list_elem_of_lookup; eauto).
    assert (∀ w0 x,
      x ∈ <[_curr_pawn q := mkPawn (num_fences p) (side p) dst w0]> (pawns q)
      → side x = NORTH ∨ side x = SOUTH) as Hsides.
    { intros w0 x Hx. apply elem_of_insert_inv in Hx as [->|Hx];
        [simpl|]; by apply (proj2 (proj2 Hf)). }
    unfold flags_ok, moved. simpl.
    destruct (wins q (side p) dst) eqn:Hwon; simpl.
    + split; [|split; [|by apply Hsides]].
      * intros j x Hj.
        apply list_lookup_insert_Some in Hj as [(<- & <- & _)|[Hne Hj]];
          simpl; [done|].
        rewrite (flags_ok_not_won q j x Hf Hfin Hj). split; [done|].
        by intros [_ ->].
      * intros _. eexists. split.
        { apply list_lookup_insert_eq. by eapply lookup_lt_Some. }
        done.
    + split; [|split; [congruence|by apply Hsides]].
      intros j x Hj. rewrite Hfin.
      apply list_lookup_insert_Some in Hj as [(<- & <- & _)|[Hne Hj]]; simpl.
      * rewrite Hwp. split; [done|by intros []].
      * rewrite (flags_ok_not_won q j x Hf Hfin Hj).
        split; [done|by intros []].
  - destruct (put_fence_outcome c o None q Hq)
      as [(e & -> & _)|(i & p & g1 & _ & Hi & _ & _ & _ & _ & ->)]; [done|].
    assert (p ∈ pawns q) as Hp by (apply list_elem_of_lookup; eauto).
    unfold flags_ok, placed. simpl. split; [|split; [congruence|]].
    + intros j x Hj. rewrite Hfin.
      apply list_lookup_insert_Some in Hj as [(<- & <- & _)|[Hne Hj]]; simpl.
      * rewrite (flags_ok_not_won q _ p Hf Hfin Hi).
        split; [done|by intros []].
      * rewrite (flags_ok_not_won q j x Hf Hfin Hj).
        split; [done|by intros []].
    + intros x Hx. apply elem_of_insert_inv in Hx as [->|Hx];
        [simpl|]; by apply (proj2 (proj2 Hf)).
Qed.

(** X19: a game played through [do] from the default start of a square
    board only ever goes through states of validated play; in each of them
    a pawn is flagged as winner exactly when the game is finished and it is
    the current pawn; and when the game is finished the current pawn, the
    one the main loop announces, stands on its goal edge. *)
Theorem X19_played_winner (n : Z) (q0 q : Quoridor) :
  0 < n → __init__ n n None None = Ok q0 → played q0 q →
  reachable q0 q ∧
  (∀ j p, pawns q !! j = Some p →
          (win p = true ↔ finished q = true ∧ j = _curr_pawn q)) ∧
  (finished q = true →
   ∃ p, pawns q !! _curr_pawn q = Some p ∧ win p = true ∧
        on_edge (oppo (side p)) (width q) (height q) (pos p)).
Proof.
  intros Hn Hinit Hplay.
  destruct (init_default n Hn) as (q0' & Hinit' & Hinv0 & _ & _ & Hfin0 & Hps0).
  rewrite Hinit in Hinit'. injection Hinit' as <-.
  assert (reachable q0 q ∧ flags_ok q) as [Hreach (Hw & Hg & Hns)].
  { induction Hplay as [|q cmd _ [IHr IHf]].
    - split; [apply reachable_init|]. split; [|split; [congruence|]].
      + intros j p Hj. rewrite Hfin0, Hps0 in *.
        destruct j as [|[|j]]; simpl in Hj; [| |done];
          injection Hj as <-; simpl; split; try done; by intros [].
      + intros p Hp. rewrite Hps0 in Hp.
        rewrite !elem_of_cons, elem_of_nil in Hp.
        destruct Hp as [->|[->|[]]]; auto.
    - destruct (do_cases cmd q) as [->|(Hfin & a & -> & Ha)]; [done|].
      split; [by apply reachable_step|].
      apply flags_ok_perform; [by eapply inv_reachable|done..]. }
  split; [done|]. split; [done|]. intros Hfin.
  destruct (Hg Hfin) as (p & Hp & Hwins). exists p. split; [done|].
  split; [by apply (Hw _ p Hp)|].
  pose proof (inv_reachable q0 q Hinv0 Hreach) as [_ _ _ _ Hboard _].
  assert (in_board (width q) (height q) (pos p)) as Hb.
  { apply Hboard. apply list_elem_of_lookup. eauto. }
  split; [done|]. unfold wins in Hwins. apply bool_decide_eq_true in Hwins.
  assert (p ∈ pawns q) as Hin by (apply list_elem_of_lookup; eauto).
  destruct (Hns p Hin) as [Hside|Hside]; rewrite Hside in *; simpl;
    destruct Hwins as [[Hs Hd]|[[Hs Hd]|[[Hs Hd]|[Hs Hd]]]]; done.
Qed.

Lemma X19_played_winner_witness :
  finished (do "n" start2).2 = true ∧
  ∃ p, pawns (do "n" start2).2 !! _curr_pawn (do "n" start2).2 = Some p ∧
       win p = true ∧
       on_edge (oppo (side p)) (width (do "n" start2).2)
               (height (do "n" start2).2) (pos p).
Proof.
  split; [reflexivity|].
  apply (X19_played_winner 2 start2 (do "n" start2).2); [lia|reflexivity| |].
  - apply played_step, played_init.
  - reflexivity.
Defined.

(** ** When a move wins *)

(** The edge on which [move] declares a pawn of a side the winner. *)
Definition winning_edge (sd : Compass) : Compass :=
  match sd with
  | NORTH => SOUTH
  | SOUTH => NORTH
  | WEST => WEST
  | EAST => EAST
  end.

(** X20: on a square board in play that is not finished, a validated
    [move] that returns finishes the game exactly when the pawn lands on
    the edge that the test in [move] names for its side: row 0 for a North
    pawn and the last row for a South pawn, which are the goal edges that
    [is_blocking] uses, but column 0 for a West pawn and the last column
    for an East pawn, which are those pawns' own edges and not the opposite
    ones. *)
Theorem X20_when_move_wins (q q' : Quoridor) (dst : cell)
    (pawn : option nat) (i : nat) (p : Pawn) :
  inv q → finished q = false →
  resolve pawn q = (Ok i, q) → pawns q !! i = Some p →
  move dst pawn true q = (Ok tt, q') →
  (finished q' = true ↔
   on_edge (winning_edge (side p)) (width q) (height q) dst) ∧
  (side p = NORTH ∨ side p = SOUTH → winning_edge (side p) = oppo (side p)) ∧
  (side p = WEST ∨ side p = EAST → winning_edge (side p) = side p).
Proof.
  intros Hq Hfin Hr Hi Hrun. split; [|split; intros [->| ->]; done].
  pose proof Hq as [_ _ Hcs _ _ _].
  destruct (move_outcome dst pawn q Hq)
    as [(e & He & _)
       |(i' & p' & cs1 & cs2 & Hr' & Hi' & Hvac & _ & _ & _ & Hm)];
    [congruence|].
  rewrite Hr in Hr'. injection Hr' as <-.
  rewrite Hi in Hi'. injection Hi' as <-.
  rewrite Hm in Hrun. injection Hrun as <-.
  assert (in_board (width q) (height q) dst) as Hb.
  { unfold vacant in Hvac.
    pose proof (proj1 (rect_lookup2 _ _ _ dst Hcs) (mk_is_Some _ _ Hvac)).
    unfold in_board. lia. }
  unfold moved. simpl. unfold wins, on_edge.
  case_bool_decide as Hw; rewrite ?Hfin.
  - split; [intros _|done]. split; [done|].
    destruct Hw as [[-> Hd]|[[-> Hd]|[[-> Hd]|[-> Hd]]]]; done.
  - split; [done|]. intros [_ He]. destruct Hw.
    destruct (side p); simpl in He; auto.
Qed.

Lemma X20_when_move_wins_witness :
  finished (move (1, 1) None true start2).2 = true ↔
  on_edge NORTH 2 2 (1, 1).
Proof.
  assert (inv start2) as Hinv.
  { destruct (init_default 2) as (q0 & Hinit & Hinv & _); [lia|].
    rewrite start2_init in Hinit. by injection Hinit as <-. }
  apply (X20_when_move_wins start2 _ (1, 1) None 0 (new_pawn SOUTH (1, 0))
           Hinv); reflexivity.
Defined.

(** A West pawn wins on its own edge: on a 3 by 3 board with a West and an
    East pawn, West's first step along column 0 finishes the game. *)
Example west_wins_at_home :
  match __init__ 3 3 (Some [new_pawn WEST (0, 1); new_pawn EAST (2, 1)]) None
  with
  | Ok q =>
      (move (0, 2) None true q).1 = Ok tt ∧
      finished (move (0, 2) None true q).2 = true ∧
      win <$> pawns (move (0, 2) None true q).2 = [true; false]
  | Raise _ => False
  end.
Proof. by vm_compute. Qed.
